(** * Head tracker: quaternion -> Euler angles -> joystick axes

    A shallow embedding of [tracker.ino] (RP2040 + BNO085 head tracker).
    The sketch computes in IEEE-754 single precision ([float]); a few
    sub-expressions are promoted to double precision by the [PI] macro.
    Both formats are modelled bit-exactly with the Standard Library's
    [SpecFloat] operations (round to nearest, ties to even).  *)

From Stdlib Require Import ZArith Bool List Lia String Ascii Reals Lra Psatz SpecFloat.
Import ListNotations.
Open Scope Z_scope.

(** ** Floating-point formats *)

Definition float := spec_float.
Definition double := spec_float.

(** [float]: binary32. *)
Module F32.
Definition prec : Z := 24.
Definition emax : Z := 128.
Definition add : float -> float -> float := SFadd prec emax.
Definition sub : float -> float -> float := SFsub prec emax.
Definition mul : float -> float -> float := SFmul prec emax.
Definition div : float -> float -> float := SFdiv prec emax.
Definition sqrtf : float -> float := SFsqrt prec emax.
Definition valid (x : float) : bool := valid_binary prec emax x.
(** Conversion of an integer (an [int] operand or an integral literal). *)
Definition of_Z (z : Z) : float := binary_normalize prec emax z 0 false.
(** Conversion from another format: rounds the mantissa to 24 bits. *)
Definition of_spec (x : spec_float) : float :=
  match x with
  | S754_finite s m e => binary_round prec emax s m e
  | _ => x
  end.
End F32.

(** [double]: binary64. *)
Module F64.
Definition prec : Z := 53.
Definition emax : Z := 1024.
Definition add : double -> double -> double := SFadd prec emax.
Definition mul : double -> double -> double := SFmul prec emax.
Definition div : double -> double -> double := SFdiv prec emax.
Definition valid (x : double) : bool := valid_binary prec emax x.
Definition of_Z (z : Z) : double := binary_normalize prec emax z 0 false.
(** Promotion of a [float]: exact. *)
Definition of_spec (x : spec_float) : double :=
  match x with
  | S754_finite s m e => binary_round prec emax s m e
  | _ => x
  end.
End F64.

(** Comparisons and sign operations do not depend on the format. *)
Definition flt (a b : spec_float) : bool := SFltb a b.
Definition fle (a b : spec_float) : bool := SFleb a b.
Definition fabsf (a : float) : float := SFabs a.
Definition fneg (a : spec_float) : spec_float := SFopp a.

Definition signbit (a : spec_float) : bool :=
  match a with
  | S754_zero s | S754_infinity s | S754_finite s _ _ => s
  | S754_nan => false
  end.

(** [copysignf(x, y)]: the magnitude of [x] with the sign of [y]. *)
Definition copysignf (x y : float) : float :=
  if signbit y then fneg (SFabs x) else SFabs x.

Definition is_nan (a : spec_float) : bool :=
  match a with S754_nan => true | _ => false end.

Definition is_finite (a : spec_float) : bool :=
  match a with S754_zero _ | S754_finite _ _ _ => true | _ => false end.

(** ** Literals of the sketch *)

Definition f0 : float := S754_zero false.
Definition f1 : float := Eval vm_compute in F32.of_Z 1.
Definition f2 : float := Eval vm_compute in F32.of_Z 2.
Definition f10 : float := Eval vm_compute in F32.of_Z 10.
Definition f127 : float := Eval vm_compute in F32.of_Z 127.
Definition f180 : float := Eval vm_compute in F32.of_Z 180.
Definition f360 : float := Eval vm_compute in F32.of_Z 360.

(** The [PI] macro of the Arduino core ([Arduino.h], not part of the
    sketch): the literal [3.1415926535897932384626433832795], of type
    [double], i.e. the binary64 number [0x400921FB54442D18]. *)
Definition PI : double := S754_finite false 7074237752028440 (-51).

(** [180.0f / PI]: the [float] operand is promoted, the quotient is a
    [double]. *)
Definition deg_per_rad : double := F64.div (F64.of_spec f180) PI.

(** [PI / 2] converted to the [float] parameter of [copysignf]. *)
Definition half_pi : float := F32.of_spec (F64.div PI (F64.of_Z 2)).

(** [a *= 180.0f / PI] on a [float] variable: double product, rounded
    back on assignment. *)
Definition to_degrees (a : float) : float :=
  F32.of_spec (F64.mul (F64.of_spec a) deg_per_rad).

(** [sum += a * 180.0f / PI] in [resetView]: [a * 180.0f] is a [float]
    product, the division by [PI] and the addition are done in
    [double], the assignment rounds. *)
Definition accumulate_degrees (sum a : float) : float :=
  F32.of_spec
    (F64.add (F64.of_spec sum)
             (F64.div (F64.of_spec (F32.mul a f180)) PI)).

(** ** The C math library

    [atan2f] and [asinf] come from the toolchain's libm, not from the
    sketch; the model is parametric in them.  [sqrtf] is the IEEE-754
    correctly rounded square root. *)
Class Libm := {
  atan2f : float -> float -> float;
  asinf : float -> float
}.

(** ** Quaternion to Euler angles

    The block that [loop], [initialCenter] and [resetView] each repeat
    verbatim. *)

Record Quaternion := mkQuat { qw : float; qx : float; qy : float; qz : float }.

Record EulerAngles := mkEuler { yaw : float; pitch : float; roll : float }.

(** [norm = sqrtf(qw*qw + qx*qx + qy*qy + qz*qz)]; C's [+] associates to
    the left. *)
Definition quat_norm (q : Quaternion) : float :=
  F32.sqrtf
    (F32.add
       (F32.add
          (F32.add (F32.mul (qw q) (qw q)) (F32.mul (qx q) (qx q)))
          (F32.mul (qy q) (qy q)))
       (F32.mul (qz q) (qz q))).

(** [qw /= norm; qx /= norm; qy /= norm; qz /= norm;] -- no test on
    [norm]. *)
Definition normalize (q : Quaternion) : Quaternion :=
  let norm := quat_norm q in
  mkQuat (F32.div (qw q) norm) (F32.div (qx q) norm)
         (F32.div (qy q) norm) (F32.div (qz q) norm).

Section Euler.
Context {L : Libm}.

Definition sinr_cosp (q : Quaternion) : float :=
  F32.mul f2 (F32.add (F32.mul (qw q) (qx q)) (F32.mul (qy q) (qz q))).
Definition cosr_cosp (q : Quaternion) : float :=
  F32.sub f1 (F32.mul f2 (F32.add (F32.mul (qx q) (qx q)) (F32.mul (qy q) (qy q)))).
Definition sinp (q : Quaternion) : float :=
  F32.mul f2 (F32.sub (F32.mul (qw q) (qy q)) (F32.mul (qz q) (qx q))).
Definition siny_cosp (q : Quaternion) : float :=
  F32.mul f2 (F32.add (F32.mul (qw q) (qz q)) (F32.mul (qx q) (qy q))).
Definition cosy_cosp (q : Quaternion) : float :=
  F32.sub f1 (F32.mul f2 (F32.add (F32.mul (qy q) (qy q)) (F32.mul (qz q) (qz q)))).

Definition roll_rad (q : Quaternion) : float := atan2f (sinr_cosp q) (cosr_cosp q).

Definition pitch_rad (q : Quaternion) : float :=
  if fle f1 (fabsf (sinp q)) then copysignf half_pi (sinp q)
  else asinf (sinp q).

Definition yaw_rad (q : Quaternion) : float := atan2f (siny_cosp q) (cosy_cosp q).

(** Euler angles in radians of a quaternion that is already
    normalised. *)
Definition euler_rad (q : Quaternion) : EulerAngles :=
  mkEuler (yaw_rad q) (pitch_rad q) (roll_rad q).

(** Normalisation, decomposition and conversion to degrees, as in
    [loop] and [initialCenter]. *)
Definition quat_to_euler (raw : Quaternion) : EulerAngles :=
  let q := normalize raw in
  mkEuler (to_degrees (yaw_rad q)) (to_degrees (pitch_rad q))
          (to_degrees (roll_rad q)).
End Euler.

(** ** Angle wrapping

    [while (a > 180.0f) a -= 360.0f; while (a < -180.0f) a += 360.0f;]
    The loops are unbounded in C; the model counts iterations with a
    fuel and answers [None] when the fuel runs out. *)

Fixpoint wrap_down (fuel : nat) (a : float) : option float :=
  if flt f180 a then
    match fuel with
    | O => None
    | S n => wrap_down n (F32.sub a f360)
    end
  else Some a.

Fixpoint wrap_up (fuel : nat) (a : float) : option float :=
  if flt a (fneg f180) then
    match fuel with
    | O => None
    | S n => wrap_up n (F32.add a f360)
    end
  else Some a.

Definition wrap (fuel : nat) (a : float) : option float :=
  match wrap_down fuel a with
  | Some b => wrap_up fuel b
  | None => None
  end.

(** Offsets subtracted, then each angle wrapped (yaw, pitch, roll in
    the order of the source). *)
Record CalibrationOffset := mkOffset {
  yaw_offset : float; pitch_offset : float; roll_offset : float
}.

Definition normalize_angle (fuel : nat) (raw offset : float) : option float :=
  wrap fuel (F32.sub raw offset).

Definition normalize_angles (fuel : nat) (e : EulerAngles) (o : CalibrationOffset)
  : option EulerAngles :=
  match normalize_angle fuel (yaw e) (yaw_offset o) with
  | None => None
  | Some y =>
    match normalize_angle fuel (pitch e) (pitch_offset o) with
    | None => None
    | Some p =>
      match normalize_angle fuel (roll e) (roll_offset o) with
      | None => None
      | Some r => Some (mkEuler y p r)
      end
    end
  end.

(** ** Range mapping *)

Definition mapFloat (x in_min in_max out_min out_max : float) : float :=
  F32.add
    (F32.div (F32.mul (F32.sub x in_min) (F32.sub out_max out_min))
             (F32.sub in_max in_min))
    out_min.

(** The call of [loop]: [mapFloat(a, -180.0, 180.0, -127.0, 127.0)]. *)
Definition to_axis (a : float) : float :=
  mapFloat a (fneg f180) f180 (fneg f127) f127.

(** ** Collaborators: sensor, serial line, USB HID *)

(** [SH2_ROTATION_VECTOR] of the sensor library's [sh2.h] (not part of
    the sketch). *)
Definition SH2_ROTATION_VECTOR : Z := 5.

(** The fields of [sh2_SensorValue_t] the sketch reads;
    [rotationVector] holds [real], [i], [j], [k] as [qw], [qx], [qy],
    [qz]. *)
Record sh2_SensorValue_t := mkSensorValue {
  sensorId : Z;
  status : Z;
  rotationVector : Quaternion
}.

(** The fields of [hid_gamepad_report_t] the sketch writes ([int8_t]
    axes). *)
Record hid_gamepad_report_t := mkReport {
  report_x : Z; report_y : Z; report_z : Z; report_buttons : Z
}.

(** Conversion of a [float] to [int]: truncation toward zero.  Outside
    the range of [int] (where C leaves the conversion undefined) the
    value saturates and NaN gives 0, as the target's [__aeabi_f2iz]
    does. *)
Definition f2iz (a : float) : Z :=
  match a with
  | S754_finite s m e =>
    let mag := if 0 <=? e then Z.shiftl (Zpos m) e else Z.shiftr (Zpos m) (- e) in
    let v := if s then - mag else mag in
    Z.max (- 2 ^ 31) (Z.min (2 ^ 31 - 1) v)
  | S754_infinity s => if s then - 2 ^ 31 else 2 ^ 31 - 1
  | _ => 0
  end.

(** Assignment of a [float] to an [int8_t] field: the integer is
    narrowed to 8 bits, two's complement. *)
Definition int8_of_float (a : float) : Z :=
  (f2iz a + 128) mod 256 - 128.

Record State := mkState {
  (** the globals [yaw_offset], [pitch_offset], [roll_offset] *)
  offset : CalibrationOffset;
  (** the global [sensorValue] *)
  sensorValue : sh2_SensorValue_t;
  (** the global [gamepad_report] *)
  gamepad_report : hid_gamepad_report_t;
  (** what the next calls of [bno.getSensorEvent] will deliver:
      [None] when no event is ready *)
  bno : list (option sh2_SensorValue_t);
  (** the reports handed to [usb_hid.sendReport], oldest first *)
  sent : list hid_gamepad_report_t
}.

Definition set_offset (o : CalibrationOffset) (st : State) : State :=
  mkState o (sensorValue st) (gamepad_report st) (bno st) (sent st).

(** [bno.getSensorEvent(&sensorValue)]: [true] and a fresh
    [sensorValue] when an event is ready. *)
Definition getSensorEvent (st : State) : bool * State :=
  match bno st with
  | Some v :: rest =>
    (true, mkState (offset st) v (gamepad_report st) rest (sent st))
  | None :: rest =>
    (false, mkState (offset st) (sensorValue st) (gamepad_report st) rest (sent st))
  | [] => (false, st)
  end.

Definition is_rotation_vector (st : State) : bool :=
  sensorId (sensorValue st) =? SH2_ROTATION_VECTOR.

Section Sketch.
Context {L : Libm}.

(** *** [resetView] *)

(** [int samples = 10;] *)
Definition samples : Z := 10.

Record Sums := mkSums { yaw_sum : float; pitch_sum : float; roll_sum : float }.

(** One iteration of the [for] loop of [resetView]. *)
Definition resetView_body (acc : State * Sums) : State * Sums :=
  let '(st, s) := acc in
  let '(got, st1) := getSensorEvent st in
  if got && is_rotation_vector st1 then
    let q := normalize (rotationVector (sensorValue st1)) in
    (st1, mkSums (accumulate_degrees (yaw_sum s) (yaw_rad q))
                 (accumulate_degrees (pitch_sum s) (pitch_rad q))
                 (accumulate_degrees (roll_sum s) (roll_rad q)))
  else (st1, s).

(** [for (int i = 0; i < n; i++) body] *)
Fixpoint resetView_for (n : nat) (acc : State * Sums) : State * Sums :=
  match n with
  | O => acc
  | S k => resetView_for k (resetView_body acc)
  end.

Definition resetView (st : State) : State :=
  let '(st1, s) := resetView_for (Z.to_nat samples) (st, mkSums f0 f0 f0) in
  set_offset
    (mkOffset (F32.div (yaw_sum s) (F32.of_Z samples))
              (F32.div (pitch_sum s) (F32.of_Z samples))
              (F32.div (roll_sum s) (F32.of_Z samples)))
    st1.

(** *** [initialCenter]: polls the sensor once (the angles it
    computes are locals, dropped), then calls [resetView]. *)
Definition initialCenter (st : State) : State :=
  let '(_, st1) := getSensorEvent st in
  resetView st1.

(** *** [loop] *)

Definition is_space (c : ascii) : bool :=
  let n := nat_of_ascii c in
  (Nat.eqb n 32 || (Nat.leb 9 n && Nat.leb n 13))%bool.

Fixpoint trim_left (s : string) : string :=
  match s with
  | String c r => if is_space c then trim_left r else s
  | EmptyString => s
  end.

Fixpoint trim_right (s : string) : string :=
  match s with
  | String c r =>
    match trim_right r with
    | EmptyString => if is_space c then EmptyString else String c EmptyString
    | r' => String c r'
    end
  | EmptyString => s
  end.

(** [command.trim(); command == "reset" || command == "resetview"] *)
Definition is_reset_command (command : string) : bool :=
  let c := trim_right (trim_left command) in
  (String.eqb c "reset" || String.eqb c "resetview")%bool.

(** Angles to joystick report. *)
Definition axis_report (e : EulerAngles) : hid_gamepad_report_t :=
  mkReport (int8_of_float (to_axis (yaw e)))
           (int8_of_float (to_axis (pitch e)))
           (int8_of_float (to_axis (roll e)))
           0.

(** The body of [if (sensorValue.sensorId == SH2_ROTATION_VECTOR)]:
    [None] when a wrap loop does not finish within [fuel]. *)
Definition process_sample (fuel : nat) (usb_ready : bool) (st : State)
  : option State :=
  match normalize_angles fuel (quat_to_euler (rotationVector (sensorValue st)))
                         (offset st) with
  | None => None
  | Some e =>
    let r := axis_report e in
    Some (mkState (offset st) (sensorValue st) r (bno st)
                  (if usb_ready then sent st ++ [r] else sent st))
  end.

(** One pass of [loop].  [serial_line] is the line
    [Serial.readStringUntil] returns when input is available;
    [usb_ready] is the answer of [usb_hid.ready()].  The diagnostic
    printing is guarded by [report_values], which is [false] and
    never assigned. *)
Definition loop (fuel : nat) (serial_line : option string) (usb_ready : bool)
                (st : State) : option State :=
  let st0 :=
    match serial_line with
    | Some command => if is_reset_command command then resetView st else st
    | None => st
    end in
  let '(got, st1) := getSensorEvent st0 in
  if got && is_rotation_vector st1 then process_sample fuel usb_ready st1
  else Some st1.
End Sketch.

(** * Real-number reading of the floating-point model

    The definitions below are not part of the sketch: they give the
    exact real value of a float and state what it means for an
    operation to round correctly, so that bounds on the computed
    angles can be stated and proved. *)

(** [2^e] as a real number. *)
Definition bpow (e : Z) : R := powerRZ 2 e.

(** The real number a float stands for (0 for infinities and NaN). *)
Definition F2R (x : spec_float) : R :=
  match x with
  | S754_finite s m e => (IZR (cond_Zopp s (Z.pos m)) * bpow e)%R
  | _ => 0%R
  end.

(** The position of a real [x] with respect to the integer mantissa of
    a shift record: on it, below the half, on the half, above it. *)
Definition sr_ok (mrs : shr_record) (x : R) : Prop :=
  match shr_r mrs, shr_s mrs with
  | false, false => x = IZR (shr_m mrs)
  | false, true => IZR (shr_m mrs) < x < IZR (shr_m mrs) + / 2
  | true, false => x = IZR (shr_m mrs) + / 2
  | true, true => IZR (shr_m mrs) + / 2 < x < IZR (shr_m mrs) + 1
  end%R.

Section RoundingDefs.
Variables prec emax : Z.

(** [r] is the float of sign [s] and magnitude [z * 2^e], or the
    infinity of that sign when the magnitude is out of range. *)
Definition encodes (s : bool) (z e : Z) (r : spec_float) : Prop :=
  (z = 0 /\ r = S754_zero s) \/
  (exists m e2, r = S754_finite s m e2 /\ bounded prec emax m e2 = true /\
                (IZR (Z.pos m) * bpow e2 = IZR z * bpow e)%R) \/
  (r = S754_infinity s /\ (bpow emax <= IZR z * bpow e)%R).

(** [r] is a rounding to nearest of the positive real [v], of sign [s]. *)
Definition rounds_to (s : bool) (v : R) (r : spec_float) : Prop :=
  exists E z,
    (v < bpow E)%R /\
    ((bpow (E - 1) <= v)%R \/ fexp prec emax E = emin prec emax) /\
    0 <= z /\
    (Rabs (IZR z - v * bpow (- fexp prec emax E)) <= / 2)%R /\
    encodes s z (fexp prec emax E) r.

(** A number of the format: zero or a finite float in canonical form. *)
Definition finite_valid (x : spec_float) : bool :=
  is_finite x && valid_binary prec emax x.

(** [r] is a finite float obtained from the real [v] by a rounding
    that is monotone with respect to the numbers of the format, with
    the usual relative error bound (absolute in the subnormal range). *)
Definition rnd_ok (v : R) (r : spec_float) : Prop :=
  finite_valid r = true /\
  (forall b, finite_valid b = true -> (v <= F2R b)%R -> (F2R r <= F2R b)%R) /\
  (forall b, finite_valid b = true -> (F2R b <= v)%R -> (F2R b <= F2R r)%R) /\
  ((Rabs (F2R r - v) <= bpow (- prec) * Rabs v)%R \/
   (Rabs (F2R r - v) <= bpow (emin prec emax - 1))%R) /\
  ((bpow (emin prec emax + prec - 1) <= Rabs v)%R ->
   (Rabs (F2R r - v) <= bpow (- prec) * Rabs v)%R) /\
  ((0 < v)%R -> signbit r = false) /\
  ((v < 0)%R -> signbit r = true) /\
  (forall E, (Rabs v < bpow E)%R ->
             (Rabs (F2R r - v) <= bpow (fexp prec emax E - 1))%R).
End RoundingDefs.

(** The two formats of the sketch. *)
Definition fv32 (x : float) : bool := finite_valid F32.prec F32.emax x.
Definition fv64 (x : double) : bool := finite_valid F64.prec F64.emax x.
Definition rnd32 (v : R) (r : float) : Prop := rnd_ok F32.prec F32.emax v r.
Definition rnd64 (v : R) (r : double) : Prop := rnd_ok F64.prec F64.emax v r.

(** [x] is an integer multiple of [2^g]. *)
Definition is_multiple (g : Z) (x : spec_float) : Prop :=
  exists K : Z, F2R x = (IZR K * bpow g)%R.

(** Powers of two used as bounds. *)
Definition f2p27 : float := Eval vm_compute in F32.of_Z (2 ^ 27).
Definition f2p33 : float := Eval vm_compute in F32.of_Z (2 ^ 33).
Definition f2p34 : float := Eval vm_compute in F32.of_Z (2 ^ 34).

(** The [float] that follows [2^33]: [2^33 + 1024]. *)
Definition f2p33_succ : float := S754_finite false 8388609 10.

(** * What the sketch relies on from the C math library

    [atan2f] and [asinf] answer within the [float] neighbours of pi and
    pi/2, propagate NaN, and treat signed zeros as Annex F of the C
    standard prescribes. *)

(** The [float] nearest to pi, [0x40490FDB]. *)
Definition pi_f : float := Eval vm_compute in F32.of_spec PI.

Record LibmSpec (L : Libm) : Prop := {
  atan2f_nan : forall y x, (is_nan y || is_nan x)%bool = true -> atan2f y x = S754_nan;
  atan2f_range : forall y x, fv32 y = true -> fv32 x = true ->
    F32.valid (atan2f y x) = true /\ fle (fabsf (atan2f y x)) pi_f = true;
  atan2f_zero_neg : forall s x, flt x f0 = true ->
    atan2f (S754_zero s) x = if s then fneg pi_f else pi_f;
  atan2f_zero_pos : forall s x, flt f0 x = true ->
    atan2f (S754_zero s) x = S754_zero s;
  asinf_nan : asinf S754_nan = S754_nan;
  asinf_zero : forall s, asinf (S754_zero s) = S754_zero s;
  asinf_range : forall s, fv32 s = true -> fle (fabsf s) f1 = true ->
    F32.valid (asinf s) = true /\ fle (fabsf (asinf s)) half_pi = true
}.

(** A crude math library that meets [LibmSpec]: [atan2f] is exact on
    the axes only and [asinf] is its first-order approximation.  It
    shows that the contract can be met. *)
Definition coarse_atan2f (y x : float) : float :=
  if (is_nan y || is_nan x)%bool then S754_nan
  else match y with
       | S754_zero _ => if signbit x then copysignf pi_f y else y
       | _ => copysignf half_pi y
       end.

Definition coarse_asinf (s : float) : float :=
  if fle (fabsf s) f1 then s else S754_nan.

Definition coarse_libm : Libm := Build_Libm coarse_atan2f coarse_asinf.

(** * Sample data *)

Definition f18 : float := Eval vm_compute in F32.of_Z 18.
Definition f30 : float := Eval vm_compute in F32.of_Z 30.
Definition f40 : float := Eval vm_compute in F32.of_Z 40.
Definition f50 : float := Eval vm_compute in F32.of_Z 50.
Definition f90 : float := Eval vm_compute in F32.of_Z 90.
Definition f540 : float := Eval vm_compute in F32.of_Z 540.

(** The identity rotation, a half turn about the vertical axis, the
    same half turn with negative zeros, the null quaternion and a
    quaternion whose squares are subnormal. *)
Definition q_identity : Quaternion := mkQuat f1 f0 f0 f0.
Definition q_half_turn : Quaternion := mkQuat f0 f0 f0 f1.
Definition q_half_turn_neg : Quaternion :=
  mkQuat (S754_zero true) (S754_zero true) f0 f1.
Definition q_null : Quaternion := mkQuat f0 f0 f0 f0.
Definition q_tiny : Quaternion :=
  mkQuat (S754_finite false 10485760 (-97)) f0 f0 f0.

(** The quaternion whose four components are NaN. *)
Definition q_nan : Quaternion := mkQuat S754_nan S754_nan S754_nan S754_nan.

Definition rotation_event (q : Quaternion) : option sh2_SensorValue_t :=
  Some (mkSensorValue SH2_ROTATION_VECTOR 0 q).

(** The state after [setup], with a given calibration offset and the
    sensor events still to come. *)
Definition state_with (o : CalibrationOffset)
                      (events : list (option sh2_SensorValue_t)) : State :=
  mkState o (mkSensorValue 0 0 q_null) (mkReport 0 0 0 0) events [].

(** No event is ready during the first [n] polls. *)
Definition no_event (n : nat) (st : State) : bool :=
  forallb (fun ev => match ev with None => true | Some _ => false end)
          (firstn n (bno st)).

(** The rotation-vector quaternions among the first [n] polls. *)
Fixpoint fetched (n : nat) (events : list (option sh2_SensorValue_t))
  : list Quaternion :=
  match n, events with
  | S k, Some v :: rest =>
    if sensorId v =? SH2_ROTATION_VECTOR then rotationVector v :: fetched k rest
    else fetched k rest
  | S k, None :: rest => fetched k rest
  | _, _ => []
  end.

(** One more rotation-vector sample added to the sums of [resetView]. *)
Definition add_sample {L : Libm} (s : Sums) (raw : Quaternion) : Sums :=
  let q := normalize raw in
  mkSums (accumulate_degrees (yaw_sum s) (yaw_rad q))
         (accumulate_degrees (pitch_sum s) (pitch_rad q))
         (accumulate_degrees (roll_sum s) (roll_rad q)).

(** Ten polls of which only the first delivers a sample: a half turn. *)
Definition one_sample_events : list (option sh2_SensorValue_t) :=
  rotation_event q_half_turn :: repeat None 9.

(** The decomposition as the specification words it, on a quaternion
    [(w, x, y, z)] that is already normalised. *)
Definition spec_roll {L : Libm} (w x y z : float) : float :=
  to_degrees
    (atan2f (F32.mul f2 (F32.add (F32.mul w x) (F32.mul y z)))
            (F32.sub f1 (F32.mul f2 (F32.add (F32.mul x x) (F32.mul y y))))).

Definition spec_yaw {L : Libm} (w x y z : float) : float :=
  to_degrees
    (atan2f (F32.mul f2 (F32.add (F32.mul w z) (F32.mul x y)))
            (F32.sub f1 (F32.mul f2 (F32.add (F32.mul y y) (F32.mul z z))))).

Definition spec_s (w x y z : float) : float :=
  F32.mul f2 (F32.sub (F32.mul w y) (F32.mul z x)).

Definition spec_pitch {L : Libm} (w x y z : float) : float :=
  let s := spec_s w x y z in
  if fle f1 (fabsf s) then (if signbit s then fneg f90 else f90)
  else to_degrees (asinf s).

(** Constants of the range mapping: [127 - (-127)], and the largest
    product [360 * 254]. *)
Definition f254 : float := Eval vm_compute in F32.of_Z 254.
Definition f91440 : float := Eval vm_compute in F32.of_Z 91440.

(** The linear interpolation of the Range Mapper on real numbers. *)
Definition linear_map (x in_min in_max out_min out_max : R) : R :=
  ((x - in_min) * (out_max - out_min) / (in_max - in_min) + out_min)%R.

(** * Quaternions as real vectors *)

(** The squared norm of a quaternion, on real numbers. *)
Definition sumsq (q : Quaternion) : R :=
  (F2R (qw q) * F2R (qw q) + F2R (qx q) * F2R (qx q) +
   F2R (qy q) * F2R (qy q) + F2R (qz q) * F2R (qz q))%R.

(** The four components are numbers (no infinity, no NaN). *)
Definition finite_quat (q : Quaternion) : bool :=
  fv32 (qw q) && fv32 (qx q) && fv32 (qy q) && fv32 (qz q).

(** [2^100], a bound for the intermediate results. *)
Definition f2p100 : float := S754_finite false 8388608 77.

(** Small powers of two, bounds of the trigonometric arguments. *)
Definition f4 : float := Eval vm_compute in F32.of_Z 4.
Definition f8 : float := Eval vm_compute in F32.of_Z 8.
Definition f16 : float := Eval vm_compute in F32.of_Z 16.

(** * Bounds used for the conversion to degrees *)

(** [pi_f] and [half_pi] promoted to [double]. *)
Definition pi_d : double := Eval vm_compute in F64.of_spec pi_f.
Definition half_pi_d : double := Eval vm_compute in F64.of_spec half_pi.

(** Doubles just above [pi_f * (180 / PI)] and [half_pi * (180 / PI)]:
    180.000005... and 90.0000025... *)
Definition deg_bound_180 : double := S754_finite false 6333187152226744 (-45).
Definition deg_bound_90 : double := S754_finite false 6333187152226744 (-46).

(** Doubles bounding an angle in radians and its value in degrees. *)
Definition d4 : double := Eval vm_compute in F64.of_Z 4.
Definition d230 : double := Eval vm_compute in F64.of_Z 230.

(** * Further sample data *)

(** The command does not ask for a recentering. *)
Definition no_reset (serial_line : option string) : bool :=
  match serial_line with
  | Some command => negb (is_reset_command command)
  | None => true
  end.

(** The next poll delivers a rotation-vector sample. *)
Definition next_is_rotation (st : State) : bool :=
  match bno st with
  | Some v :: _ => sensorId v =? SH2_ROTATION_VECTOR
  | _ => false
  end.

(** An event of another sensor (the accelerometer report, id 1). *)
Definition other_event : option sh2_SensorValue_t :=
  Some (mkSensorValue 1 0 q_identity).

Definition offset_30_40_50 : CalibrationOffset := mkOffset f30 f40 f50.

(** A wrapped angle: a number between -180 and 180. *)
Definition wrapped (a : float) : Prop :=
  fv32 a = true /\ (- 180 <= F2R a <= 180)%R.

(** An axis value that fits the joystick range. *)
Definition axis_ok (v : Z) : Prop := -127 <= v <= 127.

(** A quaternion the sensor can sensibly deliver: finite components
    and a squared norm between [2^-80] and [2^80]. *)
Definition sane (q : Quaternion) : Prop :=
  finite_quat q = true /\ (bpow (-80) <= sumsq q <= bpow 80)%R.

(** A number of magnitude at most [b]. *)
Definition bounded_by (b : R) (x : float) : Prop :=
  fv32 x = true /\ (Rabs (F2R x) <= b)%R.

(** Offsets of at most a full turn. *)
Definition offset_ok (o : CalibrationOffset) : Prop :=
  bounded_by 360 (yaw_offset o) /\ bounded_by 360 (pitch_offset o) /\
  bounded_by 360 (roll_offset o).

(** A string of white space only. *)
Fixpoint all_space (s : string) : bool :=
  match s with
  | EmptyString => true
  | String c r => is_space c && all_space r
  end.

(** [command] is [word] between two runs of white space. *)
Definition padded (word command : string) : Prop :=
  exists pre post : string,
    all_space pre = true /\ all_space post = true /\
    command = (pre ++ word ++ post)%string.

(** Bounds of the sums of [resetView]. *)
Definition d1024 : double := Eval vm_compute in F64.of_Z 1024.
Definition d2048 : double := Eval vm_compute in F64.of_Z 2048.
Definition f181 : float := Eval vm_compute in F32.of_Z 181.
Definition f1801 : float := Eval vm_compute in F32.of_Z 1801.

(** [2^-12]. *)
Definition f2m12 : float := S754_finite false 8388608 (-35).

(** The exact value in degrees of an angle in radians. *)
Definition degrees (a : float) : R := (F2R a * (180 / Rtrigo1.PI))%R.

(** An angle in radians between [-pi_f] and [pi_f]. *)
Definition radian (a : float) : Prop :=
  fv32 a = true /\ (Rabs (F2R a) <= F2R pi_f)%R.

(** * Runs of the sketch *)

(** A report whose three axes fit the joystick range, no button
    pressed. *)
Definition report_ok (r : hid_gamepad_report_t) : Prop :=
  axis_ok (report_x r) /\ axis_ok (report_y r) /\ axis_ok (report_z r) /\
  report_buttons r = 0.

(** Every rotation-vector event still to come carries a sane
    quaternion. *)
Definition event_sane (ev : option sh2_SensorValue_t) : Prop :=
  match ev with
  | Some v => sensorId v = SH2_ROTATION_VECTOR -> sane (rotationVector v)
  | None => True
  end.

Definition events_sane (events : list (option sh2_SensorValue_t)) : Prop :=
  Forall event_sane events.

(** The Arduino core calls [loop] again and again; each pass finds a
    serial line or none and the USB stack ready or not. *)
Fixpoint run {L : Libm} (fuel : nat) (passes : list (option string * bool))
             (st : State) : option State :=
  match passes with
  | [] => Some st
  | (serial_line, usb_ready) :: later =>
    match loop fuel serial_line usb_ready st with
    | Some st1 => run fuel later st1
    | None => None
    end
  end.

(** The end of [setup], [initialCenter()], followed by the passes of
    [loop]. *)
Definition sketch {L : Libm} (fuel : nat) (passes : list (option string * bool))
                  (st : State) : option State :=
  run fuel passes (initialCenter st).

(** The exact sum, in degrees, of a list of angles in radians. *)
Definition sum_degrees (l : list float) : R :=
  fold_right (fun a acc => (degrees a + acc)%R) 0%R l.

(** The yaw, pitch and roll in radians of the samples [resetView]
    fetched. *)
Definition fetched_yaws {L : Libm} (st : State) : list float :=
  map (fun q => yaw_rad (normalize q)) (fetched 10 (bno st)).
Definition fetched_pitches {L : Libm} (st : State) : list float :=
  map (fun q => pitch_rad (normalize q)) (fetched 10 (bno st)).
Definition fetched_rolls {L : Libm} (st : State) : list float :=
  map (fun q => roll_rad (normalize q)) (fetched 10 (bno st)).

(** * Correct rounding of the [SpecFloat] operations

    [SpecFloat] defines the IEEE-754 operations on mantissas and
    exponents.  This part relates them to real numbers: each operation
    returns a rounding to nearest of the exact result.  *)

(** ** Powers of two, digits and shifts *)

Lemma bpow_gt_0 e : (0 < bpow e)%R.
Proof. apply powerRZ_lt; lra. Qed.

Lemma bpow_add e1 e2 : bpow (e1 + e2) = (bpow e1 * bpow e2)%R.
Proof. apply powerRZ_add; lra. Qed.

Lemma bpow_opp e : bpow (- e) = (/ bpow e)%R.
Proof. apply powerRZ_neg'. Qed.

Lemma bpow_0 : bpow 0 = 1%R.
Proof. reflexivity. Qed.

Lemma bpow_IZR e : 0 <= e -> bpow e = IZR (2 ^ e).
Proof.
  intros He. unfold bpow.
  rewrite <- (Z2Nat.id e He) at 1.
  rewrite <- pow_powerRZ, pow_IZR, Z2Nat.id by exact He.
  reflexivity.
Qed.

Lemma bpow_1 : bpow 1 = 2%R.
Proof. rewrite bpow_IZR by lia. reflexivity. Qed.

Lemma bpow_m1 : bpow (-1) = (/ 2)%R.
Proof. change (-1) with (- (1)). rewrite bpow_opp, bpow_1. reflexivity. Qed.

Lemma bpow_le e1 e2 : e1 <= e2 -> (bpow e1 <= bpow e2)%R.
Proof.
  intros H. replace e2 with (e1 + (e2 - e1)) by ring.
  rewrite bpow_add, (bpow_IZR (e2 - e1)) by lia.
  assert (1 <= IZR (2 ^ (e2 - e1)))%R.
  { apply IZR_le. assert (0 < 2 ^ (e2 - e1)) by (apply Z.pow_pos_nonneg; lia). lia. }
  pose proof (bpow_gt_0 e1). nra.
Qed.

Lemma bpow_lt e1 e2 : e1 < e2 -> (bpow e1 < bpow e2)%R.
Proof.
  intros H. replace e2 with (e1 + (e2 - e1)) by ring.
  rewrite bpow_add, (bpow_IZR (e2 - e1)) by lia.
  assert (2 <= IZR (2 ^ (e2 - e1)))%R.
  { apply IZR_le. replace (e2 - e1) with (Z.succ (e2 - e1 - 1)) by lia.
    rewrite Z.pow_succ_r by lia.
    assert (0 < 2 ^ (e2 - e1 - 1)) by (apply Z.pow_pos_nonneg; lia). lia. }
  pose proof (bpow_gt_0 e1). nra.
Qed.

Lemma bpow_lt_inv e1 e2 : (bpow e1 < bpow e2)%R -> e1 < e2.
Proof.
  intros H. destruct (Z_lt_le_dec e1 e2) as [|Hle]; [assumption|].
  apply bpow_le in Hle. lra.
Qed.

Lemma bpow_le_inv e1 e2 : (bpow e1 <= bpow e2)%R -> e1 <= e2.
Proof.
  intros H. destruct (Z_le_gt_dec e1 e2) as [|Hgt]; [assumption|].
  apply Z.gt_lt, bpow_lt in Hgt. lra.
Qed.

Lemma bpow_succ e : bpow (e + 1) = (2 * bpow e)%R.
Proof. rewrite bpow_add, bpow_1. ring. Qed.

Lemma bpow_pred e : bpow (e - 1) = (bpow e / 2)%R.
Proof. unfold Z.sub. rewrite bpow_add, bpow_opp, bpow_1. reflexivity. Qed.

(** Binary digits *)

Lemma digits2_pos_bounds (m : positive) :
  2 ^ (Z.pos (digits2_pos m) - 1) <= Z.pos m < 2 ^ Z.pos (digits2_pos m).
Proof.
  induction m as [m IH|m IH|]; cbn [digits2_pos].
  - rewrite Pos2Z.inj_succ, (Pos2Z.inj_xI m).
    replace (Z.succ (Z.pos (digits2_pos m)) - 1) with (Z.succ (Z.pos (digits2_pos m) - 1)) by lia.
    rewrite !Z.pow_succ_r by lia.
    revert IH. generalize (2 ^ (Z.pos (digits2_pos m) - 1)).
    generalize (2 ^ Z.pos (digits2_pos m)). intros; lia.
  - rewrite Pos2Z.inj_succ, (Pos2Z.inj_xO m).
    replace (Z.succ (Z.pos (digits2_pos m)) - 1) with (Z.succ (Z.pos (digits2_pos m) - 1)) by lia.
    rewrite !Z.pow_succ_r by lia.
    revert IH. generalize (2 ^ (Z.pos (digits2_pos m) - 1)).
    generalize (2 ^ Z.pos (digits2_pos m)). intros; lia.
  - simpl. lia.
Qed.

Lemma Zdigits2_bounds (z : Z) :
  0 < z -> 2 ^ (Zdigits2 z - 1) <= z < 2 ^ Zdigits2 z.
Proof.
  destruct z as [|p|p]; try lia. intros _. apply digits2_pos_bounds.
Qed.

Lemma Zdigits2_pos (z : Z) : 0 < z -> 0 < Zdigits2 z.
Proof. destruct z; simpl; lia. Qed.

Lemma Zdigits2_unique (z d : Z) :
  2 ^ (d - 1) <= z < 2 ^ d -> 0 < z -> Zdigits2 z = d.
Proof.
  intros [H1 H2] Hz.
  pose proof (Zdigits2_bounds z Hz) as [H3 H4].
  pose proof (Zdigits2_pos z Hz) as H5.
  assert (0 < d).
  { destruct (Z_lt_le_dec 0 d); [assumption|].
    assert (2 ^ d <= 2 ^ 0) by (apply Z.pow_le_mono_r; lia). simpl in *. lia. }
  destruct (Z.lt_trichotomy (Zdigits2 z) d) as [Hlt|[Heq|Hgt]]; [|assumption|].
  - assert (2 ^ Zdigits2 z <= 2 ^ (d - 1)) by (apply Z.pow_le_mono_r; lia). lia.
  - assert (2 ^ d <= 2 ^ (Zdigits2 z - 1)) by (apply Z.pow_le_mono_r; lia). lia.
Qed.

(** Right shifts with round and sticky bits *)

Lemma shr_1_ok mrs x :
  0 <= shr_m mrs -> sr_ok mrs x ->
  sr_ok (shr_1 mrs) (x / 2) /\ shr_m (shr_1 mrs) = Z.div2 (shr_m mrs).
Proof.
  destruct mrs as [m r s]. cbn [shr_m]. intros Hm H.
  destruct m as [|[p|p|]|p]; try lia;
    destruct r, s; unfold sr_ok in *; cbn [shr_1 shr_m shr_r shr_s orb Z.div2] in *;
    try rewrite (Pos2Z.inj_xI p) in H; try rewrite (Pos2Z.inj_xO p) in H;
    try rewrite plus_IZR in H; try rewrite mult_IZR in H;
    (split; [lra | reflexivity]).
Qed.

Lemma sr_ok_ext mrs x y : x = y -> sr_ok mrs x -> sr_ok mrs y.
Proof. intros ->. exact (fun H => H). Qed.

Lemma iter_shr_1_ok p : forall mrs x,
  0 <= shr_m mrs -> sr_ok mrs x ->
  sr_ok (iter_pos shr_1 p mrs) (x / bpow (Z.pos p)) /\
  shr_m (iter_pos shr_1 p mrs) = shr_m mrs / 2 ^ Z.pos p.
Proof.
  assert (Hdiv2 : forall m, 0 <= m -> 0 <= Z.div2 m).
  { intros m Hm. rewrite Z.div2_div. apply Z.div_pos; lia. }
  assert (Hpw : forall q, 0 < 2 ^ Z.pos q) by (intros; apply Z.pow_pos_nonneg; lia).
  assert (Hdv : forall m q, 0 <= m -> 0 <= m / 2 ^ Z.pos q).
  { intros. apply Z.div_pos; auto. }
  induction p as [p IH|p IH|]; intros mrs x Hm H; cbn [iter_pos].
  - destruct (shr_1_ok mrs x Hm H) as [H1 E1].
    assert (Hm1 : 0 <= shr_m (shr_1 mrs)) by (rewrite E1; auto).
    destruct (IH _ _ Hm1 H1) as [H2 E2].
    assert (Hm2 : 0 <= shr_m (iter_pos shr_1 p (shr_1 mrs))) by (rewrite E2; auto).
    destruct (IH _ _ Hm2 H2) as [H3 E3].
    split.
    + eapply sr_ok_ext; [|exact H3].
      rewrite (Pos2Z.inj_xI p).
      replace (2 * Z.pos p + 1) with (Z.pos p + Z.pos p + 1) by ring.
      rewrite !bpow_add, bpow_1. pose proof (bpow_gt_0 (Z.pos p)). field. lra.
    + rewrite E3, E2, E1, Z.div2_div, !Z.div_div by (auto; lia).
      f_equal. rewrite (Pos2Z.inj_xI p).
      replace (2 * Z.pos p + 1) with (1 + Z.pos p + Z.pos p) by ring.
      rewrite !Z.pow_add_r by lia. ring.
  - destruct (IH _ _ Hm H) as [H2 E2].
    assert (Hm2 : 0 <= shr_m (iter_pos shr_1 p mrs)) by (rewrite E2; auto).
    destruct (IH _ _ Hm2 H2) as [H3 E3].
    split.
    + eapply sr_ok_ext; [|exact H3].
      rewrite (Pos2Z.inj_xO p).
      replace (2 * Z.pos p) with (Z.pos p + Z.pos p) by ring.
      rewrite !bpow_add. pose proof (bpow_gt_0 (Z.pos p)). field. lra.
    + rewrite E3, E2, !Z.div_div by (auto; lia).
      f_equal. rewrite (Pos2Z.inj_xO p).
      replace (2 * Z.pos p) with (Z.pos p + Z.pos p) by ring.
      rewrite !Z.pow_add_r by lia. ring.
  - destruct (shr_1_ok mrs x Hm H) as [H1 E1]. split.
    + eapply sr_ok_ext; [|exact H1]. rewrite bpow_1. reflexivity.
    + rewrite E1, Z.div2_div. reflexivity.
Qed.

Lemma shr_ok mrs e n x :
  0 <= shr_m mrs -> sr_ok mrs x -> 0 <= n ->
  sr_ok (fst (shr mrs e n)) (x * bpow (- n)) /\
  snd (shr mrs e n) = e + n /\
  shr_m (fst (shr mrs e n)) = shr_m mrs / 2 ^ n.
Proof.
  intros Hm H Hn. destruct n as [|p|p]; try lia; cbn [shr fst snd].
  - repeat split.
    + eapply sr_ok_ext; [|exact H]. change (bpow (- 0)) with 1%R. ring.
    + ring.
    + simpl. rewrite Z.div_1_r. reflexivity.
  - destruct (iter_shr_1_ok p mrs x Hm H) as [H1 E1]. repeat split.
    + eapply sr_ok_ext; [|exact H1]. rewrite bpow_opp. reflexivity.
    + exact E1.
Qed.

Lemma shr_nonpos mrs e n : n <= 0 -> shr mrs e n = (mrs, e).
Proof. destruct n; try reflexivity. lia. Qed.

Lemma shr_m_of_loc m l : shr_m (shr_record_of_loc m l) = m.
Proof. destruct l as [|[]]; reflexivity. Qed.

Lemma loc_of_shr_of_loc m l : loc_of_shr_record (shr_record_of_loc m l) = l.
Proof. destruct l as [|[]]; reflexivity. Qed.

Lemma rne_ok mrs x :
  sr_ok mrs x ->
  (Rabs (IZR (round_nearest_even (shr_m mrs) (loc_of_shr_record mrs)) - x) <= / 2)%R /\
  shr_m mrs <= round_nearest_even (shr_m mrs) (loc_of_shr_record mrs) <= shr_m mrs + 1.
Proof.
  destruct mrs as [m r s]. unfold sr_ok. cbn [shr_m shr_r shr_s].
  destruct r, s; cbn [loc_of_shr_record round_nearest_even]; intros H.
  - rewrite plus_IZR. split; [apply Rabs_le; lra | lia].
  - destruct (Z.even m); [|rewrite plus_IZR]; (split; [apply Rabs_le; lra | lia]).
  - split; [apply Rabs_le; lra | lia].
  - split; [apply Rabs_le; lra | lia].
Qed.

Lemma Rabs_le_inv (x y : R) : (Rabs x <= y)%R -> (- y <= x <= y)%R.
Proof. unfold Rabs. destruct (Rcase_abs x); lra. Qed.

(** ** The rounding step [binary_round_aux] *)

Section Rounding.
Variables prec emax : Z.
Hypothesis Hprec : 0 < prec.
Hypothesis Hemax : prec < emax.

Abbreviation fexp := (SpecFloat.fexp prec emax).
Abbreviation emin := (SpecFloat.emin prec emax).

Lemma fexp_ge_emin e : emin <= fexp e.
Proof. unfold SpecFloat.fexp. lia. Qed.

Lemma fexp_mono e1 e2 : e1 <= e2 -> fexp e1 <= fexp e2.
Proof. unfold SpecFloat.fexp. lia. Qed.

Lemma emin_le_emax : emin <= emax - prec.
Proof. unfold SpecFloat.emin. lia. Qed.

Lemma shr_fexp_small m e :
  0 <= m < 2 ^ prec -> emin <= e ->
  shr_fexp prec emax m e loc_Exact = (Build_shr_record m false false, e).
Proof.
  intros [Hm0 Hm] He. unfold shr_fexp. apply shr_nonpos.
  destruct (Z.eq_dec m 0) as [->|Hz].
  - simpl Zdigits2. unfold SpecFloat.fexp. lia.
  - pose proof (Zdigits2_bounds m ltac:(lia)) as [H1 _].
    assert (Zdigits2 m - 1 < prec).
    { apply (Z.pow_lt_mono_r_iff 2); lia. }
    unfold SpecFloat.fexp. lia.
Qed.

Lemma shr_fexp_carry e :
  emin <= e ->
  shr_fexp prec emax (2 ^ prec) e loc_Exact =
  (Build_shr_record (2 ^ (prec - 1)) false false, e + 1).
Proof.
  intros He. unfold shr_fexp.
  assert (Hd : Zdigits2 (2 ^ prec) = prec + 1).
  { apply Zdigits2_unique.
    - replace (prec + 1 - 1) with prec by ring. split; [lia|].
      apply Z.pow_lt_mono_r; lia.
    - apply Z.pow_pos_nonneg; lia. }
  rewrite Hd.
  replace (SpecFloat.fexp prec emax (prec + 1 + e) - e) with 1
    by (unfold SpecFloat.fexp; lia).
  cbn [shr iter_pos shr_record_of_loc].
  replace (2 ^ prec) with (2 * 2 ^ (prec - 1)).
  2:{ rewrite <- Z.pow_succ_r by lia. f_equal. lia. }
  assert (Hp : 0 < 2 ^ (prec - 1)) by (apply Z.pow_pos_nonneg; lia).
  destruct (2 ^ (prec - 1)) as [|p|p]; try lia.
  reflexivity.
Qed.

Lemma binary_round_aux_spec s mx ex lx x :
  0 <= mx -> sr_ok (shr_record_of_loc mx lx) x ->
  ex <= fexp (Zdigits2 mx + ex) ->
  exists z, 0 <= z /\
    (Rabs (IZR z - x * bpow (ex - fexp (Zdigits2 mx + ex))) <= / 2)%R /\
    encodes prec emax s z (fexp (Zdigits2 mx + ex)) (binary_round_aux prec emax s mx ex lx).
Proof.
  intros Hmx Hx Hex.
  remember (fexp (Zdigits2 mx + ex)) as e' eqn:Ee'.
  assert (He' : emin <= e') by (subst e'; apply fexp_ge_emin).
  unfold binary_round_aux, shr_fexp at 1. rewrite <- Ee'.
  pose proof (shr_ok (shr_record_of_loc mx lx) ex (e' - ex) x) as Hs.
  rewrite shr_m_of_loc in Hs. specialize (Hs Hmx Hx ltac:(lia)).
  destruct (shr (shr_record_of_loc mx lx) ex (e' - ex)) as [mrs1 e1].
  cbn [fst snd] in Hs. destruct Hs as (Hs1 & He1 & Hq).
  replace (ex + (e' - ex)) with e' in He1 by ring. subst e1.
  destruct (rne_ok mrs1 _ Hs1) as [Hr1 Hr2].
  remember (round_nearest_even (shr_m mrs1) (loc_of_shr_record mrs1)) as m1 eqn:Em.
  clear Em.
  assert (Hp2 : 0 < 2 ^ (e' - ex)) by (apply Z.pow_pos_nonneg; lia).
  (* the shifted mantissa has at most [prec] digits *)
  assert (Hq0 : 0 <= shr_m mrs1) by (rewrite Hq; apply Z.div_pos; lia).
  assert (Hqp : shr_m mrs1 < 2 ^ prec).
  { rewrite Hq. apply Z.div_lt_upper_bound; [lia|].
    rewrite <- Z.pow_add_r by lia.
    destruct (Z.eq_dec mx 0) as [->|Hz].
    - apply Z.pow_pos_nonneg; lia.
    - pose proof (Zdigits2_bounds mx ltac:(lia)) as [_ H2].
      eapply Z.lt_le_trans; [exact H2|].
      apply Z.pow_le_mono_r; [lia|]. rewrite Ee'. unfold SpecFloat.fexp. lia. }
  (* in the normal range it has exactly [prec] digits *)
  assert (Hnorm : emin < e' -> 2 ^ (prec - 1) <= shr_m mrs1).
  { intros Hn.
    assert (He'd : e' = Zdigits2 mx + ex - prec) by (unfold SpecFloat.fexp in *; lia).
    assert (Hmx0 : 0 < mx).
    { destruct (Z.eq_dec mx 0) as [->|]; [|lia]. simpl in He'd. lia. }
    pose proof (Zdigits2_bounds mx Hmx0) as [H1 _].
    rewrite Hq. apply Z.div_le_lower_bound; [lia|].
    rewrite <- Z.pow_add_r by lia.
    replace (e' - ex + (prec - 1)) with (Zdigits2 mx - 1) by lia. exact H1. }
  exists m1. split; [lia|]. split.
  { replace (ex - e') with (- (e' - ex)) by ring. exact Hr1. }
  clear Ee' Hq Hs1 Hr1 Hx.
  destruct (Z.eq_dec m1 (2 ^ prec)) as [Hc|Hc].
  - (* the rounding carried into a new digit *)
    rewrite Hc, shr_fexp_carry by exact He'. cbn [shr_m].
    assert (Hp : 0 < 2 ^ (prec - 1)) by (apply Z.pow_pos_nonneg; lia).
    assert (Hv : (IZR (2 ^ (prec - 1)) * bpow (e' + 1) = IZR (2 ^ prec) * bpow e')%R).
    { rewrite <- !bpow_IZR, <- !bpow_add by lia. f_equal. ring. }
    destruct (2 ^ (prec - 1)) as [|p|p] eqn:Ep; try lia.
    destruct (Z.leb_spec (e' + 1) (emax - prec)) as [Hle|Hgt].
    + right; left. exists p, (e' + 1). repeat split; [|exact Hv].
      unfold bounded, canonical_mantissa.
      apply andb_true_intro. split; [|apply Z.leb_le; exact Hle].
      apply Z.eqb_eq.
      change (Z.pos (digits2_pos p)) with (Zdigits2 (Z.pos p)).
      rewrite (Zdigits2_unique (Z.pos p) prec).
      * unfold SpecFloat.fexp. lia.
      * rewrite <- Ep. split; [lia|]. apply Z.pow_lt_mono_r; lia.
      * lia.
    + right; right. split; [reflexivity|].
      rewrite <- bpow_IZR, <- bpow_add by lia. apply bpow_le. lia.
  - rewrite shr_fexp_small by lia. cbn [shr_m].
    destruct m1 as [|p|p] eqn:Em1; try lia.
    + left. split; reflexivity.
    + assert (Hcan : emin < e' -> 2 ^ (prec - 1) <= Z.pos p) by (intros; specialize (Hnorm H); lia).
      destruct (Z.leb_spec e' (emax - prec)) as [Hle|Hgt].
      * right; left. exists p, e'. repeat split.
        unfold bounded, canonical_mantissa.
        apply andb_true_intro. split; [|apply Z.leb_le; exact Hle].
        apply Z.eqb_eq.
        change (Z.pos (digits2_pos p)) with (Zdigits2 (Z.pos p)).
        pose proof (Zdigits2_bounds (Z.pos p) ltac:(lia)) as [H1 H2].
        pose proof (Zdigits2_pos (Z.pos p) ltac:(lia)) as H3.
        assert (Zdigits2 (Z.pos p) - 1 < prec).
        { apply (Z.pow_lt_mono_r_iff 2); [lia|lia|]. lia. }
        destruct (Z.eq_dec e' emin) as [Heq|Hne].
        -- unfold SpecFloat.fexp. lia.
        -- specialize (Hcan ltac:(lia)).
           assert (prec - 1 < Zdigits2 (Z.pos p)).
           { apply (Z.pow_lt_mono_r_iff 2); [lia|lia|]. lia. }
           unfold SpecFloat.fexp. lia.
      * right; right. split; [reflexivity|].
        pose proof emin_le_emax.
        specialize (Hcan ltac:(lia)).
        apply IZR_le in Hcan. rewrite <- bpow_IZR in Hcan by lia.
        apply Rle_trans with (bpow (prec - 1) * bpow e')%R.
        -- rewrite <- bpow_add. apply bpow_le. lia.
        -- apply Rmult_le_compat_r; [left; apply bpow_gt_0 | exact Hcan].
Qed.
End Rounding.

(** ** Rounding to the grid of a binade *)

Lemma sr_ok_bounds m l x :
  sr_ok (shr_record_of_loc m l) x -> (IZR m <= x < IZR m + 1)%R.
Proof. destruct l as [|[]]; unfold sr_ok; simpl; lra. Qed.

Lemma IZR_le_half (a b : Z) : (IZR a <= IZR b + / 2)%R -> a <= b.
Proof.
  intros H. assert (a < b + 1); [|lia].
  apply lt_IZR. rewrite plus_IZR. lra.
Qed.

Section Grid.
Variables prec emax : Z.
Hypothesis Hprec : 0 < prec.
Hypothesis Hemax : prec < emax.

Abbreviation fexp := (SpecFloat.fexp prec emax).
Abbreviation emin := (SpecFloat.emin prec emax).

Lemma binary_round_aux_rounds s mx ex lx x :
  0 <= mx -> sr_ok (shr_record_of_loc mx lx) x ->
  ex <= fexp (Zdigits2 mx + ex) ->
  0 < mx \/ fexp (Zdigits2 mx + ex) = emin ->
  rounds_to prec emax s (x * bpow ex) (binary_round_aux prec emax s mx ex lx).
Proof.
  intros Hmx Hx Hex Hpos.
  destruct (binary_round_aux_spec prec emax Hprec Hemax s mx ex lx x Hmx Hx Hex)
    as (z & Hz & Hr & Henc).
  pose proof (sr_ok_bounds _ _ _ Hx) as [Hx1 Hx2].
  exists (Zdigits2 mx + ex), z.
  assert (Hup : (IZR mx + 1 <= bpow (Zdigits2 mx))%R).
  { destruct (Z.eq_dec mx 0) as [->|Hne].
    - change (Zdigits2 0) with 0. rewrite bpow_0. lra.
    - pose proof (Zdigits2_bounds mx ltac:(lia)) as [_ H2].
      pose proof (Zdigits2_pos mx ltac:(lia)).
      rewrite bpow_IZR by lia. rewrite <- plus_IZR. apply IZR_le. lia. }
  pose proof (bpow_gt_0 ex) as Hbe.
  repeat split.
  - rewrite bpow_add. apply Rlt_le_trans with ((IZR mx + 1) * bpow ex)%R; nra.
  - destruct Hpos as [Hpos|Hpos]; [left|right; exact Hpos].
    pose proof (Zdigits2_bounds mx Hpos) as [H1 _].
    pose proof (Zdigits2_pos mx Hpos).
    replace (Zdigits2 mx + ex - 1) with (Zdigits2 mx - 1 + ex) by ring.
    rewrite bpow_add, bpow_IZR by lia. apply IZR_le in H1. nra.
  - exact Hz.
  - replace (x * bpow ex * bpow (- fexp (Zdigits2 mx + ex)))%R
      with (x * bpow (ex - fexp (Zdigits2 mx + ex)))%R; [exact Hr|].
    unfold Z.sub. rewrite bpow_add. ring.
  - exact Henc.
Qed.

(** Value of a bounded mantissa/exponent pair. *)
Lemma bounded_facts m e :
  bounded prec emax m e = true ->
  emin <= e /\ e <= emax - prec /\ Z.pos (digits2_pos m) <= prec /\
  fexp (Z.pos (digits2_pos m) + e) = e.
Proof.
  unfold bounded, canonical_mantissa. intros H.
  apply andb_prop in H. destruct H as [H1 H2].
  apply Z.eqb_eq in H1. apply Z.leb_le in H2.
  unfold SpecFloat.fexp in *. lia.
Qed.

Lemma bounded_lt_emax m e :
  bounded prec emax m e = true -> (IZR (Z.pos m) * bpow e < bpow emax)%R.
Proof.
  intros H. destruct (bounded_facts m e H) as (H1 & H2 & H3 & _).
  pose proof (digits2_pos_bounds m) as [_ Hd].
  apply Rlt_le_trans with (bpow (Z.pos (digits2_pos m)) * bpow e)%R.
  - apply Rmult_lt_compat_r; [apply bpow_gt_0|].
    rewrite bpow_IZR by lia. apply IZR_lt. exact Hd.
  - rewrite <- bpow_add. apply bpow_le. lia.
Qed.

Section OneRounding.
Variables (v : R) (E z : Z).
Hypothesis Hv : (0 < v)%R.
Hypothesis HE : (v < bpow E)%R.
Hypothesis HE' : (bpow (E - 1) <= v)%R \/ fexp E = emin.
Hypothesis Hz : 0 <= z.
Hypothesis Hr : (Rabs (IZR z - v * bpow (- fexp E)) <= / 2)%R.

Lemma grid_le bm be :
  bounded prec emax bm be = true ->
  (v <= IZR (Z.pos bm) * bpow be)%R ->
  (IZR z * bpow (fexp E) <= IZR (Z.pos bm) * bpow be)%R.
Proof.
  intros Hb Hle.
  destruct (bounded_facts bm be Hb) as (Hb1 & Hb2 & Hb3 & Hb4).
  assert (He : fexp E <= be).
  { destruct HE' as [H|H]; [|lia].
    rewrite <- Hb4. apply fexp_mono.
    pose proof (digits2_pos_bounds bm) as [_ Hd].
    assert (E - 1 < Z.pos (digits2_pos bm) + be); [|lia].
    apply bpow_lt_inv. eapply Rle_lt_trans; [exact H|].
    eapply Rle_lt_trans; [exact Hle|].
    rewrite bpow_add. apply Rmult_lt_compat_r; [apply bpow_gt_0|].
    rewrite bpow_IZR by lia. apply IZR_lt. exact Hd. }
  pose proof (bpow_gt_0 (fexp E)) as Hp.
  assert (HB : (IZR (Z.pos bm) * bpow be = IZR (Z.pos bm * 2 ^ (be - fexp E)) * bpow (fexp E))%R).
  { rewrite mult_IZR, <- bpow_IZR by lia. rewrite Rmult_assoc, <- bpow_add.
    do 2 f_equal. ring. }
  rewrite HB in *.
  apply Rmult_le_compat_r; [lra|]. apply IZR_le, IZR_le_half.
  apply Rabs_le_inv in Hr.
  assert (v * bpow (- fexp E) <= IZR (Z.pos bm * 2 ^ (be - fexp E)))%R; [|lra].
  rewrite bpow_opp. apply Rmult_le_reg_r with (bpow (fexp E)); [lra|].
  rewrite Rmult_assoc, Rinv_l by lra. lra.
Qed.

Lemma grid_ge bm be :
  bounded prec emax bm be = true ->
  (IZR (Z.pos bm) * bpow be <= v)%R ->
  (IZR (Z.pos bm) * bpow be <= IZR z * bpow (fexp E))%R.
Proof.
  intros Hb Hle.
  destruct (bounded_facts bm be Hb) as (Hb1 & Hb2 & Hb3 & Hb4).
  pose proof (bpow_gt_0 (fexp E)) as Hp.
  apply Rabs_le_inv in Hr.
  destruct (Z_le_gt_dec (fexp E) be) as [He|He].
  - assert (HB : (IZR (Z.pos bm) * bpow be = IZR (Z.pos bm * 2 ^ (be - fexp E)) * bpow (fexp E))%R).
    { rewrite mult_IZR, <- bpow_IZR by lia. rewrite Rmult_assoc, <- bpow_add.
      do 2 f_equal. ring. }
    rewrite HB in *.
    apply Rmult_le_compat_r; [lra|]. apply IZR_le, IZR_le_half.
    assert (IZR (Z.pos bm * 2 ^ (be - fexp E)) <= v * bpow (- fexp E))%R; [|lra].
    rewrite bpow_opp. apply Rmult_le_reg_r with (bpow (fexp E)); [lra|].
    rewrite (Rmult_assoc v), Rinv_l by lra. lra.
  - assert (Hn : fexp E = E - prec) by (unfold SpecFloat.fexp in *; lia).
    destruct HE' as [H|H]; [|lia].
    assert (HE1 : Z.pos (digits2_pos bm) + be <= E - 1).
    { assert (Z.pos (digits2_pos bm) + be < E); [|lia].
      destruct (Z_lt_le_dec (Z.pos (digits2_pos bm) + be) E) as [|Hc]; [assumption|].
      apply (fexp_mono prec emax) in Hc. lia. }
    pose proof (digits2_pos_bounds bm) as [_ Hd].
    assert (HB : (IZR (Z.pos bm) * bpow be <= bpow (E - 1))%R).
    { apply Rle_trans with (bpow (Z.pos (digits2_pos bm)) * bpow be)%R.
      - apply Rmult_le_compat_r; [left; apply bpow_gt_0|].
        rewrite bpow_IZR by lia. apply IZR_le. lia.
      - rewrite <- bpow_add. apply bpow_le. exact HE1. }
    eapply Rle_trans; [exact HB|].
    replace (E - 1) with (prec - 1 + fexp E) by lia.
    rewrite bpow_add, bpow_IZR by lia.
    apply Rmult_le_compat_r; [lra|]. apply IZR_le, IZR_le_half.
    assert (IZR (2 ^ (prec - 1)) <= v * bpow (- fexp E))%R; [|lra].
    rewrite <- bpow_IZR by lia.
    apply Rle_trans with (bpow (E - 1) * bpow (- fexp E))%R.
    + rewrite <- bpow_add. apply bpow_le. lia.
    + apply Rmult_le_compat_r; [left; apply bpow_gt_0 | exact H].
Qed.

Lemma grid_abs :
  (Rabs (IZR z * bpow (fexp E) - v) <= bpow (fexp E - 1))%R.
Proof.
  pose proof (bpow_gt_0 (fexp E)) as Hp.
  apply Rabs_le_inv in Hr. rewrite bpow_opp in Hr.
  rewrite bpow_pred.
  assert (Hx : (v = v * / bpow (fexp E) * bpow (fexp E))%R) by (field; lra).
  revert Hr Hx. generalize (v * / bpow (fexp E))%R. intros X Hr Hx.
  apply Rabs_le. rewrite Hx. split; nra.
Qed.

Lemma grid_rel :
  (bpow (emin + prec - 1) <= v)%R ->
  (Rabs (IZR z * bpow (fexp E) - v) <= bpow (- prec) * v)%R.
Proof.
  intros Hn.
  assert (HE1 : emin + prec - 1 < E).
  { apply bpow_lt_inv. lra. }
  assert (Hf : fexp E = E - prec) by (unfold SpecFloat.fexp; lia).
  assert (Hlo : (bpow (E - 1) <= v)%R).
  { destruct HE' as [H|H]; [exact H|].
    replace (E - 1) with (emin + prec - 1) by lia. exact Hn. }
  eapply Rle_trans; [apply grid_abs|].
  rewrite Hf. replace (E - prec - 1) with (- prec + (E - 1)) by ring.
  rewrite bpow_add. apply Rmult_le_compat_l; [left; apply bpow_gt_0 | exact Hlo].
Qed.

(** A value on the rounding grid is not moved. *)
Lemma grid_exact (n : Z) :
  (v * bpow (- fexp E) = IZR n)%R ->
  (IZR z * bpow (fexp E) = v)%R.
Proof.
  intros Hn. rewrite Hn in Hr. apply Rabs_le_inv in Hr.
  assert (z = n).
  { assert (z <= n) by (apply IZR_le_half; lra).
    assert (n <= z) by (apply IZR_le_half; lra). lia. }
  subst z. rewrite <- Hn. rewrite Rmult_assoc, <- bpow_add.
  replace (- fexp E + fexp E) with 0 by ring. rewrite bpow_0. ring.
Qed.
End OneRounding.
End Grid.

(** ** Signs, and from a rounding to the contract [rnd_ok] *)

Lemma F2R_opp x : F2R (SFopp x) = (- F2R x)%R.
Proof.
  destruct x as [s|s| |s m e]; simpl; try lra.
  destruct s; simpl; change (Z.neg m) with (- Z.pos m); rewrite opp_IZR; ring.
Qed.

Lemma F2R_abs x : F2R (SFabs x) = Rabs (F2R x).
Proof.
  destruct x as [s|s| |s m e]; simpl; try (rewrite Rabs_R0; reflexivity).
  pose proof (bpow_gt_0 e). assert (0 < IZR (Z.pos m))%R by (apply IZR_lt; lia).
  destruct s; simpl.
  - change (Z.neg m) with (- Z.pos m). rewrite opp_IZR.
    rewrite Rabs_left by nra. ring.
  - rewrite Rabs_pos_eq by nra. reflexivity.
Qed.

Lemma SFopp_involutive x : SFopp (SFopp x) = x.
Proof. destruct x as [[]|[]| |[] m e]; reflexivity. Qed.

Lemma signbit_opp x : is_nan x = false -> signbit (SFopp x) = negb (signbit x).
Proof. destruct x as [[]|[]| |[] m e]; simpl; congruence. Qed.

Lemma F2R_finite_pos m e : (0 < F2R (S754_finite false m e))%R.
Proof.
  simpl. apply Rmult_lt_0_compat; [apply IZR_lt; lia | apply bpow_gt_0].
Qed.

Lemma F2R_finite_neg m e : (F2R (S754_finite true m e) < 0)%R.
Proof.
  pose proof (F2R_finite_pos m e) as H. simpl in *.
  change (Z.neg m) with (- Z.pos m). rewrite opp_IZR. lra.
Qed.

Section Signed.
Variables prec emax : Z.
Hypothesis Hprec : 0 < prec.
Hypothesis Hemax : prec < emax.

Abbreviation fexp := (SpecFloat.fexp prec emax).
Abbreviation emin := (SpecFloat.emin prec emax).
Abbreviation fv := (finite_valid prec emax).

Lemma fv_opp x : fv (SFopp x) = fv x.
Proof. destruct x as [s|s| |s m e]; reflexivity. Qed.

Lemma fv_abs x : fv (SFabs x) = fv x.
Proof. destruct x as [s|s| |s m e]; reflexivity. Qed.

Lemma fv_finite s m e : fv (S754_finite s m e) = bounded prec emax m e.
Proof. reflexivity. Qed.

Lemma fv_is_finite x : fv x = true -> is_finite x = true.
Proof. unfold finite_valid. intros H. apply andb_prop in H. tauto. Qed.

Lemma fv_valid x : fv x = true -> valid_binary prec emax x = true.
Proof. unfold finite_valid. intros H. apply andb_prop in H. tauto. Qed.

Lemma F2R_pos_inv b :
  fv b = true -> (0 < F2R b)%R ->
  exists m e, b = S754_finite false m e /\ bounded prec emax m e = true.
Proof.
  destruct b as [s|s| |[] m e]; simpl; intros Hb H; try lra; try discriminate.
  - pose proof (F2R_finite_neg m e). simpl in *. lra.
  - exists m, e. split; [reflexivity | exact Hb].
Qed.

Lemma F2R_lt_emax b : fv b = true -> (F2R b < bpow emax)%R.
Proof.
  intros Hb. pose proof (bpow_gt_0 emax).
  destruct (Rlt_le_dec 0 (F2R b)) as [Hp|Hn]; [|lra].
  destruct (F2R_pos_inv b Hb Hp) as (m & e & -> & Hbd).
  simpl. apply (bounded_lt_emax prec emax). exact Hbd.
Qed.

Lemma rnd_ok_opp v r :
  rnd_ok prec emax v r -> rnd_ok prec emax (- v) (SFopp r).
Proof.
  intros (H1 & H2 & H3 & H4 & H5 & H6 & H7 & H8).
  assert (Hnan : is_nan r = false).
  { apply fv_is_finite in H1. destruct r; simpl in *; congruence. }
  repeat split.
  - rewrite fv_opp. exact H1.
  - intros b Hb Hle. rewrite F2R_opp.
    specialize (H3 (SFopp b)). rewrite fv_opp, F2R_opp in H3.
    specialize (H3 Hb). lra.
  - intros b Hb Hle. rewrite F2R_opp.
    specialize (H2 (SFopp b)). rewrite fv_opp, F2R_opp in H2.
    specialize (H2 Hb). lra.
  - rewrite F2R_opp, Rabs_Ropp.
    replace (- F2R r - - v)%R with (- (F2R r - v))%R by ring.
    rewrite Rabs_Ropp. exact H4.
  - rewrite F2R_opp, Rabs_Ropp.
    replace (- F2R r - - v)%R with (- (F2R r - v))%R by ring.
    rewrite Rabs_Ropp. exact H5.
  - intros Hv. rewrite signbit_opp, H7 by (assumption || lra). reflexivity.
  - intros Hv. rewrite signbit_opp, H6 by (assumption || lra). reflexivity.
  - intros E HE. rewrite F2R_opp.
    replace (- F2R r - - v)%R with (- (F2R r - v))%R by ring.
    rewrite Rabs_Ropp. apply H8. rewrite Rabs_Ropp in HE. exact HE.
Qed.

Lemma rnd_ok_self r : fv r = true -> rnd_ok prec emax (F2R r) r.
Proof.
  intros Hr. repeat split; try assumption; try (intros; assumption).
  - left. replace (F2R r - F2R r)%R with 0%R by ring.
    rewrite Rabs_R0. apply Rmult_le_pos; [left; apply bpow_gt_0 | apply Rabs_pos].
  - intros _. replace (F2R r - F2R r)%R with 0%R by ring.
    rewrite Rabs_R0. apply Rmult_le_pos; [left; apply bpow_gt_0 | apply Rabs_pos].
  - intros Hp. destruct (F2R_pos_inv r Hr Hp) as (m & e & -> & _). reflexivity.
  - intros Hn. destruct r as [s|s| |[] m e]; simpl in *; try lra; try reflexivity.
    pose proof (F2R_finite_pos m e). simpl in *. lra.
  - intros E _. replace (F2R r - F2R r)%R with 0%R by ring.
    rewrite Rabs_R0. left. apply bpow_gt_0.
Qed.

Lemma rnd_ok_exact v r b :
  rnd_ok prec emax v r -> fv b = true -> F2R b = v -> F2R r = v.
Proof.
  intros (_ & H2 & H3 & _) Hb Hv.
  specialize (H2 b Hb). specialize (H3 b Hb). lra.
Qed.

Lemma encodes_opp s z e r :
  encodes prec emax s z e r -> encodes prec emax (negb s) z e (SFopp r).
Proof.
  intros [[-> ->]|[(m & e2 & -> & Hb & Hv)|[-> Hv]]].
  - left. split; reflexivity.
  - right; left. exists m, e2. repeat split; assumption.
  - right; right. split; [reflexivity | assumption].
Qed.

Lemma rounds_to_opp s v r :
  rounds_to prec emax s v r -> rounds_to prec emax (negb s) v (SFopp r).
Proof.
  intros (E & z & H1 & H2 & H3 & H4 & H5).
  exists E, z. repeat split; try assumption. apply encodes_opp. exact H5.
Qed.

Lemma rounds_to_rnd_ok_pos v r bnd :
  (0 < v)%R -> fv bnd = true -> (v <= F2R bnd)%R ->
  rounds_to prec emax false v r -> rnd_ok prec emax v r.
Proof.
  intros Hv Hbnd Hvb (E & z & HE & HE' & Hz & Hr & Henc).
  pose proof (grid_le prec emax v E z HE' Hr) as gle.
  pose proof (grid_ge prec emax Hprec v E z HE' Hr) as gge.
  pose proof (grid_abs prec emax v E z Hr) as gabs.
  pose proof (grid_rel prec emax v E z HE HE' Hr) as grel.
  set (M := (IZR z * bpow (fexp E))%R) in *.
  assert (HM0 : (0 <= M)%R).
  { apply Rmult_le_pos; [apply IZR_le; exact Hz | left; apply bpow_gt_0]. }
  assert (HA : forall b, fv b = true -> (v <= F2R b)%R -> (M <= F2R b)%R).
  { intros b Hb Hle.
    destruct (F2R_pos_inv b Hb ltac:(lra)) as (m & e & -> & Hbd).
    simpl in *. apply gle; assumption. }
  assert (HB : forall b, fv b = true -> (F2R b <= v)%R -> (F2R b <= M)%R).
  { intros b Hb Hle.
    destruct (Rlt_le_dec 0 (F2R b)) as [Hp|Hn]; [|lra].
    destruct (F2R_pos_inv b Hb Hp) as (m & e & -> & Hbd).
    simpl in *. apply gge; assumption. }
  assert (Hgen : forall r', F2R r' = M -> fv r' = true -> signbit r' = false ->
                            rnd_ok prec emax v r').
  { intros r' HF Hfv Hs. unfold rnd_ok. rewrite HF, (Rabs_pos_eq v) by lra.
    repeat split; try assumption; try (intros; assumption).
    - destruct (Z.eq_dec (fexp E) emin) as [He|He].
      + right. rewrite <- He. exact gabs.
      + left. destruct HE' as [H|H]; [|contradiction].
        eapply Rle_trans; [exact gabs|].
        assert (fexp E = E - prec) by (unfold SpecFloat.fexp in *; lia).
        replace (fexp E - 1) with (- prec + (E - 1)) by lia.
        rewrite bpow_add. apply Rmult_le_compat_l; [left; apply bpow_gt_0 | exact H].
    - intros; exfalso; lra.
    - intros E' HE2. eapply Rle_trans; [exact gabs|]. apply bpow_le.
      assert (fexp E <= fexp E'); [|lia].
      destruct HE' as [H|H].
      + apply fexp_mono. assert (E - 1 < E'); [|lia]. apply bpow_lt_inv. lra.
      + rewrite H. apply fexp_ge_emin. }
  destruct Henc as [[Hz0 ->]|[(m & e2 & -> & Hbd & Hval)|[-> Hov]]].
  - apply Hgen; try reflexivity. unfold M. rewrite Hz0. simpl. ring.
  - apply Hgen; try reflexivity; [|exact Hbd]. simpl. exact Hval.
  - exfalso. pose proof (F2R_lt_emax bnd Hbnd). specialize (HA bnd Hbnd Hvb).
    fold M in Hov. lra.
Qed.

Lemma rounds_to_rnd_ok (v : R) (r : spec_float) (s : bool) (bnd : spec_float) :
  fv bnd = true -> (Rabs v <= F2R bnd)%R -> v <> 0%R ->
  (if s return Prop then (v < 0)%R else (0 < v)%R) ->
  rounds_to prec emax s (Rabs v) r -> rnd_ok prec emax v r.
Proof.
  intros Hbnd Hvb Hv0 Hs Hr. destruct s.
  - rewrite Rabs_left in * by lra.
    apply rounds_to_opp in Hr. cbn [negb] in Hr.
    apply (rounds_to_rnd_ok_pos _ _ bnd) in Hr; try assumption; try lra.
    apply rnd_ok_opp in Hr. rewrite SFopp_involutive, Ropp_involutive in Hr.
    exact Hr.
  - rewrite Rabs_pos_eq in * by lra.
    apply (rounds_to_rnd_ok_pos _ _ bnd); assumption.
Qed.
End Signed.

(** ** Conversions and multiplication *)

Lemma Zdigits2_lower (z k : Z) : 0 <= k -> 2 ^ k <= z -> k < Zdigits2 z.
Proof.
  intros Hk H.
  assert (Hz : 0 < z).
  { assert (0 < 2 ^ k) by (apply Z.pow_pos_nonneg; lia). lia. }
  pose proof (Zdigits2_bounds z Hz) as [_ H2].
  pose proof (Zdigits2_pos z Hz).
  apply (Z.pow_lt_mono_r_iff 2); [lia|lia|]. lia.
Qed.

Lemma Zdigits2_upper (z k : Z) : 0 <= k -> 0 < z < 2 ^ k -> Zdigits2 z <= k.
Proof.
  intros Hk [Hz H].
  pose proof (Zdigits2_bounds z Hz) as [H1 _].
  pose proof (Zdigits2_pos z Hz).
  assert (Zdigits2 z - 1 < k); [|lia].
  apply (Z.pow_lt_mono_r_iff 2); [lia|lia|]. lia.
Qed.

Lemma Zdigits2_shift (m k : Z) :
  0 < m -> 0 <= k -> Zdigits2 (m * 2 ^ k) = Zdigits2 m + k.
Proof.
  intros Hm Hk.
  pose proof (Zdigits2_bounds m Hm) as [H1 H2].
  pose proof (Zdigits2_pos m Hm).
  assert (Hp : 0 < 2 ^ k) by (apply Z.pow_pos_nonneg; lia).
  apply Zdigits2_unique; [|nia].
  replace (Zdigits2 m + k - 1) with (Zdigits2 m - 1 + k) by ring.
  rewrite !Z.pow_add_r by lia. nia.
Qed.

Lemma Pos_iter_xO (m d : positive) :
  Z.pos (Pos.iter xO m d) = Z.pos m * 2 ^ Z.pos d.
Proof.
  rewrite <- Z.shiftl_mul_pow2 by lia. cbn [Z.shiftl].
  apply (Pos.iter_swap_gen _ _ Z.pos xO (Z.mul 2)). reflexivity.
Qed.

Lemma shl_align_spec (m : positive) (e e0 : Z) :
  snd (shl_align m e e0) = Z.min e e0 /\
  Z.pos (fst (shl_align m e e0)) = Z.pos m * 2 ^ (e - Z.min e e0).
Proof.
  unfold shl_align. destruct (e0 - e) as [|d|d] eqn:Hd; cbn [fst snd].
  - replace (Z.min e e0) with e by lia. rewrite Z.sub_diag. simpl. lia.
  - replace (Z.min e e0) with e by lia. rewrite Z.sub_diag. simpl. lia.
  - replace (Z.min e e0) with e0 by lia. split; [reflexivity|].
    rewrite Pos_iter_xO. f_equal. f_equal. lia.
Qed.

Lemma cond_Zopp_IZR s z : IZR (cond_Zopp s z) = (if s then - IZR z else IZR z)%R.
Proof. destruct s; simpl; [apply opp_IZR | reflexivity]. Qed.

Section Ops.
Variables prec emax : Z.
Hypothesis Hprec : 0 < prec.
Hypothesis Hemax : prec < emax.

Abbreviation fexp := (SpecFloat.fexp prec emax).
Abbreviation emin := (SpecFloat.emin prec emax).
Abbreviation fv := (finite_valid prec emax).

(** Every small enough multiple of a power of two is a number of the
    format. *)
Lemma representable (s : bool) (M e : Z) :
  0 < M < 2 ^ prec -> emin <= e -> Zdigits2 M + e <= emax ->
  exists b, fv b = true /\ F2R b = (IZR (cond_Zopp s M) * bpow e)%R.
Proof.
  intros [HM0 HM] He Hd.
  pose proof (Zdigits2_upper M prec ltac:(lia) ltac:(lia)) as Hdp.
  pose proof (Zdigits2_pos M HM0) as Hd0.
  set (e0 := fexp (Zdigits2 M + e)).
  assert (He0 : e0 <= e) by (unfold e0, SpecFloat.fexp; lia).
  assert (Hp : 0 < M * 2 ^ (e - e0)).
  { apply Z.mul_pos_pos; [lia|]. apply Z.pow_pos_nonneg; lia. }
  destruct (M * 2 ^ (e - e0)) as [|p|p] eqn:Ep; try lia.
  exists (S754_finite s p e0). split.
  - rewrite fv_finite. unfold bounded, canonical_mantissa.
    apply andb_true_intro. split.
    + apply Z.eqb_eq. change (Z.pos (digits2_pos p)) with (Zdigits2 (Z.pos p)).
      rewrite <- Ep, Zdigits2_shift by lia.
      replace (Zdigits2 M + (e - e0) + e0) with (Zdigits2 M + e) by ring.
      reflexivity.
    + apply Z.leb_le. unfold e0, SpecFloat.fexp, SpecFloat.emin. lia.
  - cbn [F2R]. rewrite <- Ep. rewrite !cond_Zopp_IZR, mult_IZR, <- bpow_IZR by lia.
    replace (bpow e) with (bpow (e - e0) * bpow e0)%R.
    2:{ rewrite <- bpow_add. f_equal. ring. }
    destruct s; ring.
Qed.

Lemma representable_Z (K e : Z) :
  Z.abs K < 2 ^ prec -> emin <= e -> Zdigits2 (Z.abs K) + e <= emax ->
  exists b, fv b = true /\ F2R b = (IZR K * bpow e)%R.
Proof.
  intros HK He Hd.
  destruct (Z.eq_dec K 0) as [->|Hne].
  - exists (S754_zero false). split; [reflexivity|]. simpl. ring.
  - destruct (representable (K <? 0) (Z.abs K) e ltac:(lia) He Hd) as (b & Hb & Hv).
    exists b. split; [exact Hb|]. rewrite Hv. f_equal. f_equal.
    destruct (Z.ltb_spec K 0); simpl; lia.
Qed.

Lemma binary_round_rounds s m e :
  rounds_to prec emax s (IZR (Z.pos m) * bpow e) (binary_round prec emax s m e).
Proof.
  unfold binary_round.
  pose proof (shl_align_spec m e (fexp (Z.pos (digits2_pos m) + e))) as [H1 H2].
  destruct (shl_align m e (fexp (Z.pos (digits2_pos m) + e))) as [mz ez].
  cbn [fst snd] in *.
  assert (Hd : Zdigits2 (Z.pos mz) + ez = Z.pos (digits2_pos m) + e).
  { rewrite H2, Zdigits2_shift by lia. simpl Zdigits2. lia. }
  replace (IZR (Z.pos m) * bpow e)%R with (IZR (Z.pos mz) * bpow ez)%R.
  - apply (binary_round_aux_rounds prec emax Hprec Hemax).
    + lia.
    + reflexivity.
    + rewrite Hd. lia.
    + left. lia.
  - rewrite H2, mult_IZR, <- bpow_IZR by lia.
    rewrite Rmult_assoc, <- bpow_add. do 2 f_equal. lia.
Qed.

Lemma binary_normalize_rnd_ok (M e : Z) (sz : bool) (bnd : spec_float) :
  fv bnd = true -> (Rabs (IZR M * bpow e) <= F2R bnd)%R ->
  rnd_ok prec emax (IZR M * bpow e) (binary_normalize prec emax M e sz).
Proof.
  intros Hb Hle. pose proof (bpow_gt_0 e) as He.
  destruct M as [|p|p]; cbn [binary_normalize].
  - replace (IZR 0 * bpow e)%R with (F2R (S754_zero sz)) by (simpl; ring).
    apply (rnd_ok_self prec emax). reflexivity.
  - assert (0 < IZR (Z.pos p))%R by (apply IZR_lt; lia).
    apply rounds_to_rnd_ok with (s := false) (bnd := bnd); try assumption; try nra.
    rewrite Rabs_pos_eq by nra. apply binary_round_rounds.
  - assert (0 < IZR (Z.pos p))%R by (apply IZR_lt; lia).
    change (Z.neg p) with (- Z.pos p) in *. rewrite opp_IZR in *.
    apply rounds_to_rnd_ok with (s := true) (bnd := bnd); try assumption; try nra.
    rewrite Rabs_left by nra.
    replace (- (- IZR (Z.pos p) * bpow e))%R with (IZR (Z.pos p) * bpow e)%R by ring.
    apply binary_round_rounds.
Qed.

(** Conversion from another format. *)
Lemma conv_rnd_ok (x bnd : spec_float) :
  is_finite x = true -> fv bnd = true -> (Rabs (F2R x) <= F2R bnd)%R ->
  rnd_ok prec emax (F2R x)
    (match x with S754_finite s m e => binary_round prec emax s m e | _ => x end).
Proof.
  intros Hx Hb Hle. destruct x as [s|s| |s m e]; try discriminate.
  - apply (rnd_ok_self prec emax). reflexivity.
  - pose proof (binary_normalize_rnd_ok (cond_Zopp s (Z.pos m)) e false bnd Hb Hle) as H.
    destruct s; exact H.
Qed.

Lemma F2R_finite_abs s m e :
  Rabs (F2R (S754_finite s m e)) = (IZR (Z.pos m) * bpow e)%R.
Proof. rewrite <- F2R_abs. reflexivity. Qed.

Lemma SFmul_rnd_ok (x y bnd : spec_float) :
  fv x = true -> fv y = true -> fv bnd = true ->
  (Rabs (F2R x * F2R y) <= F2R bnd)%R ->
  rnd_ok prec emax (F2R x * F2R y) (SFmul prec emax x y).
Proof.
  intros Hx Hy Hb Hle.
  destruct x as [sx|sx| |sx mx ex]; try discriminate;
    destruct y as [sy|sy| |sy my ey]; try discriminate; cbn [SFmul].
  1-3: match goal with |- rnd_ok _ _ ?v (S754_zero ?s) =>
         replace v with (F2R (S754_zero s)) by (simpl; ring);
         apply (rnd_ok_self prec emax); reflexivity end.
  rewrite fv_finite in Hx, Hy.
  destruct (bounded_facts prec emax mx ex Hx) as (Hx1 & Hx2 & Hx3 & Hx4).
  destruct (bounded_facts prec emax my ey Hy) as (Hy1 & Hy2 & Hy3 & Hy4).
  pose proof (F2R_finite_abs sx mx ex) as Ax.
  pose proof (F2R_finite_abs sy my ey) as Ay.
  assert (Hv : (Rabs (F2R (S754_finite sx mx ex) * F2R (S754_finite sy my ey)) =
                IZR (Z.pos (mx * my)) * bpow (ex + ey))%R).
  { rewrite Rabs_mult, Ax, Ay, Pos2Z.inj_mul, mult_IZR, bpow_add. ring. }
  apply rounds_to_rnd_ok with (s := (xorb sx sy)) (bnd := bnd); try assumption.
  - intros H0. rewrite H0, Rabs_R0 in Hv.
    assert (0 < IZR (Z.pos (mx * my)))%R by (apply IZR_lt; lia).
    pose proof (bpow_gt_0 (ex + ey)). nra.
  - pose proof (F2R_finite_pos mx ex). pose proof (F2R_finite_pos my ey).
    pose proof (F2R_finite_neg mx ex). pose proof (F2R_finite_neg my ey).
    destruct sx, sy; cbn [xorb]; nra.
  - rewrite Hv.
    apply (binary_round_aux_rounds prec emax Hprec Hemax); try lia; try reflexivity.
    pose proof (digits2_pos_bounds mx) as [Dx _].
    pose proof (digits2_pos_bounds my) as [Dy _].
    assert (Hd : Z.pos (digits2_pos mx) + Z.pos (digits2_pos my) - 2 < Zdigits2 (Z.pos (mx * my))).
    { apply Zdigits2_lower; [lia|].
      replace (Z.pos (digits2_pos mx) + Z.pos (digits2_pos my) - 2)
        with ((Z.pos (digits2_pos mx) - 1) + (Z.pos (digits2_pos my) - 1)) by ring.
      rewrite Z.pow_add_r, Pos2Z.inj_mul by lia.
      apply Z.mul_le_mono_nonneg; try assumption; apply Z.pow_nonneg; lia. }
    unfold SpecFloat.fexp, SpecFloat.emin in *. lia.
Qed.
End Ops.

(** ** Addition and subtraction *)

Lemma F2R_align sx mx ex ez :
  ez <= ex ->
  (IZR (cond_Zopp sx (Z.pos (fst (shl_align mx ex ez)))) * bpow ez
   = F2R (S754_finite sx mx ex))%R.
Proof.
  intros H. destruct (shl_align_spec mx ex ez) as [_ H2].
  replace (Z.min ex ez) with ez in H2 by lia.
  cbn [F2R]. rewrite !cond_Zopp_IZR, H2, mult_IZR, <- bpow_IZR by lia.
  replace (bpow ex) with (bpow (ex - ez) * bpow ez)%R.
  2:{ rewrite <- bpow_add. f_equal. ring. }
  destruct sx; ring.
Qed.

Section AddSub.
Variables prec emax : Z.
Hypothesis Hprec : 0 < prec.
Hypothesis Hemax : prec < emax.

Abbreviation fexp := (SpecFloat.fexp prec emax).
Abbreviation emin := (SpecFloat.emin prec emax).
Abbreviation fv := (finite_valid prec emax).

Lemma rnd_ok_value v w r : v = w -> rnd_ok prec emax w r -> rnd_ok prec emax v r.
Proof. intros ->. exact (fun H => H). Qed.

Lemma SFadd_rnd_ok (x y bnd : spec_float) :
  fv x = true -> fv y = true -> fv bnd = true ->
  (Rabs (F2R x + F2R y) <= F2R bnd)%R ->
  rnd_ok prec emax (F2R x + F2R y) (SFadd prec emax x y).
Proof.
  intros Hx Hy Hb Hle.
  destruct x as [sx|sx| |sx mx ex]; try discriminate;
    destruct y as [sy|sy| |sy my ey]; try discriminate; cbn [SFadd].
  - destruct sx, sy;
      (eapply rnd_ok_value; [|apply (rnd_ok_self prec emax); reflexivity]); simpl; ring.
  - eapply rnd_ok_value; [|apply (rnd_ok_self prec emax); exact Hy]. simpl; ring.
  - eapply rnd_ok_value; [|apply (rnd_ok_self prec emax); exact Hx]. simpl; ring.
  - cbv zeta.
    assert (Hv : (F2R (S754_finite sx mx ex) + F2R (S754_finite sy my ey) =
                  IZR (cond_Zopp sx (Z.pos (fst (shl_align mx ex (Z.min ex ey)))) +
                       cond_Zopp sy (Z.pos (fst (shl_align my ey (Z.min ex ey))))) *
                  bpow (Z.min ex ey))%R).
    { rewrite plus_IZR, Rmult_plus_distr_r, !F2R_align by lia. reflexivity. }
    rewrite Hv in *. apply (binary_normalize_rnd_ok prec emax Hprec Hemax _ _ _ bnd); assumption.
Qed.

Lemma SFsub_rnd_ok (x y bnd : spec_float) :
  fv x = true -> fv y = true -> fv bnd = true ->
  (Rabs (F2R x - F2R y) <= F2R bnd)%R ->
  rnd_ok prec emax (F2R x - F2R y) (SFsub prec emax x y).
Proof.
  intros Hx Hy Hb Hle.
  destruct x as [sx|sx| |sx mx ex]; try discriminate;
    destruct y as [sy|sy| |sy my ey]; try discriminate; cbn [SFsub].
  - destruct sx, sy;
      (eapply rnd_ok_value; [|apply (rnd_ok_self prec emax); reflexivity]); simpl; ring.
  - eapply rnd_ok_value; [|apply (rnd_ok_self prec emax (S754_finite (negb sy) my ey)); exact Hy].
    change (S754_finite (negb sy) my ey) with (SFopp (S754_finite sy my ey)).
    rewrite F2R_opp. simpl; ring.
  - eapply rnd_ok_value; [|apply (rnd_ok_self prec emax); exact Hx]. simpl; ring.
  - cbv zeta.
    assert (Hv : (F2R (S754_finite sx mx ex) - F2R (S754_finite sy my ey) =
                  IZR (cond_Zopp sx (Z.pos (fst (shl_align mx ex (Z.min ex ey)))) -
                       cond_Zopp sy (Z.pos (fst (shl_align my ey (Z.min ex ey))))) *
                  bpow (Z.min ex ey))%R).
    { rewrite minus_IZR. unfold Rminus. rewrite Rmult_plus_distr_r.
      rewrite <- Ropp_mult_distr_l, !F2R_align by lia. reflexivity. }
    rewrite Hv in *. apply (binary_normalize_rnd_ok prec emax Hprec Hemax _ _ _ bnd); assumption.
Qed.

(** A multiple of [2^emin] below the normal range is a number of the
    format: sums and differences of floats are exact there. *)
Lemma small_multiple_representable (K e : Z) :
  emin <= e -> (Rabs (IZR K * bpow e) < bpow (emin + prec - 1))%R ->
  exists b, fv b = true /\ F2R b = (IZR K * bpow e)%R.
Proof.
  intros He Hsmall.
  assert (Hv : (IZR K * bpow e = IZR (K * 2 ^ (e - emin)) * bpow emin)%R).
  { rewrite mult_IZR, <- bpow_IZR, Rmult_assoc, <- bpow_add by lia.
    do 2 f_equal. ring. }
  rewrite Hv in *. clear Hv. generalize dependent (K * 2 ^ (e - emin)).
  intros X Hsmall.
  assert (Hp : 0 < 2 ^ (prec - 1)) by (apply Z.pow_pos_nonneg; lia).
  assert (HK : Z.abs X < 2 ^ (prec - 1)).
  { apply lt_IZR. rewrite abs_IZR, <- bpow_IZR by lia.
    apply Rmult_lt_reg_r with (bpow emin); [apply bpow_gt_0|].
    rewrite <- bpow_add. replace (prec - 1 + emin) with (emin + prec - 1) by ring.
    rewrite <- (Rabs_pos_eq (bpow emin)) at 1 by (left; apply bpow_gt_0).
    rewrite <- Rabs_mult. exact Hsmall. }
  assert (Hpp : 2 ^ (prec - 1) < 2 ^ prec) by (apply Z.pow_lt_mono_r; lia).
  apply (representable_Z prec emax Hprec Hemax);
    [eapply Z.lt_trans; [exact HK | exact Hpp] | apply Z.le_refl |].
  destruct (Z.eq_dec X 0) as [->|Hne].
  - simpl. unfold SpecFloat.emin. lia.
  - pose proof (Zdigits2_upper (Z.abs X) (prec - 1) ltac:(lia) ltac:(lia)).
    unfold SpecFloat.emin. lia.
Qed.

Lemma rnd_ok_rel_of_multiple v r (K e : Z) :
  rnd_ok prec emax v r -> v = (IZR K * bpow e)%R -> emin <= e ->
  (Rabs (F2R r - v) <= bpow (- prec) * Rabs v)%R.
Proof.
  intros Hr Hv He.
  destruct (Rle_lt_dec (bpow (emin + prec - 1)) (Rabs v)) as [Hn|Hs].
  - destruct Hr as (_ & _ & _ & _ & H5 & _). apply H5. exact Hn.
  - rewrite Hv in Hs.
    destruct (small_multiple_representable K e He Hs) as (b & Hb & Hbv).
    rewrite <- Hv in Hbv. rewrite (rnd_ok_exact prec emax v r b Hr Hb Hbv).
    replace (v - v)%R with 0%R by ring. rewrite Rabs_R0.
    apply Rmult_le_pos; [left; apply bpow_gt_0 | apply Rabs_pos].
Qed.

(** Any float of the format is a multiple of [2^emin]. *)
Lemma fv_multiple x : fv x = true -> exists K e, F2R x = (IZR K * bpow e)%R /\ emin <= e.
Proof.
  intros Hx. destruct x as [s|s| |s m e]; try discriminate.
  - exists 0, emin. split; [simpl; ring | lia].
  - rewrite fv_finite in Hx. destruct (bounded_facts prec emax m e Hx) as (H1 & _).
    exists (cond_Zopp s (Z.pos m)), e. split; [reflexivity | exact H1].
Qed.

Lemma multiple_add (K1 e1 K2 e2 : Z) :
  emin <= e1 -> emin <= e2 ->
  exists K, (IZR K1 * bpow e1 + IZR K2 * bpow e2 = IZR K * bpow emin)%R.
Proof.
  intros H1 H2. exists (K1 * 2 ^ (e1 - emin) + K2 * 2 ^ (e2 - emin)).
  rewrite plus_IZR, !mult_IZR, <- !bpow_IZR by lia.
  rewrite Rmult_plus_distr_r, !Rmult_assoc, <- !bpow_add.
  do 2 f_equal; f_equal; ring.
Qed.

Lemma SFadd_rel_error (x y bnd : spec_float) :
  fv x = true -> fv y = true -> fv bnd = true ->
  (Rabs (F2R x + F2R y) <= F2R bnd)%R ->
  (Rabs (F2R (SFadd prec emax x y) - (F2R x + F2R y)) <=
   bpow (- prec) * Rabs (F2R x + F2R y))%R.
Proof.
  intros Hx Hy Hb Hle.
  pose proof (SFadd_rnd_ok x y bnd Hx Hy Hb Hle) as Hr.
  destruct (fv_multiple x Hx) as (K1 & e1 & E1 & He1).
  destruct (fv_multiple y Hy) as (K2 & e2 & E2 & He2).
  destruct (multiple_add K1 e1 K2 e2 He1 He2) as (K & HK).
  apply (rnd_ok_rel_of_multiple _ _ K emin Hr); [|lia].
  rewrite E1, E2. exact HK.
Qed.

Lemma SFsub_rel_error (x y bnd : spec_float) :
  fv x = true -> fv y = true -> fv bnd = true ->
  (Rabs (F2R x - F2R y) <= F2R bnd)%R ->
  (Rabs (F2R (SFsub prec emax x y) - (F2R x - F2R y)) <=
   bpow (- prec) * Rabs (F2R x - F2R y))%R.
Proof.
  intros Hx Hy Hb Hle.
  pose proof (SFsub_rnd_ok x y bnd Hx Hy Hb Hle) as Hr.
  destruct (fv_multiple x Hx) as (K1 & e1 & E1 & He1).
  destruct (fv_multiple y Hy) as (K2 & e2 & E2 & He2).
  destruct (multiple_add K1 e1 (- K2) e2 He1 He2) as (K & HK).
  apply (rnd_ok_rel_of_multiple _ _ K emin Hr); [|lia].
  rewrite E1, E2. rewrite <- HK, opp_IZR. ring.
Qed.
End AddSub.

(** ** Division and square root *)

Lemma frac_bounds (a b : R) :
  (0 < b)%R ->
  ((2 * a < b -> a / b < / 2) /\ (2 * a = b -> a / b = / 2) /\
   (b < 2 * a -> / 2 < a / b) /\ (0 < a -> 0 < a / b) /\ (a < b -> a / b < 1))%R.
Proof.
  intros Hb.
  assert (H : (a / b * b = a)%R) by (field; lra).
  revert H. generalize (a / b)%R. intros f H.
  repeat split; intros; nra.
Qed.

Lemma new_location_ok (m2 r q : Z) (X : R) :
  0 < m2 -> 0 <= r < m2 -> X = (IZR q + IZR r / IZR m2)%R ->
  sr_ok (shr_record_of_loc q (new_location m2 r)) X.
Proof.
  intros Hm [Hr0 Hr] ->.
  assert (Hb : (0 < IZR m2)%R) by (apply IZR_lt; lia).
  destruct (frac_bounds (IZR r) (IZR m2) Hb) as (F1 & F2 & F3 & F4 & F5).
  unfold new_location.
  destruct (Z.even m2) eqn:Hev; unfold new_location_even, new_location_odd;
    destruct (Z.eqb_spec r 0) as [Hz|Hne].
  - subst r. unfold sr_ok; simpl. unfold Rdiv. ring.
  - assert (Hr1 : (0 < IZR r)%R) by (apply IZR_lt; lia).
    specialize (F4 Hr1).
    destruct (Z.compare_spec (2 * r) m2) as [H|H|H]; unfold sr_ok; simpl.
    + rewrite F2; [lra|]. rewrite <- H, mult_IZR. reflexivity.
    + apply IZR_lt in H. rewrite mult_IZR in H. specialize (F1 H). lra.
    + apply IZR_lt in H. rewrite mult_IZR in H. specialize (F3 H).
      apply IZR_lt in Hr. specialize (F5 Hr). lra.
  - subst r. unfold sr_ok; simpl. unfold Rdiv. ring.
  - assert (Hr1 : (0 < IZR r)%R) by (apply IZR_lt; lia).
    specialize (F4 Hr1).
    assert (Hodd : m2 <> 2 * r).
    { intros ->. rewrite Z.even_mul in Hev. simpl in Hev. discriminate. }
    destruct (Z.compare_spec (2 * r + 1) m2) as [H|H|H]; unfold sr_ok; simpl.
    + assert (H' : 2 * r < m2) by lia.
      apply IZR_lt in H'. rewrite mult_IZR in H'. specialize (F1 H'). lra.
    + assert (H' : 2 * r < m2) by lia.
      apply IZR_lt in H'. rewrite mult_IZR in H'. specialize (F1 H'). lra.
    + assert (H' : m2 < 2 * r) by lia.
      apply IZR_lt in H'. rewrite mult_IZR in H'. specialize (F3 H').
      apply IZR_lt in Hr. specialize (F5 Hr). lra.
Qed.

Lemma sqrt_lt_sq (a y : R) : (0 <= a)%R -> (a * a < y)%R -> (a < sqrt y)%R.
Proof.
  intros Ha H. rewrite <- (sqrt_square a) at 1 by exact Ha.
  apply sqrt_lt_1_alt. nra.
Qed.

Lemma sqrt_gt_sq (a y : R) : (0 <= a)%R -> (0 <= y < a * a)%R -> (sqrt y < a)%R.
Proof.
  intros Ha H. rewrite <- (sqrt_square a) by exact Ha.
  apply sqrt_lt_1_alt. exact H.
Qed.

Lemma shift_match (m s : Z) :
  0 <= s ->
  match s with Z.pos _ => Z.shiftl m s | 0 => m | Z.neg _ => 0 end = m * 2 ^ s.
Proof.
  destruct s as [|p|p]; intros H; try lia.
  rewrite Z.shiftl_mul_pow2 by lia. reflexivity.
Qed.

Section DivSqrt.
Variables prec emax : Z.
Hypothesis Hprec : 0 < prec.
Hypothesis Hemax : prec < emax.

Abbreviation fexp := (SpecFloat.fexp prec emax).
Abbreviation emin := (SpecFloat.emin prec emax).
Abbreviation fv := (finite_valid prec emax).

Lemma SFdiv_core_ok (mx : positive) (ex : Z) (my : positive) (ey : Z) :
  forall q e' l,
  SFdiv_core_binary prec emax (Z.pos mx) ex (Z.pos my) ey = (q, e', l) ->
  0 <= q /\
  sr_ok (shr_record_of_loc q l)
        (IZR (Z.pos mx) * bpow ex / (IZR (Z.pos my) * bpow ey) * bpow (- e')) /\
  e' <= fexp (Zdigits2 q + e') /\
  (0 < q \/ fexp (Zdigits2 q + e') = emin).
Proof.
  intros q e' l. unfold SFdiv_core_binary.
  set (d1 := Zdigits2 (Z.pos mx)). set (d2 := Zdigits2 (Z.pos my)).
  set (e0 := Z.min (fexp (d1 + ex - (d2 + ey))) (ex - ey)).
  set (s := ex - ey - e0).
  assert (Hs : 0 <= s) by (unfold s, e0; lia).
  rewrite (shift_match (Z.pos mx) s Hs).
  assert (Hp : 0 < 2 ^ s) by (apply Z.pow_pos_nonneg; lia).
  pose proof (Z_div_mod (Z.pos mx * 2 ^ s) (Z.pos my) ltac:(lia)) as Hdm.
  destruct (Z.div_eucl (Z.pos mx * 2 ^ s) (Z.pos my)) as [q0 r0].
  destruct Hdm as [Hdm Hr0]. intros Heq. inversion Heq. subst q0 e' l. clear Heq.
  pose proof (Zdigits2_bounds (Z.pos mx) ltac:(lia)) as [Dx1 Dx2]. fold d1 in Dx1, Dx2.
  pose proof (Zdigits2_bounds (Z.pos my) ltac:(lia)) as [Dy1 Dy2]. fold d2 in Dy1, Dy2.
  pose proof (Zdigits2_pos (Z.pos mx) ltac:(lia)) as Dx0. fold d1 in Dx0.
  pose proof (Zdigits2_pos (Z.pos my) ltac:(lia)) as Dy0. fold d2 in Dy0.
  assert (Hq0 : 0 <= q).
  { destruct (Z_lt_le_dec q 0) as [Hn|]; [|assumption]. nia. }
  (* lower bound on the quotient *)
  assert (Hlow : forall k, 0 <= k -> k + d2 <= d1 - 1 + s -> 2 ^ k <= q).
  { intros k Hk Hkd.
    assert (H1 : 2 ^ (k + d2) <= Z.pos mx * 2 ^ s).
    { apply Z.le_trans with (2 ^ (d1 - 1 + s)).
      - apply Z.pow_le_mono_r; lia.
      - rewrite Z.pow_add_r by lia. nia. }
    rewrite Z.pow_add_r in H1 by lia.
    assert (0 < 2 ^ k) by (apply Z.pow_pos_nonneg; lia).
    destruct (Z_lt_le_dec q (2 ^ k)) as [Hlt|]; [|assumption]. nia. }
  split; [exact Hq0|]. split.
  - apply (new_location_ok (Z.pos my) r0 q); [lia|lia|].
    assert (Hb : (0 < IZR (Z.pos my))%R) by (apply IZR_lt; lia).
    pose proof (bpow_gt_0 ey).
    replace (bpow ex) with (bpow s * bpow e0 * bpow ey)%R.
    2:{ rewrite <- !bpow_add. f_equal. unfold s. ring. }
    rewrite bpow_opp, bpow_IZR by lia.
    pose proof (bpow_gt_0 e0).
    apply (f_equal IZR) in Hdm. rewrite plus_IZR, !mult_IZR in Hdm.
    field_simplify; [|lra|lra]. rewrite Hdm. field. lra.
  - destruct (Z.eq_dec q 0) as [Hz|Hnz].
    + (* the quotient is below one unit: deep underflow *)
      assert (He0 : e0 <= emin).
      { destruct (Z_le_gt_dec e0 emin) as [|Hgt]; [assumption|exfalso].
        assert (Hk : prec + d2 <= d1 - 1 + s + 1) by (unfold s, e0, SpecFloat.fexp in *; lia).
        specialize (Hlow (prec - 1) ltac:(lia) ltac:(lia)).
        assert (0 < 2 ^ (prec - 1)) by (apply Z.pow_pos_nonneg; lia). lia. }
      subst q. simpl Zdigits2. unfold SpecFloat.fexp. split; [lia|right; lia].
    + assert (Hqp : 0 < q) by lia.
      split; [|left; exact Hqp].
      assert (Hdq : d1 + s - d2 <= Zdigits2 q).
      { pose proof (Zdigits2_pos q Hqp).
        destruct (Z_le_gt_dec (d1 + s - d2) 0) as [|Hgt]; [lia|].
        specialize (Hlow (d1 + s - d2 - 1) ltac:(lia) ltac:(lia)).
        apply Zdigits2_lower in Hlow; lia. }
      apply Z.le_trans with (fexp (d1 + ex - (d2 + ey))); [unfold e0; lia|].
      apply fexp_mono. unfold s in Hdq. lia.
Qed.

Lemma SFdiv_rnd_ok (x y bnd : spec_float) :
  fv x = true -> fv y = true -> F2R y <> 0%R -> fv bnd = true ->
  (Rabs (F2R x / F2R y) <= F2R bnd)%R ->
  rnd_ok prec emax (F2R x / F2R y) (SFdiv prec emax x y).
Proof.
  intros Hx Hy Hy0 Hb Hle.
  destruct y as [sy|sy| |sy my ey]; try discriminate; [simpl in Hy0; lra|].
  destruct x as [sx|sx| |sx mx ex]; try discriminate; cbn [SFdiv].
  - eapply rnd_ok_value; [|apply (rnd_ok_self prec emax); reflexivity].
    simpl. unfold Rdiv. ring.
  - destruct (SFdiv_core_binary prec emax (Z.pos mx) ex (Z.pos my) ey) as [[q e'] l] eqn:Hc.
    destruct (SFdiv_core_ok mx ex my ey q e' l Hc) as (Hq & Hsr & He' & Hpos).
    pose proof (F2R_finite_abs sx mx ex) as Ax.
    pose proof (F2R_finite_abs sy my ey) as Ay.
    pose proof (F2R_finite_pos mx ex) as Px. pose proof (F2R_finite_pos my ey) as Py.
    pose proof (F2R_finite_neg mx ex) as Nx. pose proof (F2R_finite_neg my ey) as Ny.
    assert (Hpy : (0 < IZR (Z.pos my) * bpow ey)%R) by (simpl in Py; exact Py).
    assert (Hpx : (0 < IZR (Z.pos mx) * bpow ex)%R) by (simpl in Px; exact Px).
    assert (Hv : (Rabs (F2R (S754_finite sx mx ex) / F2R (S754_finite sy my ey)) =
                  IZR (Z.pos mx) * bpow ex / (IZR (Z.pos my) * bpow ey))%R).
    { unfold Rdiv. rewrite Rabs_mult, Rabs_inv, Ax, Ay. reflexivity. }
    assert (Hinv : (0 < / (IZR (Z.pos my) * bpow ey))%R) by (apply Rinv_0_lt_compat; exact Hpy).
    apply rounds_to_rnd_ok with (s := xorb sx sy) (bnd := bnd); try assumption.
    + intros H0. rewrite H0, Rabs_R0 in Hv. unfold Rdiv in Hv. nra.
    + assert (Hiy : forall t, (0 < t -> 0 < / t)%R) by (intros; apply Rinv_0_lt_compat; assumption).
      assert (Hiy' : forall t, (t < 0 -> / t < 0)%R) by (intros; apply Rinv_lt_0_compat; assumption).
      unfold Rdiv.
      destruct sx, sy; cbn [xorb].
      * specialize (Hiy' _ Ny). nra.
      * specialize (Hiy _ Py). nra.
      * specialize (Hiy' _ Ny). nra.
      * specialize (Hiy _ Py). nra.
    + rewrite Hv.
      replace (IZR (Z.pos mx) * bpow ex / (IZR (Z.pos my) * bpow ey))%R
        with (IZR (Z.pos mx) * bpow ex / (IZR (Z.pos my) * bpow ey) * bpow (- e') * bpow e')%R.
      2:{ rewrite Rmult_assoc, <- bpow_add. replace (- e' + e') with 0 by ring.
          rewrite bpow_0. ring. }
      apply (binary_round_aux_rounds prec emax Hprec Hemax); assumption.
Qed.

Lemma SFsqrt_core_ok (m : positive) (e : Z) :
  forall q e' l,
  SFsqrt_core_binary prec emax (Z.pos m) e = (q, e', l) ->
  0 < q /\
  sr_ok (shr_record_of_loc q l) (sqrt (IZR (Z.pos m) * bpow e) * bpow (- e')) /\
  e' <= fexp (Zdigits2 q + e').
Proof.
  intros q e' l. unfold SFsqrt_core_binary.
  set (d := Zdigits2 (Z.pos m)).
  set (e0 := Z.min (fexp (Z.div2 (d + e + 1))) (Z.div2 e)).
  set (s := e - 2 * e0).
  assert (He0a : e0 <= Z.div2 e) by apply Z.le_min_r.
  assert (He0b : e0 <= fexp (Z.div2 (d + e + 1))) by apply Z.le_min_l.
  assert (Hd2 : 2 * Z.div2 e <= e) by (rewrite Z.div2_div; apply Z.mul_div_le; lia).
  assert (Hs : 0 <= s) by (unfold s; clearbody e0; lia).
  rewrite (shift_match (Z.pos m) s Hs).
  assert (Hp : 0 < 2 ^ s) by (apply Z.pow_pos_nonneg; lia).
  pose proof (Z.sqrtrem_spec (Z.pos m * 2 ^ s) ltac:(lia)) as Hsq.
  destruct (Z.sqrtrem (Z.pos m * 2 ^ s)) as [q0 r0].
  destruct Hsq as [Hsq Hr0]. intros Heq. inversion Heq. subst q0 e' l. clear Heq.
  pose proof (Zdigits2_bounds (Z.pos m) ltac:(lia)) as [D1 D2]. fold d in D1, D2.
  pose proof (Zdigits2_pos (Z.pos m) ltac:(lia)) as D0. fold d in D0.
  assert (Hq : 0 < q) by nia.
  split; [exact Hq|].
  assert (HX : (sqrt (IZR (Z.pos m) * bpow e) * bpow (- e0) =
                sqrt (IZR (Z.pos m * 2 ^ s)))%R).
  { pose proof (bpow_gt_0 (- e0)) as Hb.
    rewrite <- (sqrt_square (bpow (- e0))) at 1 by lra.
    rewrite <- sqrt_mult.
    - f_equal. rewrite mult_IZR, <- bpow_IZR by lia.
      rewrite !Rmult_assoc, <- !bpow_add. do 2 f_equal. unfold s. ring.
    - apply Rmult_le_pos; [apply IZR_le; lia | left; apply bpow_gt_0].
    - nra. }
  rewrite HX.
  assert (Hqr : (0 < IZR q)%R) by (apply IZR_lt; exact Hq).
  assert (Hval : (IZR (Z.pos m * 2 ^ s) = IZR q * IZR q + IZR r0)%R).
  { rewrite Hsq, plus_IZR, mult_IZR. reflexivity. }
  assert (Hr0' : (0 <= IZR r0 <= 2 * IZR q)%R).
  { split; [apply IZR_le; lia|]. rewrite <- mult_IZR. apply IZR_le. lia. }
  split.
  - destruct (Z.eqb_spec r0 0) as [->|Hne].
    + unfold sr_ok; cbn [shr_record_of_loc shr_m shr_r shr_s]. rewrite Hval. rewrite Rplus_0_r.
      apply sqrt_square. lra.
    + assert (Hr1 : (1 <= IZR r0)%R) by (apply IZR_le; lia).
      destruct (Z.leb_spec r0 q) as [Hle|Hgt]; unfold sr_ok; cbn [shr_record_of_loc shr_m shr_r shr_s]; rewrite Hval.
      * apply IZR_le in Hle. split.
        -- apply sqrt_lt_sq; nra.
        -- apply sqrt_gt_sq; nra.
      * assert (Hgt' : (IZR q + 1 <= IZR r0)%R).
        { rewrite <- plus_IZR. apply IZR_le. lia. }
        split.
        -- apply sqrt_lt_sq; nra.
        -- apply sqrt_gt_sq; nra.
  - apply Z.le_trans with (fexp (Z.div2 (d + e + 1))); [exact He0b|].
    apply fexp_mono.
    pose proof (Zdigits2_bounds q Hq) as [_ Q2].
    pose proof (Zdigits2_pos q Hq) as Q0.
    assert (Hmq : Z.pos m * 2 ^ s < 2 ^ (2 * Zdigits2 q)).
    { replace (2 * Zdigits2 q) with (Zdigits2 q + Zdigits2 q) by ring.
      rewrite Z.pow_add_r by lia. nia. }
    assert (Hlow : 2 ^ (d - 1 + s) <= Z.pos m * 2 ^ s).
    { rewrite Z.pow_add_r by lia. nia. }
    assert (Hd : d - 1 + s < 2 * Zdigits2 q).
    { apply (Z.pow_lt_mono_r_iff 2); [lia|lia|]. lia. }
    assert (Hd3 : 2 * Z.div2 (d + e + 1) <= d + e + 1)
      by (rewrite Z.div2_div; apply Z.mul_div_le; lia).
    unfold s in Hd. clearbody d e0. lia.
Qed.

Lemma SFsqrt_rnd_ok (x bnd : spec_float) :
  fv x = true -> (0 <= F2R x)%R -> fv bnd = true ->
  (sqrt (F2R x) <= F2R bnd)%R ->
  rnd_ok prec emax (sqrt (F2R x)) (SFsqrt prec emax x).
Proof.
  intros Hx Hx0 Hb Hle.
  destruct x as [sx|sx| |sx mx ex]; try discriminate; cbn [SFsqrt].
  - eapply rnd_ok_value; [|apply (rnd_ok_self prec emax (S754_zero sx)); reflexivity].
    simpl. apply sqrt_0.
  - destruct sx.
    { pose proof (F2R_finite_neg mx ex). lra. }
    destruct (SFsqrt_core_binary prec emax (Z.pos mx) ex) as [[q e'] l] eqn:Hc.
    destruct (SFsqrt_core_ok mx ex q e' l Hc) as (Hq & Hsr & He').
    pose proof (F2R_finite_pos mx ex) as Px.
    assert (Hsp : (0 < sqrt (F2R (S754_finite false mx ex)))%R) by (apply sqrt_lt_R0; exact Px).
    apply rounds_to_rnd_ok with (s := false) (bnd := bnd); try assumption.
    + rewrite Rabs_pos_eq by lra. exact Hle.
    + lra.
    + rewrite Rabs_pos_eq by lra.
      replace (sqrt (F2R (S754_finite false mx ex)))
        with (sqrt (IZR (Z.pos mx) * bpow ex) * bpow (- e') * bpow e')%R.
      2:{ rewrite Rmult_assoc, <- bpow_add. replace (- e' + e') with 0 by ring.
          rewrite bpow_0. simpl. ring. }
      apply (binary_round_aux_rounds prec emax Hprec Hemax); try assumption; [lia|left; lia].
Qed.
End DivSqrt.

(** ** Comparisons *)

Section Compare.
Variables prec emax : Z.
Hypothesis Hprec : 0 < prec.

Abbreviation fexp := (SpecFloat.fexp prec emax).
Abbreviation fv := (finite_valid prec emax).

Lemma bounded_exp_lt m1 e1 m2 e2 :
  bounded prec emax m1 e1 = true -> bounded prec emax m2 e2 = true ->
  e1 < e2 ->
  (IZR (Z.pos m1) * bpow e1 < IZR (Z.pos m2) * bpow e2)%R.
Proof.
  intros H1 H2 He.
  destruct (bounded_facts prec emax m1 e1 H1) as (_ & _ & _ & C1).
  destruct (bounded_facts prec emax m2 e2 H2) as (_ & _ & _ & C2).
  pose proof (digits2_pos_bounds m1) as [_ D1].
  pose proof (digits2_pos_bounds m2) as [D2 _].
  assert (Hd : Z.pos (digits2_pos m1) + e1 < Z.pos (digits2_pos m2) + e2).
  { destruct (Z_lt_le_dec (Z.pos (digits2_pos m1) + e1) (Z.pos (digits2_pos m2) + e2))
      as [|Hc]; [assumption|].
    apply (fexp_mono prec emax) in Hc. lia. }
  apply Rlt_le_trans with (bpow (Z.pos (digits2_pos m1) + e1)).
  - rewrite bpow_add. apply Rmult_lt_compat_r; [apply bpow_gt_0|].
    rewrite bpow_IZR by lia. apply IZR_lt. exact D1.
  - apply Rle_trans with (bpow (Z.pos (digits2_pos m2) - 1 + e2)).
    + apply bpow_le. lia.
    + rewrite bpow_add. apply Rmult_le_compat_r; [left; apply bpow_gt_0|].
      rewrite bpow_IZR by lia. apply IZR_le. exact D2.
Qed.

Lemma SFcompare_finite_pos m1 e1 m2 e2 :
  bounded prec emax m1 e1 = true -> bounded prec emax m2 e2 = true ->
  match (match Z.compare e1 e2 with
         | Lt => Lt | Gt => Gt | Eq => Pos.compare_cont Eq m1 m2 end) with
  | Lt => (IZR (Z.pos m1) * bpow e1 < IZR (Z.pos m2) * bpow e2)%R
  | Eq => (IZR (Z.pos m1) * bpow e1 = IZR (Z.pos m2) * bpow e2)%R
  | Gt => (IZR (Z.pos m2) * bpow e2 < IZR (Z.pos m1) * bpow e1)%R
  end.
Proof.
  intros H1 H2.
  destruct (Z.compare_spec e1 e2) as [He|He|He].
  - subst e2. pose proof (bpow_gt_0 e1).
    change (Pos.compare_cont Eq m1 m2) with (Pos.compare m1 m2).
    destruct (Pos.compare_spec m1 m2) as [Hm|Hm|Hm].
    + subst. reflexivity.
    + apply Rmult_lt_compat_r; [assumption|]. apply IZR_lt. lia.
    + apply Rmult_lt_compat_r; [assumption|]. apply IZR_lt. lia.
  - apply bounded_exp_lt; assumption.
  - apply bounded_exp_lt; assumption.
Qed.

(** [SFcompare] orders the numbers of the format as the reals. *)
Lemma SFcompare_spec (x y : spec_float) :
  fv x = true -> fv y = true ->
  match SFcompare x y with
  | Some Lt => (F2R x < F2R y)%R
  | Some Eq => (F2R x = F2R y)%R
  | Some Gt => (F2R y < F2R x)%R
  | None => False
  end.
Proof.
  intros Hx Hy.
  destruct x as [sx|sx| |sx mx ex]; try discriminate;
    destruct y as [sy|sy| |sy my ey]; try discriminate; cbn [SFcompare].
  - reflexivity.
  - destruct sy; [apply F2R_finite_neg | apply F2R_finite_pos].
  - destruct sx; [apply F2R_finite_neg | apply F2R_finite_pos].
  - rewrite fv_finite in Hx, Hy.
    pose proof (F2R_finite_pos mx ex) as Px. pose proof (F2R_finite_pos my ey) as Py.
    pose proof (F2R_finite_neg mx ex) as Nx. pose proof (F2R_finite_neg my ey) as Ny.
    pose proof (SFcompare_finite_pos mx ex my ey Hx Hy) as Hc.
    destruct sx, sy; try lra.
    + cbn [F2R cond_Zopp]. change (Z.neg mx) with (- Z.pos mx).
      change (Z.neg my) with (- Z.pos my). rewrite !opp_IZR.
      cbn [F2R cond_Zopp] in Hc. revert Hc.
      destruct (ex ?= ey); [destruct (Pos.compare_cont Eq mx my)| |];
        cbn [CompOpp]; intros; lra.
    + exact Hc.
Qed.

Lemma SFltb_true (x y : spec_float) :
  fv x = true -> fv y = true ->
  (SFltb x y = true <-> (F2R x < F2R y)%R).
Proof.
  intros Hx Hy. pose proof (SFcompare_spec x y Hx Hy) as H.
  unfold SFltb. destruct (SFcompare x y) as [[]|]; try contradiction;
    split; intros; try discriminate; try reflexivity; lra.
Qed.

Lemma SFltb_false (x y : spec_float) :
  fv x = true -> fv y = true ->
  (SFltb x y = false <-> (F2R y <= F2R x)%R).
Proof.
  intros Hx Hy. pose proof (SFcompare_spec x y Hx Hy) as H.
  unfold SFltb. destruct (SFcompare x y) as [[]|]; try contradiction;
    split; intros; try discriminate; try reflexivity; lra.
Qed.

Lemma SFleb_true (x y : spec_float) :
  fv x = true -> fv y = true ->
  (SFleb x y = true <-> (F2R x <= F2R y)%R).
Proof.
  intros Hx Hy. pose proof (SFcompare_spec x y Hx Hy) as H.
  unfold SFleb. destruct (SFcompare x y) as [[]|]; try contradiction;
    split; intros; try discriminate; try reflexivity; lra.
Qed.

Lemma SFleb_false (x y : spec_float) :
  fv x = true -> fv y = true ->
  (SFleb x y = false <-> (F2R y < F2R x)%R).
Proof.
  intros Hx Hy. pose proof (SFcompare_spec x y Hx Hy) as H.
  unfold SFleb. destruct (SFcompare x y) as [[]|]; try contradiction;
    split; intros; try discriminate; try reflexivity; lra.
Qed.
End Compare.

(** * The formats of the sketch *)

Lemma bpow_neg_lit p : bpow (Z.neg p) = (/ IZR (Z.pow_pos 2 p))%R.
Proof. change (Z.neg p) with (- Z.pos p). rewrite bpow_opp, bpow_IZR by lia. reflexivity. Qed.

Lemma bpow_pos_lit p : bpow (Z.pos p) = IZR (Z.pow_pos 2 p).
Proof. rewrite bpow_IZR by lia. reflexivity. Qed.

(** Evaluates [F2R] of a literal float and closes the goal by linear
    arithmetic. *)
Ltac F2R_unfold :=
  cbv [F2R cond_Zopp Z.opp fneg SFopp negb f0 f1 f2 f10 f127 f180 f360 f2p27 f2p33 f2p34];
  rewrite ?bpow_neg_lit, ?bpow_pos_lit, ?bpow_0.

Ltac pow_lit :=
  repeat match goal with
         | |- context [Z.pow_pos 2 ?p] =>
           let c := eval vm_compute in (Z.pow_pos 2 p) in
           change (Z.pow_pos 2 p) with c
         end.

Ltac F2R_lit := F2R_unfold; pow_lit; lra.

Lemma F2R_f180 : F2R f180 = 180%R.
Proof. F2R_lit. Qed.

Lemma F2R_f360 : F2R f360 = 360%R.
Proof. F2R_lit. Qed.

Lemma F2R_neg_f180 : F2R (fneg f180) = (- 180)%R.
Proof. F2R_lit. Qed.

Lemma F2R_f2p27 : F2R f2p27 = 134217728%R.
Proof. F2R_lit. Qed.

Lemma F2R_f0 : F2R f0 = 0%R.
Proof. reflexivity. Qed.

Lemma rnd_fv prec emax v r : rnd_ok prec emax v r -> finite_valid prec emax r = true.
Proof. intros H. apply H. Qed.

Lemma rnd_le prec emax v r b :
  rnd_ok prec emax v r -> finite_valid prec emax b = true ->
  (v <= F2R b)%R -> (F2R r <= F2R b)%R.
Proof. intros (_ & H & _). apply H. Qed.

Lemma rnd_ge prec emax v r b :
  rnd_ok prec emax v r -> finite_valid prec emax b = true ->
  (F2R b <= v)%R -> (F2R b <= F2R r)%R.
Proof. intros (_ & _ & H & _). apply H. Qed.

Lemma F32_add_ok x y bnd :
  fv32 x = true -> fv32 y = true -> fv32 bnd = true ->
  (Rabs (F2R x + F2R y) <= F2R bnd)%R -> rnd32 (F2R x + F2R y) (F32.add x y).
Proof. apply (SFadd_rnd_ok 24 128); reflexivity. Qed.

Lemma F32_sub_ok x y bnd :
  fv32 x = true -> fv32 y = true -> fv32 bnd = true ->
  (Rabs (F2R x - F2R y) <= F2R bnd)%R -> rnd32 (F2R x - F2R y) (F32.sub x y).
Proof. apply (SFsub_rnd_ok 24 128); reflexivity. Qed.

Lemma F32_mul_ok x y bnd :
  fv32 x = true -> fv32 y = true -> fv32 bnd = true ->
  (Rabs (F2R x * F2R y) <= F2R bnd)%R -> rnd32 (F2R x * F2R y) (F32.mul x y).
Proof. apply (SFmul_rnd_ok 24 128); reflexivity. Qed.

Lemma F32_div_ok x y bnd :
  fv32 x = true -> fv32 y = true -> F2R y <> 0%R -> fv32 bnd = true ->
  (Rabs (F2R x / F2R y) <= F2R bnd)%R -> rnd32 (F2R x / F2R y) (F32.div x y).
Proof. apply (SFdiv_rnd_ok 24 128); reflexivity. Qed.

Lemma F32_sqrt_ok x bnd :
  fv32 x = true -> (0 <= F2R x)%R -> fv32 bnd = true ->
  (sqrt (F2R x) <= F2R bnd)%R -> rnd32 (sqrt (F2R x)) (F32.sqrtf x).
Proof. apply (SFsqrt_rnd_ok 24 128); reflexivity. Qed.

Lemma flt_true x y :
  fv32 x = true -> fv32 y = true -> (flt x y = true <-> (F2R x < F2R y)%R).
Proof. apply (SFltb_true 24 128). Qed.

Lemma flt_false x y :
  fv32 x = true -> fv32 y = true -> (flt x y = false <-> (F2R y <= F2R x)%R).
Proof. apply (SFltb_false 24 128). Qed.

Lemma fle_true x y :
  fv32 x = true -> fv32 y = true -> (fle x y = true <-> (F2R x <= F2R y)%R).
Proof. apply (SFleb_true 24 128). Qed.

Lemma fle_false x y :
  fv32 x = true -> fv32 y = true -> (fle x y = false <-> (F2R y < F2R x)%R).
Proof. apply (SFleb_false 24 128). Qed.

(** * The wrap loops *)

Lemma wrap_down_stop fuel a : flt f180 a = false -> wrap_down fuel a = Some a.
Proof. intros H. destruct fuel; simpl; rewrite H; reflexivity. Qed.

Lemma wrap_down_go fuel a :
  flt f180 a = true -> wrap_down (S fuel) a = wrap_down fuel (F32.sub a f360).
Proof. intros H. simpl. rewrite H. reflexivity. Qed.

Lemma wrap_up_stop fuel a : flt a (fneg f180) = false -> wrap_up fuel a = Some a.
Proof. intros H. destruct fuel; cbn [wrap_up]; rewrite H; reflexivity. Qed.

Lemma wrap_up_go fuel a :
  flt a (fneg f180) = true -> wrap_up (S fuel) a = wrap_up fuel (F32.add a f360).
Proof. intros H. cbn [wrap_up]. rewrite H. reflexivity. Qed.

Lemma sub360_ok a :
  fv32 a = true -> (180 < F2R a)%R -> rnd32 (F2R a - 360) (F32.sub a f360).
Proof.
  intros Ha H. rewrite <- F2R_f360.
  apply F32_sub_ok with (bnd := a); try assumption; try reflexivity.
  rewrite F2R_f360. apply Rabs_le. lra.
Qed.

Lemma add360_ok a :
  fv32 a = true -> (F2R a < - 180)%R -> rnd32 (F2R a + 360) (F32.add a f360).
Proof.
  intros Ha H. rewrite <- F2R_f360.
  apply F32_add_ok with (bnd := fneg a); try assumption; try reflexivity.
  - unfold fv32, fneg. rewrite fv_opp. exact Ha.
  - unfold fneg. rewrite F2R_opp, F2R_f360. apply Rabs_le. lra.
Qed.

Lemma wrap_down_inv fuel : forall a b,
  fv32 a = true -> wrap_down fuel a = Some b ->
  fv32 b = true /\ (F2R b <= 180)%R.
Proof.
  induction fuel as [|n IH]; intros a b Ha H; simpl in H;
    destruct (flt f180 a) eqn:E; try discriminate.
  - inversion H; subst b. split; [exact Ha|].
    apply flt_false in E; try assumption; try reflexivity. rewrite F2R_f180 in E. exact E.
  - apply flt_true in E; try assumption; try reflexivity. rewrite F2R_f180 in E.
    apply (IH _ _ (rnd_fv _ _ _ _ (sub360_ok a Ha E)) H).
  - inversion H; subst b. split; [exact Ha|].
    apply flt_false in E; try assumption; try reflexivity. rewrite F2R_f180 in E. exact E.
Qed.

Lemma wrap_up_inv fuel : forall a r,
  fv32 a = true -> (F2R a <= 180)%R -> wrap_up fuel a = Some r ->
  fv32 r = true /\ (- 180 <= F2R r <= 180)%R.
Proof.
  induction fuel as [|n IH]; intros a r Ha Hle H; cbn [wrap_up] in H;
    destruct (flt a (fneg f180)) eqn:E; try discriminate.
  - inversion H; subst r. split; [exact Ha|].
    apply flt_false in E; try assumption; try reflexivity. rewrite F2R_neg_f180 in E. lra.
  - apply flt_true in E; try assumption; try reflexivity. rewrite F2R_neg_f180 in E.
    pose proof (add360_ok a Ha E) as Hr.
    apply (IH _ _ (rnd_fv _ _ _ _ Hr)); [|exact H].
    rewrite <- F2R_f180. apply (rnd_le _ _ _ _ _ Hr); [reflexivity|].
    rewrite F2R_f180. lra.
  - inversion H; subst r. split; [exact Ha|].
    apply flt_false in E; try assumption; try reflexivity. rewrite F2R_neg_f180 in E. lra.
Qed.

Lemma wrap_down_pinf fuel : wrap_down fuel (S754_infinity false) = None.
Proof. induction fuel as [|n IH]; [reflexivity|]. simpl. exact IH. Qed.

Lemma wrap_up_ninf fuel : wrap_up fuel (S754_infinity true) = None.
Proof. induction fuel as [|n IH]; [reflexivity|]. simpl. exact IH. Qed.

Lemma valid_cases (a : float) :
  F32.valid a = true ->
  fv32 a = true \/ a = S754_nan \/ a = S754_infinity false \/ a = S754_infinity true.
Proof.
  destruct a as [s|[]| |s m e]; intros H; auto.
Qed.

(** Wrapping is idempotent: a second pass leaves a wrapped angle
    untouched, whatever its fuel. *)
Lemma wrap_idempotent fuel a r :
  F32.valid a = true -> wrap fuel a = Some r ->
  forall fuel', wrap fuel' r = Some r.
Proof.
  intros Hv H fuel'. unfold wrap in *.
  destruct (valid_cases a Hv) as [Ha | [-> | [-> | ->]]].
  - destruct (wrap_down fuel a) as [b|] eqn:Hd; [|discriminate].
    destruct (wrap_down_inv fuel a b Ha Hd) as [Hb Hb180].
    destruct (wrap_up_inv fuel b r Hb Hb180 H) as [Hr [Hr1 Hr2]].
    rewrite wrap_down_stop.
    + apply wrap_up_stop. apply flt_false; try assumption; try reflexivity.
      rewrite F2R_neg_f180. exact Hr1.
    + apply flt_false; try assumption; try reflexivity.
      rewrite F2R_f180. exact Hr2.
  - rewrite wrap_down_stop in H by reflexivity.
    rewrite wrap_up_stop in H by reflexivity. inversion H; subst r.
    rewrite wrap_down_stop by reflexivity. apply wrap_up_stop. reflexivity.
  - rewrite wrap_down_pinf in H. discriminate.
  - rewrite wrap_down_stop in H by reflexivity.
    rewrite wrap_up_ninf in H. discriminate.
Qed.

Lemma sub_zero_r (a : float) : F32.sub a f0 = a.
Proof. destruct a as [[]|[]| |s m e]; reflexivity. Qed.

(** * Below [2^27] the wrap steps are exact *)

Section Validity.
Variables prec emax : Z.
Hypothesis Hprec : 0 < prec.
Hypothesis Hemax : prec < emax.

Lemma rounds_to_valid s v r :
  rounds_to prec emax s v r -> valid_binary prec emax r = true.
Proof.
  intros (E & z & _ & _ & _ & _ & [[_ ->]|[(m & e & -> & Hb & _)|[-> _]]]);
    [reflexivity | exact Hb | reflexivity].
Qed.

Lemma binary_normalize_valid M e sz :
  valid_binary prec emax (binary_normalize prec emax M e sz) = true.
Proof.
  destruct M as [|p|p]; cbn [binary_normalize]; [reflexivity| |];
    eapply rounds_to_valid; apply (binary_round_rounds prec emax Hprec Hemax).
Qed.

Lemma SFsub_valid x y :
  finite_valid prec emax x = true -> finite_valid prec emax y = true ->
  valid_binary prec emax (SFsub prec emax x y) = true.
Proof.
  intros Hx Hy.
  destruct x as [sx|sx| |sx mx ex]; try discriminate;
    destruct y as [sy|sy| |sy my ey]; try discriminate; cbn [SFsub].
  - destruct sx, sy; reflexivity.
  - exact Hy.
  - exact Hx.
  - apply binary_normalize_valid.
Qed.
End Validity.

Lemma fv32_of_valid_finite (x : float) :
  F32.valid x = true -> is_finite x = true -> fv32 x = true.
Proof.
  unfold fv32, finite_valid, F32.valid. intros H1 H2. rewrite H1, H2. reflexivity.
Qed.

Lemma fv32_valid (x : float) : fv32 x = true -> F32.valid x = true.
Proof. unfold fv32, finite_valid, F32.valid. intros H. apply andb_prop in H. tauto. Qed.

Lemma flt_abs_is_finite (d b : float) :
  flt (fabsf d) b = true -> is_finite b = true -> is_finite d = true.
Proof.
  destruct d as [s|s| |s m e]; try reflexivity;
    destruct b as [sb|sb| |sb mb eb]; try discriminate.
Qed.

Lemma fle_abs_is_finite (d b : float) :
  fle (fabsf d) b = true -> is_finite b = true -> is_finite d = true.
Proof.
  destruct d as [s|s| |s m e]; try reflexivity;
    destruct b as [sb|sb| |sb mb eb]; try discriminate.
Qed.

Lemma c360_multiple g : -16 <= g <= 3 -> (360 = IZR (45 * 2 ^ (3 - g)) * bpow g)%R.
Proof.
  intros Hg. rewrite mult_IZR, <- bpow_IZR by lia.
  rewrite Rmult_assoc, <- bpow_add. replace (3 - g + g) with 3 by ring.
  rewrite bpow_pos_lit. pow_lit. lra.
Qed.

(** A multiple of [2^g] below [2^(24+g)] is a [float]: rounding to it
    is exact. *)
Lemma step_exact g (v : R) (r : float) (K : Z) :
  -16 <= g <= 3 -> rnd32 v r -> v = (IZR K * bpow g)%R ->
  (Rabs v < bpow (24 + g))%R ->
  F2R r = v /\ is_multiple g r.
Proof.
  intros Hg Hr Hv Hlt.
  assert (HK : Z.abs K < 2 ^ 24).
  { apply lt_IZR. rewrite abs_IZR. apply Rmult_lt_reg_r with (bpow g); [apply bpow_gt_0|].
    rewrite <- (Rabs_pos_eq (bpow g)) at 1 by (left; apply bpow_gt_0).
    rewrite <- Rabs_mult, <- Hv, <- bpow_IZR, <- bpow_add by lia. exact Hlt. }
  destruct (representable_Z 24 128 eq_refl eq_refl K g HK) as (b & Hb & Hbv).
  - unfold emin. lia.
  - destruct (Z.eq_dec K 0) as [->|Hne]; [simpl; lia|].
    pose proof (Zdigits2_upper (Z.abs K) 24 ltac:(lia) ltac:(lia)). lia.
  - assert (E : F2R r = v) by (apply (rnd_ok_exact 24 128 v r b Hr Hb); congruence).
    split; [exact E|]. exists K. congruence.
Qed.

Lemma finite_decomp (d : float) :
  fv32 d = true -> (128 < Rabs (F2R d))%R -> (Rabs (F2R d) < bpow 27)%R ->
  exists g, -16 <= g <= 3 /\ is_multiple g d /\ (Rabs (F2R d) < bpow (24 + g))%R.
Proof.
  intros Hd Hlo Hhi.
  destruct d as [s|s| |s m e]; try discriminate.
  { simpl in Hlo. rewrite Rabs_R0 in Hlo. lra. }
  unfold fv32 in Hd. rewrite fv_finite in Hd.
  destruct (bounded_facts 24 128 m e Hd) as (H1 & H2 & H3 & H4).
  pose proof (digits2_pos_bounds m) as [D1 D2].
  rewrite F2R_finite_abs in *.
  assert (Hm : (IZR (Z.pos m) < bpow 24)%R).
  { rewrite bpow_IZR by lia. apply IZR_lt.
    eapply Z.lt_le_trans; [exact D2|]. apply Z.pow_le_mono_r; lia. }
  assert (Hup : (IZR (Z.pos m) * bpow e < bpow (24 + e))%R).
  { rewrite bpow_add. apply Rmult_lt_compat_r; [apply bpow_gt_0 | exact Hm]. }
  assert (He1 : 7 < 24 + e).
  { apply bpow_lt_inv. eapply Rlt_trans; [|exact Hup].
    eapply Rle_lt_trans; [|exact Hlo]. rewrite bpow_pos_lit. pow_lit. lra. }
  assert (He2 : Z.pos (digits2_pos m) - 1 + e < 27).
  { apply bpow_lt_inv. eapply Rle_lt_trans; [|exact Hhi].
    rewrite bpow_add. apply Rmult_le_compat_r; [left; apply bpow_gt_0|].
    rewrite bpow_IZR by lia. apply IZR_le. exact D1. }
  exists e. split; [unfold fexp, emin in H4; lia|]. split; [|exact Hup].
  exists (cond_Zopp s (Z.pos m)). reflexivity.
Qed.

Lemma wrap_down_exact g : forall (n : nat) (a : float),
  -16 <= g <= 3 -> fv32 a = true -> is_multiple g a ->
  (F2R a < bpow (24 + g))%R -> (F2R a <= 180 + 360 * INR n)%R ->
  exists b (k : Z),
    0 <= k /\
    (forall fuel, (n <= fuel)%nat -> wrap_down fuel a = Some b) /\
    fv32 b = true /\ F2R b = (F2R a - 360 * IZR k)%R /\ (F2R b <= 180)%R /\
    ((180 < F2R a)%R -> (- 180 < F2R b)%R) /\
    ((F2R a <= 180)%R -> b = a).
Proof.
  intros n. induction n as [|n IH]; intros a Hg Ha Hm Hlt Hn.
  - simpl in Hn. exists a, 0. repeat split; try assumption; try lra; try lia.
    intros fuel _. apply wrap_down_stop.
    apply flt_false; try assumption; try reflexivity. rewrite F2R_f180. lra.
  - destruct (Rle_lt_dec (F2R a) 180) as [Hle|Hgt].
    + exists a, 0. repeat split; try assumption; try lra; try lia.
      intros fuel _. apply wrap_down_stop.
      apply flt_false; try assumption; try reflexivity. rewrite F2R_f180. lra.
    + pose proof (sub360_ok a Ha Hgt) as Hr.
      destruct Hm as [K HK].
      destruct (step_exact g (F2R a - 360) (F32.sub a f360) (K - 45 * 2 ^ (3 - g)) Hg Hr)
        as [Hv Hm'].
      { rewrite minus_IZR, Rmult_minus_distr_r, <- c360_multiple by exact Hg.
        rewrite HK. reflexivity. }
      { apply Rabs_def1; lra. }
      rewrite S_INR in Hn.
      destruct (IH (F32.sub a f360) Hg (rnd_fv _ _ _ _ Hr) Hm') as (b & k & Hk & Hf & Hb & Hbv & Hb1 & Hb2 & Hb3);
        try (rewrite Hv; lra).
      exists b, (k + 1). repeat split; try assumption; try lia.
      * intros fuel Hfuel. destruct fuel as [|fuel]; [lia|].
        rewrite wrap_down_go.
        -- apply Hf. lia.
        -- apply flt_true; try assumption; try reflexivity. rewrite F2R_f180. exact Hgt.
      * rewrite Hbv, Hv, plus_IZR. ring.
      * intros _. destruct (Rle_lt_dec (F2R (F32.sub a f360)) 180) as [H1|H1].
        -- rewrite (Hb3 H1), Hv. lra.
        -- apply Hb2. exact H1.
      * intros Hc. lra.
Qed.

Lemma wrap_up_exact g : forall (n : nat) (a : float),
  -16 <= g <= 3 -> fv32 a = true -> is_multiple g a ->
  (- bpow (24 + g) < F2R a)%R -> (- 180 - 360 * INR n <= F2R a)%R ->
  exists b (k : Z),
    0 <= k /\
    (forall fuel, (n <= fuel)%nat -> wrap_up fuel a = Some b) /\
    fv32 b = true /\ F2R b = (F2R a + 360 * IZR k)%R /\ (- 180 <= F2R b)%R /\
    ((F2R a < - 180)%R -> (F2R b < 180)%R) /\
    ((- 180 <= F2R a)%R -> b = a).
Proof.
  intros n. induction n as [|n IH]; intros a Hg Ha Hm Hlt Hn.
  - simpl in Hn. exists a, 0. repeat split; try assumption; try lra; try lia.
    intros fuel _. apply wrap_up_stop.
    apply flt_false; try assumption; try reflexivity. rewrite F2R_neg_f180. lra.
  - destruct (Rle_lt_dec (- 180) (F2R a)) as [Hle|Hgt].
    + exists a, 0. repeat split; try assumption; try lra; try lia.
      intros fuel _. apply wrap_up_stop.
      apply flt_false; try assumption; try reflexivity. rewrite F2R_neg_f180. lra.
    + pose proof (add360_ok a Ha Hgt) as Hr.
      destruct Hm as [K HK].
      destruct (step_exact g (F2R a + 360) (F32.add a f360) (K + 45 * 2 ^ (3 - g)) Hg Hr)
        as [Hv Hm'].
      { rewrite plus_IZR, Rmult_plus_distr_r, <- c360_multiple by exact Hg.
        rewrite HK. reflexivity. }
      { apply Rabs_def1; lra. }
      rewrite S_INR in Hn.
      destruct (IH (F32.add a f360) Hg (rnd_fv _ _ _ _ Hr) Hm') as (b & k & Hk & Hf & Hb & Hbv & Hb1 & Hb2 & Hb3);
        try (rewrite Hv; lra).
      exists b, (k + 1). repeat split; try assumption; try lia.
      * intros fuel Hfuel. destruct fuel as [|fuel]; [lia|].
        rewrite wrap_up_go.
        -- apply Hf. lia.
        -- apply flt_true; try assumption; try reflexivity. rewrite F2R_neg_f180. exact Hgt.
      * rewrite Hbv, Hv, plus_IZR. ring.
      * intros _. destruct (Rle_lt_dec (- 180) (F2R (F32.add a f360))) as [H1|H1].
        -- rewrite (Hb3 H1), Hv. lra.
        -- apply Hb2. exact H1.
      * intros Hc. lra.
Qed.

(** * The Angle Normalizer *)

Lemma SFsub_valid_any (x y : float) :
  F32.valid x = true -> F32.valid y = true -> F32.valid (F32.sub x y) = true.
Proof.
  unfold F32.valid, F32.sub. intros Hx Hy.
  destruct x as [sx|sx| |sx mx ex]; destruct y as [sy|sy| |sy my ey];
    try reflexivity; try (destruct sx, sy; reflexivity); try assumption.
  apply (SFsub_valid 24 128); try reflexivity; assumption.
Qed.

Lemma fv32_sub_bounded (raw offset b : float) :
  fv32 raw = true -> fv32 offset = true -> is_finite b = true ->
  (flt (fabsf (F32.sub raw offset)) b = true \/ fle (fabsf (F32.sub raw offset)) b = true) ->
  fv32 (F32.sub raw offset) = true.
Proof.
  intros Hr Ho Hb H. apply fv32_of_valid_finite.
  - apply SFsub_valid_any; apply fv32_valid; assumption.
  - destruct H as [H|H]; [eapply flt_abs_is_finite | eapply fle_abs_is_finite]; eassumption.
Qed.

Lemma fv32_abs (x : float) : fv32 (fabsf x) = fv32 x.
Proof. apply fv_abs. Qed.

Lemma INR_to_nat (z : Z) : 0 <= z -> INR (Z.to_nat z) = IZR z.
Proof. intros H. rewrite INR_IZR_INZ, Z2Nat.id by exact H. reflexivity. Qed.

(** C3 (amended).  When the float difference [d = raw - offset] is
    below [2^27] in magnitude, the Angle Normalizer returns [d] moved
    by an exact multiple of 360 into the closed interval [-180, 180]:
    a difference already in the interval, +180 and -180 included, is
    returned unchanged. *)
Theorem normalize_angle_closed_range (raw offset : float) :
  fv32 raw = true -> fv32 offset = true ->
  flt (fabsf (F32.sub raw offset)) f2p27 = true ->
  exists (r : float) (k : Z),
    (forall fuel, (Z.to_nat 372828 <= fuel)%nat ->
                  normalize_angle fuel raw offset = Some r) /\
    fv32 r = true /\
    (- 180 <= F2R r <= 180)%R /\
    F2R r = (F2R (F32.sub raw offset) - 360 * IZR k)%R /\
    ((- 180 <= F2R (F32.sub raw offset) <= 180)%R -> r = F32.sub raw offset).
Proof.
  intros Hraw Hoff Hlt. unfold normalize_angle.
  assert (Hd : fv32 (F32.sub raw offset) = true).
  { apply (fv32_sub_bounded raw offset f2p27); auto. }
  set (d := F32.sub raw offset) in *.
  assert (Habs : (Rabs (F2R d) < 134217728)%R).
  { apply flt_true in Hlt; [|rewrite fv32_abs; exact Hd|reflexivity].
    unfold fabsf in Hlt. rewrite F2R_abs, F2R_f2p27 in Hlt. exact Hlt. }
  assert (Hb27 : bpow 27 = 134217728%R) by (rewrite bpow_pos_lit; pow_lit; reflexivity).
  assert (Hn : INR (Z.to_nat 372828) = 372828%R) by (apply INR_to_nat; lia).
  revert Hn. generalize (Z.to_nat 372828). intros N Hn.
  pose proof (Rabs_le_inv (F2R d) 134217728 ltac:(lra)) as [Hlo Hhi].
  destruct (Rle_lt_dec (F2R d) 180) as [Hle|Hgt];
    [destruct (Rle_lt_dec (- 180) (F2R d)) as [Hge|Hlt']|].
  - (* already in the interval *)
    exists d, 0. repeat split; try assumption; try lra.
    intros fuel _. unfold wrap. rewrite wrap_down_stop.
    + apply wrap_up_stop. apply flt_false; try assumption; try reflexivity.
      rewrite F2R_neg_f180. exact Hge.
    + apply flt_false; try assumption; try reflexivity. rewrite F2R_f180. exact Hle.
  - (* below -180: the second loop runs *)
    destruct (finite_decomp d Hd) as (g & Hg & Hm & Hg24).
    { rewrite Rabs_left by lra. lra. }
    { rewrite Hb27. exact Habs. }
    rewrite Rabs_left in Hg24 by lra.
    destruct (wrap_up_exact g N d Hg Hd Hm) as
        (b & k & Hk & Hf & Hb & Hbv & Hb1 & Hb2 & Hb3); try lra.
    specialize (Hb2 Hlt').
    exists b, (- k). repeat split; try assumption; try lra.
    + intros fuel Hfuel. unfold wrap. rewrite wrap_down_stop.
      * apply Hf. exact Hfuel.
      * apply flt_false; try assumption; try reflexivity. rewrite F2R_f180. exact Hle.
    + rewrite Hbv, opp_IZR. ring.
  - (* above 180: the first loop runs, the second does not *)
    destruct (finite_decomp d Hd) as (g & Hg & Hm & Hg24).
    { rewrite Rabs_pos_eq by lra. lra. }
    { rewrite Hb27. exact Habs. }
    rewrite Rabs_pos_eq in Hg24 by lra.
    destruct (wrap_down_exact g N d Hg Hd Hm) as
        (b & k & Hk & Hf & Hb & Hbv & Hb1 & Hb2 & Hb3); try lra.
    specialize (Hb2 Hgt).
    exists b, k. repeat split; try assumption; try lra.
    intros fuel Hfuel. unfold wrap. rewrite (Hf fuel Hfuel).
    apply wrap_up_stop. apply flt_false; try assumption; try reflexivity.
    rewrite F2R_neg_f180. lra.
Qed.

(** C4 (amended).  The wrap step is idempotent: an angle returned by
    the Angle Normalizer is returned unchanged when it is wrapped
    again, that is, when the normalizer is applied again with offset 0. *)
Theorem wrap_idempotent_offset_zero (fuel : nat) (raw offset r : float) :
  F32.valid raw = true -> F32.valid offset = true ->
  normalize_angle fuel raw offset = Some r ->
  forall fuel', wrap fuel' r = Some r /\ normalize_angle fuel' r f0 = Some r.
Proof.
  intros Hraw Hoff H fuel'. unfold normalize_angle in *.
  rewrite sub_zero_r.
  assert (Hw : wrap fuel' r = Some r).
  { eapply wrap_idempotent; [|exact H]. apply SFsub_valid_any; assumption. }
  split; exact Hw.
Qed.

(** * Termination of the wrap loops *)

Lemma rnd_half_ulp prec emax v r E :
  rnd_ok prec emax v r -> (Rabs v < bpow E)%R ->
  (Rabs (F2R r - v) <= bpow (fexp prec emax E - 1))%R.
Proof. intros (_ & _ & _ & _ & _ & _ & _ & H). apply H. Qed.

Lemma F2R_f2p33 : F2R f2p33 = 8589934592%R.
Proof. F2R_lit. Qed.

Lemma bpow_33 : bpow 33 = 8589934592%R.
Proof. rewrite bpow_pos_lit. pow_lit. reflexivity. Qed.

Lemma bpow_8 : bpow 8 = 256%R.
Proof. rewrite bpow_pos_lit. pow_lit. reflexivity. Qed.

(** Up to [2^33] a subtraction of 360 is rounded by at most 256: the
    angle decreases by at least 104. *)
Lemma sub360_decr a :
  fv32 a = true -> (180 < F2R a)%R -> (F2R a <= 8589934592)%R ->
  fv32 (F32.sub a f360) = true /\
  (- 180 <= F2R (F32.sub a f360) <= F2R a - 104)%R.
Proof.
  intros Ha Hgt Hle. pose proof (sub360_ok a Ha Hgt) as Hr.
  split; [exact (rnd_fv _ _ _ _ Hr)|]. split.
  - rewrite <- F2R_neg_f180. apply (rnd_ge _ _ _ _ _ Hr); [reflexivity|].
    rewrite F2R_neg_f180. lra.
  - pose proof (rnd_half_ulp _ _ _ _ 33 Hr) as H.
    rewrite bpow_33 in H. specialize (H ltac:(apply Rabs_def1; lra)).
    change (fexp F32.prec F32.emax 33 - 1) with 8 in H. rewrite bpow_8 in H.
    apply Rabs_le_inv in H. lra.
Qed.

Lemma add360_incr a :
  fv32 a = true -> (F2R a < - 180)%R -> (- 8589934592 <= F2R a)%R ->
  fv32 (F32.add a f360) = true /\
  (F2R a + 104 <= F2R (F32.add a f360) <= 180)%R.
Proof.
  intros Ha Hlt Hge. pose proof (add360_ok a Ha Hlt) as Hr.
  split; [exact (rnd_fv _ _ _ _ Hr)|]. split.
  - pose proof (rnd_half_ulp _ _ _ _ 33 Hr) as H.
    rewrite bpow_33 in H. specialize (H ltac:(apply Rabs_def1; lra)).
    change (fexp F32.prec F32.emax 33 - 1) with 8 in H. rewrite bpow_8 in H.
    apply Rabs_le_inv in H. lra.
  - rewrite <- F2R_f180. apply (rnd_le _ _ _ _ _ Hr); [reflexivity|].
    rewrite F2R_f180. lra.
Qed.

Lemma wrap_down_term : forall (n : nat) (a : float),
  fv32 a = true -> (F2R a <= 8589934592)%R -> (F2R a <= 180 + 104 * INR n)%R ->
  exists b,
    (forall fuel, (n <= fuel)%nat -> wrap_down fuel a = Some b) /\
    fv32 b = true /\ (F2R b <= 180)%R /\
    ((180 < F2R a)%R -> (- 180 <= F2R b)%R) /\
    ((F2R a <= 180)%R -> b = a).
Proof.
  induction n as [|n IH]; intros a Ha Hmax Hn.
  - simpl in Hn. exists a. repeat split; try assumption; try lra.
    intros fuel _. apply wrap_down_stop.
    apply flt_false; try assumption; try reflexivity. rewrite F2R_f180. lra.
  - destruct (Rle_lt_dec (F2R a) 180) as [Hle|Hgt].
    + exists a. repeat split; try assumption; try lra.
      intros fuel _. apply wrap_down_stop.
      apply flt_false; try assumption; try reflexivity. rewrite F2R_f180. lra.
    + destruct (sub360_decr a Ha Hgt Hmax) as (Ha' & Hlo & Hhi).
      rewrite S_INR in Hn.
      destruct (IH (F32.sub a f360) Ha') as (b & Hf & Hb & Hb1 & Hb2 & Hb3); try lra.
      exists b. repeat split; try assumption; try lra.
      * intros fuel Hfuel. destruct fuel as [|fuel]; [lia|].
        rewrite wrap_down_go.
        -- apply Hf. lia.
        -- apply flt_true; try assumption; try reflexivity. rewrite F2R_f180. exact Hgt.
      * intros _. destruct (Rle_lt_dec (F2R (F32.sub a f360)) 180) as [H1|H1].
        -- rewrite (Hb3 H1). exact Hlo.
        -- apply Hb2. exact H1.
Qed.

Lemma wrap_up_term : forall (n : nat) (a : float),
  fv32 a = true -> (- 8589934592 <= F2R a)%R -> (- 180 - 104 * INR n <= F2R a)%R ->
  exists b,
    (forall fuel, (n <= fuel)%nat -> wrap_up fuel a = Some b) /\
    fv32 b = true /\ (- 180 <= F2R b)%R /\
    ((F2R a < - 180)%R -> (F2R b <= 180)%R) /\
    ((- 180 <= F2R a)%R -> b = a).
Proof.
  induction n as [|n IH]; intros a Ha Hmax Hn.
  - simpl in Hn. exists a. repeat split; try assumption; try lra.
    intros fuel _. apply wrap_up_stop.
    apply flt_false; try assumption; try reflexivity. rewrite F2R_neg_f180. lra.
  - destruct (Rle_lt_dec (- 180) (F2R a)) as [Hle|Hgt].
    + exists a. repeat split; try assumption; try lra.
      intros fuel _. apply wrap_up_stop.
      apply flt_false; try assumption; try reflexivity. rewrite F2R_neg_f180. lra.
    + destruct (add360_incr a Ha Hgt Hmax) as (Ha' & Hlo & Hhi).
      rewrite S_INR in Hn.
      destruct (IH (F32.add a f360) Ha') as (b & Hf & Hb & Hb1 & Hb2 & Hb3); try lra.
      exists b. repeat split; try assumption; try lra.
      * intros fuel Hfuel. destruct fuel as [|fuel]; [lia|].
        rewrite wrap_up_go.
        -- apply Hf. lia.
        -- apply flt_true; try assumption; try reflexivity. rewrite F2R_neg_f180. exact Hgt.
      * intros _. destruct (Rle_lt_dec (- 180) (F2R (F32.add a f360))) as [H1|H1].
        -- rewrite (Hb3 H1). exact Hhi.
        -- apply Hb2. exact H1.
Qed.

(** C10 (amended).  When the float difference [raw - offset] is at
    most [2^33] in magnitude, both wrap loops terminate, after at most
    82595525 iterations, and leave an angle in [-180, 180]. *)
Theorem normalize_angle_terminates (raw offset : float) :
  fv32 raw = true -> fv32 offset = true ->
  fle (fabsf (F32.sub raw offset)) f2p33 = true ->
  exists r : float,
    (forall fuel, (Z.to_nat 82595525 <= fuel)%nat ->
                  normalize_angle fuel raw offset = Some r) /\
    fv32 r = true /\ (- 180 <= F2R r <= 180)%R.
Proof.
  intros Hraw Hoff Hle. unfold normalize_angle.
  assert (Hd : fv32 (F32.sub raw offset) = true).
  { apply (fv32_sub_bounded raw offset f2p33); auto. }
  set (d := F32.sub raw offset) in *.
  assert (Habs : (Rabs (F2R d) <= 8589934592)%R).
  { apply fle_true in Hle; [|rewrite fv32_abs; exact Hd|reflexivity].
    unfold fabsf in Hle. rewrite F2R_abs, F2R_f2p33 in Hle. exact Hle. }
  assert (Hn : INR (Z.to_nat 82595525) = 82595525%R) by (apply INR_to_nat; lia).
  revert Hn. generalize (Z.to_nat 82595525). intros N Hn.
  apply Rabs_le_inv in Habs. destruct Habs as [Hlo Hhi].
  destruct (Rle_lt_dec (F2R d) 180) as [H180|H180].
  - destruct (wrap_up_term N d Hd) as (b & Hf & Hb & Hb1 & Hb2 & Hb3); try lra.
    exists b. repeat split; try assumption.
    + intros fuel Hfuel. unfold wrap. rewrite wrap_down_stop.
      * apply Hf. exact Hfuel.
      * apply flt_false; try assumption; try reflexivity. rewrite F2R_f180. exact H180.
    + destruct (Rle_lt_dec (- 180) (F2R d)) as [H1|H1].
      * rewrite (Hb3 H1). exact H180.
      * apply Hb2. exact H1.
  - destruct (wrap_down_term N d Hd) as (b & Hf & Hb & Hb1 & Hb2 & Hb3); try lra.
    specialize (Hb2 H180).
    exists b. repeat split; try assumption.
    intros fuel Hfuel. unfold wrap. rewrite (Hf fuel Hfuel).
    apply wrap_up_stop. apply flt_false; try assumption; try reflexivity.
    rewrite F2R_neg_f180. exact Hb2.
Qed.

Lemma wrap_down_stuck fuel : wrap_down fuel f2p33_succ = None.
Proof.
  induction fuel as [|n IH]; [reflexivity|].
  rewrite wrap_down_go by reflexivity.
  replace (F32.sub f2p33_succ f360) with f2p33_succ by (vm_compute; reflexivity).
  exact IH.
Qed.

(** * The math-library contract can be met *)

Lemma half_pi_eq : half_pi = S754_finite false 13176795 (-23).
Proof. vm_compute. reflexivity. Qed.

Lemma F2R_f1 : F2R f1 = 1%R.
Proof. F2R_lit. Qed.

Lemma F2R_half_pi_ge_1 : (1 <= F2R half_pi)%R.
Proof. rewrite half_pi_eq. F2R_lit. Qed.

Lemma coarse_libm_spec : LibmSpec coarse_libm.
Proof.
  constructor; cbn [atan2f asinf coarse_libm]; unfold coarse_atan2f, coarse_asinf.
  - intros y x H. rewrite H. reflexivity.
  - intros y x Hy Hx.
    destruct y as [sy|sy| |sy my ey]; try discriminate;
      destruct x as [sx|sx| |sx mx ex]; try discriminate;
      try (destruct sy, sx; split; reflexivity);
      destruct sy; split; reflexivity.
  - intros s x H.
    destruct x as [sx|sx| |sx mx ex]; try discriminate; destruct sx; try discriminate;
      destruct s; reflexivity.
  - intros s x H.
    destruct x as [sx|sx| |sx mx ex]; try discriminate; destruct sx; try discriminate;
      destruct s; reflexivity.
  - reflexivity.
  - intros []; reflexivity.
  - intros s Hs H. rewrite H. split; [apply fv32_valid; exact Hs|].
    assert (Ha : fv32 (fabsf s) = true) by (rewrite fv32_abs; exact Hs).
    apply fle_true in H; [|exact Ha|reflexivity].
    apply fle_true; [exact Ha|rewrite half_pi_eq; reflexivity|].
    rewrite F2R_f1 in H. pose proof F2R_half_pi_ge_1. lra.
Qed.

(** * [resetView] *)

Section Reset.
Context {L : Libm}.

Lemma resetView_for_sums (n : nat) : forall st s,
  snd (resetView_for n (st, s)) = fold_left add_sample (fetched n (bno st)) s.
Proof.
  induction n as [|k IH]; intros st s; [reflexivity|].
  cbn [resetView_for]. unfold resetView_body, getSensorEvent, is_rotation_vector.
  destruct (bno st) as [|[v|] rest] eqn:Hb.
  - cbn [andb]. rewrite IH, Hb. destruct k; reflexivity.
  - cbn [andb sensorValue fetched]. destruct (sensorId v =? SH2_ROTATION_VECTOR).
    + rewrite IH. reflexivity.
    + rewrite IH. reflexivity.
  - cbn [andb fetched]. rewrite IH. reflexivity.
Qed.

Lemma resetView_for_sent (n : nat) : forall st s,
  sent (fst (resetView_for n (st, s))) = sent st.
Proof.
  induction n as [|k IH]; intros st s; [reflexivity|].
  cbn [resetView_for]. unfold resetView_body, getSensorEvent, is_rotation_vector.
  destruct (bno st) as [|[v|] rest] eqn:Hb.
  - cbn [andb]. apply IH.
  - cbn [andb sensorValue]. destruct (sensorId v =? SH2_ROTATION_VECTOR); rewrite IH; reflexivity.
  - cbn [andb]. rewrite IH. reflexivity.
Qed.

(** The offset [resetView] installs: the sums of the samples that were
    fetched, each divided by the constant [samples]. *)
Lemma resetView_offset (st : State) :
  let s := fold_left add_sample (fetched 10 (bno st)) (mkSums f0 f0 f0) in
  offset (resetView st) =
    mkOffset (F32.div (yaw_sum s) f10) (F32.div (pitch_sum s) f10)
             (F32.div (roll_sum s) f10).
Proof.
  cbv zeta. rewrite <- (resetView_for_sums 10 st). unfold resetView.
  change (Z.to_nat samples) with 10%nat.
  destruct (resetView_for 10 (st, mkSums f0 f0 f0)) as [st1 s]. reflexivity.
Qed.

Lemma resetView_sent (st : State) : sent (resetView st) = sent st.
Proof.
  rewrite <- (resetView_for_sent 10 st (mkSums f0 f0 f0)). unfold resetView.
  change (Z.to_nat samples) with 10%nat.
  destruct (resetView_for 10 (st, mkSums f0 f0 f0)) as [st1 s]. reflexivity.
Qed.

Lemma fetched_no_event (n : nat) : forall events,
  forallb (fun ev : option sh2_SensorValue_t =>
             match ev with None => true | Some _ => false end)
          (firstn n events) = true ->
  fetched n events = [].
Proof.
  induction n as [|k IH]; intros [|[v|] rest] H; try reflexivity; try discriminate.
  cbn [fetched]. apply IH. exact H.
Qed.

End Reset.

(** * Recentering *)

Lemma half_turn_yaw (L : Libm) :
  LibmSpec L -> yaw_rad (normalize q_half_turn) = pi_f.
Proof.
  intros HL. change (normalize q_half_turn) with q_half_turn.
  unfold yaw_rad.
  change (siny_cosp q_half_turn) with (S754_zero false).
  apply (atan2f_zero_neg L HL false). reflexivity.
Qed.

Lemma half_turn_pitch (L : Libm) :
  LibmSpec L -> pitch_rad (normalize q_half_turn) = f0.
Proof.
  intros HL. change (normalize q_half_turn) with q_half_turn.
  unfold pitch_rad.
  change (sinp q_half_turn) with (S754_zero false).
  change (fle f1 (fabsf (S754_zero false))) with false.
  apply (asinf_zero L HL false).
Qed.

Lemma half_turn_roll (L : Libm) :
  LibmSpec L -> roll_rad (normalize q_half_turn) = f0.
Proof.
  intros HL. change (normalize q_half_turn) with q_half_turn.
  unfold roll_rad.
  change (sinr_cosp q_half_turn) with (S754_zero false).
  apply (atan2f_zero_pos L HL false). reflexivity.
Qed.

(** C2.  [resetView] divides the sums by the constant 10, whatever the
    number of samples it fetched: when one poll out of ten delivers a
    sample, a half turn whose yaw is 180 degrees, the yaw offset it
    installs is 18 degrees, not the average 180 of the samples
    retrieved. *)
Theorem resetView_fixed_divisor (L : Libm) :
  LibmSpec L ->
  (forall st : State,
     let s := fold_left add_sample (fetched 10 (bno st)) (mkSums f0 f0 f0) in
     offset (resetView st) =
       mkOffset (F32.div (yaw_sum s) f10) (F32.div (pitch_sum s) f10)
                (F32.div (roll_sum s) f10)) /\
  fetched 10 one_sample_events = [q_half_turn] /\
  yaw (quat_to_euler q_half_turn) = f180 /\
  (forall o : CalibrationOffset,
     offset (resetView (state_with o one_sample_events)) = mkOffset f18 f0 f0).
Proof.
  intros HL. split; [|split; [|split]].
  - intros st. apply resetView_offset.
  - reflexivity.
  - unfold quat_to_euler. cbn [yaw]. rewrite (half_turn_yaw L HL).
    vm_compute. reflexivity.
  - intros o. rewrite resetView_offset. cbv zeta.
    change (fetched 10 (bno (state_with o one_sample_events))) with [q_half_turn].
    cbn [fold_left]. unfold add_sample. cbv zeta. cbn [yaw_sum pitch_sum roll_sum].
    rewrite (half_turn_yaw L HL), (half_turn_pitch L HL), (half_turn_roll L HL).
    vm_compute. reflexivity.
Qed.

Lemma resetView_fixed_divisor_witness :
  yaw (@quat_to_euler coarse_libm q_half_turn) = f180 /\
  offset (@resetView coarse_libm (state_with (mkOffset f0 f0 f0) one_sample_events))
    = mkOffset f18 f0 f0.
Proof.
  pose proof (resetView_fixed_divisor coarse_libm coarse_libm_spec) as (_ & _ & Hy & Ho).
  split; [exact Hy | exact (Ho (mkOffset f0 f0 f0))].
Defined.

(** C9.  When none of the 10 polls of [resetView] delivers a sample,
    [resetView] still completes and installs the offset (0, 0, 0),
    whatever offset was installed before; it sends no report. *)
Theorem resetView_no_sample (L : Libm) (st : State) :
  no_event 10 st = true ->
  offset (resetView st) = mkOffset f0 f0 f0 /\ sent (resetView st) = sent st.
Proof.
  intros H. split; [|apply resetView_sent].
  rewrite resetView_offset. cbv zeta.
  rewrite (fetched_no_event 10 (bno st) H). vm_compute. reflexivity.
Qed.

Lemma resetView_no_sample_witness :
  no_event 10 (state_with (mkOffset f30 f40 f50) (repeat None 10)) = true /\
  offset (@resetView coarse_libm (state_with (mkOffset f30 f40 f50) (repeat None 10)))
    = mkOffset f0 f0 f0.
Proof.
  split; [reflexivity|].
  apply (resetView_no_sample coarse_libm
           (state_with (mkOffset f30 f40 f50) (repeat None 10))).
  reflexivity.
Defined.

(** * Euler decomposition *)

Lemma to_degrees_half_pi : to_degrees half_pi = f90.
Proof. vm_compute. reflexivity. Qed.

Lemma to_degrees_neg_half_pi : to_degrees (fneg half_pi) = fneg f90.
Proof. vm_compute. reflexivity. Qed.

Lemma copysignf_half_pi (s : float) :
  copysignf half_pi s = if signbit s then fneg half_pi else half_pi.
Proof. unfold copysignf. rewrite half_pi_eq. reflexivity. Qed.

(** C5.  With [(w, x, y, z)] the normalised quaternion and
    [s = 2 (w y - z x)], the pitch in degrees is +90 or -90, with the
    sign bit of [s], when [|s| >= 1], and the degrees of [asinf s]
    otherwise; the decomposition is a total function, it has no error
    outcome. *)
Theorem pitch_clamped_with_sign_of_s (L : Libm) (raw : Quaternion) :
  let q := normalize raw in
  let s := spec_s (qw q) (qx q) (qy q) (qz q) in
  sinp q = s /\
  pitch (quat_to_euler raw) = spec_pitch (qw q) (qx q) (qy q) (qz q) /\
  (fle f1 (fabsf s) = true ->
   pitch (quat_to_euler raw) = if signbit s then fneg f90 else f90) /\
  (fle f1 (fabsf s) = false ->
   pitch (quat_to_euler raw) = to_degrees (asinf s)).
Proof.
  cbv zeta. unfold quat_to_euler, spec_pitch. cbn [pitch]. unfold pitch_rad.
  change (spec_s (qw (normalize raw)) (qx (normalize raw))
                 (qy (normalize raw)) (qz (normalize raw)))
    with (sinp (normalize raw)).
  set (s := sinp (normalize raw)).
  split; [reflexivity|].
  destruct (fle f1 (fabsf s)) eqn:E.
  - rewrite copysignf_half_pi.
    assert (H : to_degrees (if signbit s then fneg half_pi else half_pi) =
                if signbit s then fneg f90 else f90).
    { destruct (signbit s); [apply to_degrees_neg_half_pi | apply to_degrees_half_pi]. }
    rewrite H. repeat split; try reflexivity. discriminate.
  - repeat split; try reflexivity. discriminate.
Qed.

(** * The wrap loops on sample angles *)

Lemma normalize_angle_closed_range_witness :
  fv32 f540 = true /\ fv32 f0 = true /\
  flt (fabsf (F32.sub f540 f0)) f2p27 = true /\
  exists (r : float) (k : Z),
    (forall fuel, (Z.to_nat 372828 <= fuel)%nat ->
                  normalize_angle fuel f540 f0 = Some r) /\
    fv32 r = true /\
    (- 180 <= F2R r <= 180)%R /\
    F2R r = (F2R (F32.sub f540 f0) - 360 * IZR k)%R /\
    ((- 180 <= F2R (F32.sub f540 f0) <= 180)%R -> r = F32.sub f540 f0).
Proof.
  split; [reflexivity|]. split; [reflexivity|]. split; [reflexivity|].
  apply (normalize_angle_closed_range f540 f0); reflexivity.
Defined.

(** The difference -180 is returned as it is: the result of the Angle
    Normalizer can be -180, which the interval (-180, 180] excludes. *)
Lemma normalize_angle_returns_minus_180 :
  normalize_angle 0 (fneg f180) f0 = Some (fneg f180) /\
  normalize_angle 1 (fneg f540) f0 = Some (fneg f180) /\
  F2R (fneg f180) = (- 180)%R /\
  ~ (- 180 < F2R (fneg f180))%R.
Proof.
  split; [reflexivity|]. split; [reflexivity|].
  split; [apply F2R_neg_f180|]. rewrite F2R_neg_f180. lra.
Qed.

Lemma wrap_idempotent_offset_zero_witness :
  F32.valid f50 = true /\ F32.valid f10 = true /\
  normalize_angle 0 f50 f10 = Some f40 /\
  wrap 0 f40 = Some f40 /\ normalize_angle 0 f40 f0 = Some f40.
Proof.
  split; [reflexivity|]. split; [reflexivity|]. split; [reflexivity|].
  apply (wrap_idempotent_offset_zero 0 f50 f10 f40); reflexivity.
Defined.

(** With the same offset 10, the angle 50 is normalised to 40 and 40
    is normalised to 30: the offset is subtracted again. *)
Lemma normalize_angle_same_offset_not_idempotent :
  normalize_angle 0 f50 f10 = Some f40 /\
  normalize_angle 0 f40 f10 = Some f30 /\
  f30 <> f40.
Proof.
  split; [reflexivity|]. split; [reflexivity|]. discriminate.
Qed.

Lemma normalize_angle_terminates_witness :
  fv32 f2p33 = true /\ fv32 f0 = true /\
  fle (fabsf (F32.sub f2p33 f0)) f2p33 = true /\
  exists r : float,
    (forall fuel, (Z.to_nat 82595525 <= fuel)%nat ->
                  normalize_angle fuel f2p33 f0 = Some r) /\
    fv32 r = true /\ (- 180 <= F2R r <= 180)%R.
Proof.
  split; [reflexivity|]. split; [reflexivity|]. split; [reflexivity|].
  apply (normalize_angle_terminates f2p33 f0); reflexivity.
Defined.

(** From the finite angle [2^33 + 1024] the subtraction of 360 rounds
    back to the same float: the first loop never ends, whatever the
    fuel. *)
Lemma normalize_angle_diverges :
  fv32 f2p33_succ = true /\ fv32 f0 = true /\
  F32.sub f2p33_succ f360 = f2p33_succ /\
  ~ (exists (fuel : nat) (r : float),
       normalize_angle fuel f2p33_succ f0 = Some r).
Proof.
  split; [reflexivity|]. split; [reflexivity|]. split; [reflexivity|].
  intros (fuel & r & H). unfold normalize_angle, wrap in H.
  rewrite sub_zero_r, wrap_down_stuck in H. discriminate.
Qed.

(** * The range mapping *)

Lemma F2R_f127 : F2R f127 = 127%R.
Proof. F2R_lit. Qed.

Lemma F2R_neg_f127 : F2R (fneg f127) = (- 127)%R.
Proof. F2R_lit. Qed.

Lemma F2R_f254 : F2R f254 = 254%R.
Proof. unfold f254. F2R_lit. Qed.

Lemma F2R_f91440 : F2R f91440 = 91440%R.
Proof. unfold f91440. F2R_lit. Qed.

Lemma to_axis_unfold (a : float) :
  to_axis a =
    F32.add (F32.div (F32.mul (F32.sub a (fneg f180)) f254) f360) (fneg f127).
Proof. reflexivity. Qed.

Lemma bpow_lit_m16 : bpow (-16) = (/ 65536)%R.
Proof. rewrite bpow_neg_lit. pow_lit. reflexivity. Qed.

Lemma bpow_lit_m8 : bpow (-8) = (/ 256)%R.
Proof. rewrite bpow_neg_lit. pow_lit. reflexivity. Qed.

Lemma bpow_lit_m17 : bpow (-17) = (/ 131072)%R.
Proof. rewrite bpow_neg_lit. pow_lit. reflexivity. Qed.

Lemma bpow_lit_m18 : bpow (-18) = (/ 262144)%R.
Proof. rewrite bpow_neg_lit. pow_lit. reflexivity. Qed.

Lemma bpow_lit_m14 : bpow (-14) = (/ 16384)%R.
Proof. rewrite bpow_neg_lit. pow_lit. reflexivity. Qed.

Lemma bpow_lit_9 : bpow 9 = 512%R.
Proof. rewrite bpow_pos_lit. pow_lit. reflexivity. Qed.

Lemma bpow_lit_17 : bpow 17 = 131072%R.
Proof. rewrite bpow_pos_lit. pow_lit. reflexivity. Qed.

Lemma bpow_lit_7 : bpow 7 = 128%R.
Proof. rewrite bpow_pos_lit. pow_lit. reflexivity. Qed.

(** A rounding restricted to an interval whose ends are floats: the
    result stays in the interval and is within half an ulp. *)
Lemma rnd32_interval (v : R) (r lo hi : float) (E : Z) :
  rnd32 v r -> fv32 lo = true -> fv32 hi = true ->
  (F2R lo <= v <= F2R hi)%R -> (Rabs v < bpow E)%R ->
  fv32 r = true /\ (F2R lo <= F2R r <= F2R hi)%R /\
  (Rabs (F2R r - v) <= bpow (fexp F32.prec F32.emax E - 1))%R.
Proof.
  intros Hr Hlo Hhi [H1 H2] HE. split; [exact (rnd_fv _ _ _ _ Hr)|]. split; [split|].
  - exact (rnd_ge _ _ _ _ _ Hr Hlo H1).
  - exact (rnd_le _ _ _ _ _ Hr Hhi H2).
  - exact (rnd_half_ulp _ _ _ _ E Hr HE).
Qed.

(** C7.  On [-180, 180] the call [mapFloat(a, -180, 180, -127, 127)]
    is the linear interpolation
    [(a - in_min) (out_max - out_min) / (in_max - in_min) + out_min]
    evaluated in [float]: its result lies in [-127, 127] and differs
    from the exact interpolation by at most [2^-14]; it maps -180 to
    -127, 0 to the midpoint 0 and 180 to 127, and an angle that tends
    to 180 from below to a value that tends to 127. *)
Theorem to_axis_linear_interpolation (a : float) :
  fv32 a = true -> (- 180 <= F2R a <= 180)%R ->
  to_axis a =
    F32.add (F32.div (F32.mul (F32.sub a (fneg f180)) (F32.sub f127 (fneg f127)))
                     (F32.sub f180 (fneg f180)))
            (fneg f127) /\
  fv32 (to_axis a) = true /\
  (- 127 <= F2R (to_axis a) <= 127)%R /\
  (Rabs (F2R (to_axis a) - linear_map (F2R a) (- 180) 180 (- 127) 127) <= bpow (- 14))%R /\
  (127 - F2R (to_axis a) <= (180 - F2R a) * (254 / 360) + bpow (- 14))%R /\
  to_axis (fneg f180) = fneg f127 /\ to_axis f0 = f0 /\ to_axis f180 = f127.
Proof.
  intros Ha [Hlo Hhi].
  split; [reflexivity|].
  assert (Hmain : fv32 (to_axis a) = true /\
                  (- 127 <= F2R (to_axis a) <= 127)%R /\
                  (Rabs (F2R (to_axis a) - linear_map (F2R a) (- 180) 180 (- 127) 127)
                   <= bpow (- 14))%R).
  { rewrite to_axis_unfold. unfold linear_map.
    (* a - (-180) *)
    assert (H1 : rnd32 (F2R a - F2R (fneg f180)) (F32.sub a (fneg f180))).
    { apply F32_sub_ok with (bnd := f360); try assumption; try reflexivity.
      rewrite F2R_neg_f180, F2R_f360. apply Rabs_le. lra. }
    apply rnd32_interval with (lo := f0) (hi := f360) (E := 9) in H1;
      try reflexivity;
      [|rewrite F2R_f0, F2R_f360, F2R_neg_f180; lra
       |rewrite F2R_neg_f180, bpow_lit_9; apply Rabs_def1; lra].
    change (fexp F32.prec F32.emax 9 - 1) with (-16) in H1.
    rewrite F2R_f0, F2R_f360, F2R_neg_f180, bpow_lit_m16 in H1.
    destruct H1 as (V1 & B1 & E1). apply Rabs_le_inv in E1.
    set (t1 := F32.sub a (fneg f180)) in *.
    (* ... * 254 *)
    assert (H2 : rnd32 (F2R t1 * F2R f254) (F32.mul t1 f254)).
    { apply F32_mul_ok with (bnd := f91440); try assumption; try reflexivity.
      rewrite F2R_f254, F2R_f91440. apply Rabs_le. lra. }
    apply rnd32_interval with (lo := f0) (hi := f91440) (E := 17) in H2;
      try reflexivity;
      [|rewrite F2R_f0, F2R_f91440, F2R_f254; lra
       |rewrite F2R_f254, bpow_lit_17; apply Rabs_def1; lra].
    change (fexp F32.prec F32.emax 17 - 1) with (-8) in H2.
    rewrite F2R_f0, F2R_f91440, F2R_f254, bpow_lit_m8 in H2.
    destruct H2 as (V2 & B2 & E2). apply Rabs_le_inv in E2.
    set (t2 := F32.mul t1 f254) in *.
    (* ... / 360 *)
    assert (H3 : rnd32 (F2R t2 / F2R f360) (F32.div t2 f360)).
    { apply F32_div_ok with (bnd := f254); try assumption; try reflexivity.
      - rewrite F2R_f360. lra.
      - rewrite F2R_f360, F2R_f254. apply Rabs_le. lra. }
    apply rnd32_interval with (lo := f0) (hi := f254) (E := 8) in H3;
      try reflexivity;
      [|rewrite F2R_f0, F2R_f360, F2R_f254; lra
       |rewrite F2R_f360, bpow_8; apply Rabs_def1; lra].
    change (fexp F32.prec F32.emax 8 - 1) with (-17) in H3.
    rewrite F2R_f0, F2R_f360, F2R_f254, bpow_lit_m17 in H3.
    destruct H3 as (V3 & B3 & E3). apply Rabs_le_inv in E3.
    set (t3 := F32.div t2 f360) in *.
    (* ... + (-127) *)
    assert (H4 : rnd32 (F2R t3 + F2R (fneg f127)) (F32.add t3 (fneg f127))).
    { apply F32_add_ok with (bnd := f127); try assumption; try reflexivity.
      rewrite F2R_neg_f127, F2R_f127. apply Rabs_le. lra. }
    apply rnd32_interval with (lo := fneg f127) (hi := f127) (E := 7) in H4;
      try reflexivity;
      [|rewrite F2R_neg_f127, F2R_f127; lra
       |rewrite F2R_neg_f127, bpow_lit_7; apply Rabs_def1; lra].
    change (fexp F32.prec F32.emax 7 - 1) with (-18) in H4.
    rewrite F2R_neg_f127, F2R_f127, bpow_lit_m18 in H4.
    destruct H4 as (V4 & B4 & E4). apply Rabs_le_inv in E4.
    split; [exact V4|]. split; [exact B4|].
    rewrite bpow_lit_m14. apply Rabs_le. lra. }
  destruct Hmain as (Hv & Hb & He).
  split; [exact Hv|]. split; [exact Hb|]. split; [exact He|].
  split.
  - apply Rabs_le_inv in He. unfold linear_map in He. lra.
  - repeat split; vm_compute; reflexivity.
Qed.

Lemma to_axis_linear_interpolation_witness :
  fv32 f90 = true /\ (- 180 <= F2R f90 <= 180)%R /\
  fv32 (to_axis f90) = true /\
  (- 127 <= F2R (to_axis f90) <= 127)%R /\
  (Rabs (F2R (to_axis f90) - linear_map (F2R f90) (- 180) 180 (- 127) 127) <= bpow (- 14))%R.
Proof.
  assert (H : (- 180 <= F2R f90 <= 180)%R) by (unfold f90; F2R_unfold; pow_lit; lra).
  split; [reflexivity|]. split; [exact H|].
  pose proof (to_axis_linear_interpolation f90 eq_refl H) as (_ & Hv & Hb & He & _).
  split; [exact Hv|]. split; [exact Hb | exact He].
Defined.

(** * Error budget of the normalisation, on real numbers

    [u = 2^-24] is the unit roundoff of [float]. *)

Section Budget.
Local Open Scope R_scope.

Lemma sqrt_near_1 (t d : R) :
  0 <= d <= 1 -> Rabs (t - 1) <= d -> Rabs (sqrt t - 1) <= d.
Proof.
  intros [Hd0 Hd1] H. apply Rabs_le_inv in H.
  assert (Ht : 0 <= t) by lra.
  pose proof (sqrt_pos t) as Hr. pose proof (sqrt_sqrt t Ht) as Hrr.
  set (r := sqrt t) in *. apply Rabs_le. split.
  - destruct (Rle_lt_dec (1 - d) r) as [|Hc]; [lra|]. exfalso. nra.
  - destruct (Rle_lt_dec r (1 + d)) as [|Hc]; [lra|]. exfalso. nra.
Qed.

Lemma sqrt_le_succ (t : R) : 0 <= t -> sqrt t <= t + 1.
Proof.
  intros Ht. pose proof (sqrt_pos t) as Hr. pose proof (sqrt_sqrt t Ht) as Hrr.
  set (r := sqrt t) in *. nra.
Qed.

(** The three additions of the sum of squares. *)
Lemma sum_budget (S aw ax ay az s1 s2 s3 eta : R) :
  0 < S -> 0 <= eta -> 4 * eta <= / 16777216 * S ->
  0 <= aw -> 0 <= ax -> 0 <= ay -> 0 <= az ->
  Rabs (aw + ax + ay + az - S) <= / 16777216 * S + 4 * eta ->
  0 <= s1 -> 0 <= s2 ->
  Rabs (s1 - (aw + ax)) <= / 16777216 * Rabs (aw + ax) ->
  Rabs (s2 - (s1 + ay)) <= / 16777216 * Rabs (s1 + ay) ->
  Rabs (s3 - (s2 + az)) <= / 16777216 * Rabs (s2 + az) ->
  S * (1 - 6 / 16777216) <= s3 <= S * (1 + 6 / 16777216).
Proof.
  intros HS He0 He Hw Hx Hy Hz HA H1p H2p H1 H2 H3.
  rewrite (Rabs_pos_eq (aw + ax)) in H1 by lra.
  rewrite (Rabs_pos_eq (s1 + ay)) in H2 by lra.
  rewrite (Rabs_pos_eq (s2 + az)) in H3 by lra.
  apply Rabs_le_inv in HA, H1, H2, H3. split; lra.
Qed.

(** The square root. *)
Lemma sqrt_budget (S s3 N : R) :
  0 < S ->
  S * (1 - 6 / 16777216) <= s3 <= S * (1 + 6 / 16777216) ->
  Rabs (N - sqrt s3) <= / 16777216 * Rabs (sqrt s3) ->
  0 < N /\ S * (1 - 9 / 16777216) <= N * N <= S * (1 + 9 / 16777216).
Proof.
  intros HS [Hlo Hhi] HN.
  assert (H3 : 0 < s3) by nra.
  pose proof (sqrt_lt_R0 s3 H3) as Hr.
  pose proof (sqrt_sqrt s3 (Rlt_le _ _ H3)) as Hrr.
  set (r := sqrt s3) in *. rewrite (Rabs_pos_eq r) in HN by lra.
  apply Rabs_le_inv in HN.
  assert (Hn : 0 < N) by lra.
  split; [exact Hn|].
  assert (U : N * N <= (r * (1 + / 16777216)) * (r * (1 + / 16777216))).
  { apply Rmult_le_compat; lra. }
  assert (Lw : (r * (1 - / 16777216)) * (r * (1 - / 16777216)) <= N * N).
  { apply Rmult_le_compat; lra. }
  replace (r * (1 + / 16777216) * (r * (1 + / 16777216)))
    with (s3 * ((1 + / 16777216) * (1 + / 16777216))) in U by (rewrite <- Hrr; ring).
  replace (r * (1 - / 16777216) * (r * (1 - / 16777216)))
    with (s3 * ((1 - / 16777216) * (1 - / 16777216))) in Lw by (rewrite <- Hrr; ring).
  split; nra.
Qed.

(** The squares of the exact quotients sum to almost 1. *)
Lemma quotient_budget (S N W X Y Z : R) :
  0 < S -> 0 < N -> S = W * W + X * X + Y * Y + Z * Z ->
  S * (1 - 9 / 16777216) <= N * N <= S * (1 + 9 / 16777216) ->
  let T := (W / N) * (W / N) + (X / N) * (X / N) + (Y / N) * (Y / N) + (Z / N) * (Z / N) in
  1 - 10 / 16777216 <= T <= 1 + 10 / 16777216.
Proof.
  intros HS HN HSq [Hlo Hhi] T.
  assert (HT : T * (N * N) = S).
  { unfold T. rewrite HSq. field. lra. }
  assert (HM : 0 < N * N) by nra.
  set (M := N * N) in *. rewrite <- HT in Hlo, Hhi.
  assert (A1 : T * (1 - 9 / 16777216) <= 1).
  { apply Rmult_le_reg_r with M; [exact HM|]. lra. }
  assert (A2 : 1 <= T * (1 + 9 / 16777216)).
  { apply Rmult_le_reg_r with M; [exact HM|]. lra. }
  split; lra.
Qed.

(** One rounded quotient. *)
Lemma component_budget (x c eta : R) :
  Rabs x <= 2 -> 0 <= eta <= / 16777216 ->
  Rabs (c - x) <= / 16777216 * Rabs x + eta ->
  Rabs (c * c - x * x) <= 13 / 16777216 /\ Rabs c <= 3.
Proof.
  intros Hx [He0 He] Hc.
  assert (E : Rabs (c - x) <= 3 / 16777216) by lra.
  apply Rabs_le_inv in Hx, E.
  split; apply Rabs_le; split; nra.
Qed.

Lemma sq_le_bound (x T : R) : x * x <= T -> T <= 4 -> Rabs x <= 2.
Proof. intros H1 H2. apply Rabs_le. split; nra. Qed.

End Budget.

(** * Accuracy of the normalisation *)

Lemma bpow_lit_m24 : bpow (-24) = (/ 16777216)%R.
Proof. rewrite bpow_neg_lit. pow_lit. reflexivity. Qed.

Lemma bpow_lit_80 : bpow 80 = 1208925819614629174706176%R.
Proof. rewrite bpow_pos_lit. pow_lit. reflexivity. Qed.

Lemma bpow_lit_m80 : bpow (-80) = (/ 1208925819614629174706176)%R.
Proof. rewrite bpow_neg_lit. pow_lit. reflexivity. Qed.

Lemma bpow_lit_m126 : bpow (-126) = (/ 85070591730234615865843651857942052864)%R.
Proof. rewrite bpow_neg_lit. pow_lit. reflexivity. Qed.

Lemma bpow_lit_m150 :
  bpow (-150) = (/ 1427247692705959881058285969449495136382746624)%R.
Proof. rewrite bpow_neg_lit. pow_lit. reflexivity. Qed.

Lemma F2R_f2p100 : F2R f2p100 = 1267650600228229401496703205376%R.
Proof. unfold f2p100. F2R_lit. Qed.

Lemma rnd32_abs_rel (v : R) (r : float) :
  rnd32 v r -> (Rabs (F2R r - v) <= / 16777216 * Rabs v + bpow (-150))%R.
Proof.
  intros (_ & _ & _ & [H|H] & _).
  - change (bpow (- F32.prec)) with (bpow (-24)) in H. rewrite bpow_lit_m24 in H.
    pose proof (bpow_gt_0 (-150)). lra.
  - change (bpow (emin F32.prec F32.emax - 1)) with (bpow (-150)) in H.
    pose proof (Rabs_pos v). lra.
Qed.

Lemma rnd32_rel (v : R) (r : float) :
  rnd32 v r -> (bpow (-126) <= Rabs v)%R ->
  (Rabs (F2R r - v) <= / 16777216 * Rabs v)%R.
Proof.
  intros (_ & _ & _ & _ & H & _) Hv.
  rewrite <- bpow_lit_m24. apply H. exact Hv.
Qed.

Lemma square_ok (x : float) :
  fv32 x = true -> (F2R x * F2R x <= bpow 80)%R ->
  fv32 (F32.mul x x) = true /\ (0 <= F2R (F32.mul x x))%R /\
  (Rabs (F2R (F32.mul x x) - F2R x * F2R x)
   <= / 16777216 * (F2R x * F2R x) + bpow (-150))%R.
Proof.
  intros Hx Hle. rewrite bpow_lit_80 in Hle.
  assert (H0 : (0 <= F2R x * F2R x)%R) by nra.
  assert (H : rnd32 (F2R x * F2R x) (F32.mul x x)).
  { apply F32_mul_ok with (bnd := f2p100); try assumption; try reflexivity.
    rewrite F2R_f2p100, Rabs_pos_eq by exact H0. lra. }
  split; [exact (rnd_fv _ _ _ _ H)|]. split.
  - rewrite <- F2R_f0. apply (rnd_ge _ _ _ _ _ H); [reflexivity|]. rewrite F2R_f0. exact H0.
  - pose proof (rnd32_abs_rel _ _ H) as E. rewrite (Rabs_pos_eq _ H0) in E. exact E.
Qed.

Lemma add_ok (a b : float) :
  fv32 a = true -> fv32 b = true -> (0 <= F2R a)%R -> (0 <= F2R b)%R ->
  (F2R a + F2R b <= F2R f2p100)%R ->
  fv32 (F32.add a b) = true /\ (0 <= F2R (F32.add a b))%R /\
  (Rabs (F2R (F32.add a b) - (F2R a + F2R b))
   <= / 16777216 * Rabs (F2R a + F2R b))%R.
Proof.
  intros Ha Hb Ha0 Hb0 Hle.
  assert (Habs : (Rabs (F2R a + F2R b) <= F2R f2p100)%R) by (rewrite Rabs_pos_eq; lra).
  assert (H : rnd32 (F2R a + F2R b) (F32.add a b)).
  { apply F32_add_ok with (bnd := f2p100); try assumption; reflexivity. }
  split; [exact (rnd_fv _ _ _ _ H)|]. split.
  - rewrite <- F2R_f0. apply (rnd_ge _ _ _ _ _ H); [reflexivity|]. rewrite F2R_f0. lra.
  - rewrite <- bpow_lit_m24.
    apply (SFadd_rel_error 24 128 eq_refl eq_refl a b f2p100); try assumption; reflexivity.
Qed.

Lemma finite_quat_inv (w x y z : float) :
  finite_quat (mkQuat w x y z) = true ->
  fv32 w = true /\ fv32 x = true /\ fv32 y = true /\ fv32 z = true.
Proof.
  unfold finite_quat. cbn [qw qx qy qz]. intros H.
  apply andb_prop in H. destruct H as [H Hz].
  apply andb_prop in H. destruct H as [H Hy].
  apply andb_prop in H. destruct H as [Hw Hx]. auto.
Qed.

Lemma sqrt_ge_small (t : R) :
  (/ 2417851639229258349412352 <= t)%R ->
  (/ 85070591730234615865843651857942052864 <= sqrt t)%R.
Proof.
  intros Ht.
  assert (H0 : (0 <= t)%R) by lra.
  pose proof (sqrt_pos t) as Hr. pose proof (sqrt_sqrt t H0) as Hrr.
  set (r := sqrt t) in *.
  destruct (Rle_lt_dec (/ 85070591730234615865843651857942052864) r) as [H|H];
    [exact H|].
  exfalso.
  assert (r * r <= / 85070591730234615865843651857942052864 *
                   / 85070591730234615865843651857942052864)%R
    by (apply Rmult_le_compat; lra).
  lra.
Qed.

(** The computed norm: its square is within [9 * 2^-24], relatively,
    of the exact sum of squares. *)
Lemma quat_norm_accuracy (q : Quaternion) :
  finite_quat q = true -> (bpow (-80) <= sumsq q <= bpow 80)%R ->
  fv32 (quat_norm q) = true /\ (0 < F2R (quat_norm q))%R /\
  (sumsq q * (1 - 9 / 16777216) <= F2R (quat_norm q) * F2R (quat_norm q)
   <= sumsq q * (1 + 9 / 16777216))%R.
Proof.
  intros Hf [Slo Shi]. destruct q as [w x y z].
  destruct (finite_quat_inv w x y z Hf) as (Hw & Hx & Hy & Hz).
  unfold sumsq, quat_norm in *. cbn [qw qx qy qz] in *.
  rewrite bpow_lit_m80 in Slo.
  assert (Qw : (0 <= F2R w * F2R w)%R) by nra.
  assert (Qx : (0 <= F2R x * F2R x)%R) by nra.
  assert (Qy : (0 <= F2R y * F2R y)%R) by nra.
  assert (Qz : (0 <= F2R z * F2R z)%R) by nra.
  assert (Uw : (F2R w * F2R w <= bpow 80)%R) by lra.
  assert (Ux : (F2R x * F2R x <= bpow 80)%R) by lra.
  assert (Uy : (F2R y * F2R y <= bpow 80)%R) by lra.
  assert (Uz : (F2R z * F2R z <= bpow 80)%R) by lra.
  destruct (square_ok w Hw Uw) as (Vw & Pw & Ew).
  destruct (square_ok x Hx Ux) as (Vx & Px & Ex).
  destruct (square_ok y Hy Uy) as (Vy & Py & Ey).
  destruct (square_ok z Hz Uz) as (Vz & Pz & Ez).
  rewrite bpow_lit_80 in Uw, Ux, Uy, Uz.
  rewrite bpow_lit_80 in Shi. rewrite bpow_lit_m150 in Ew, Ex, Ey, Ez.
  set (aw := F32.mul w w) in *. set (ax := F32.mul x x) in *.
  set (ay := F32.mul y y) in *. set (az := F32.mul z z) in *.
  remember (F2R w * F2R w + F2R x * F2R x + F2R y * F2R y + F2R z * F2R z)%R
    as S eqn:HSdef.
  apply Rabs_le_inv in Ew, Ex, Ey, Ez.
  destruct (add_ok aw ax Vw Vx Pw Px) as (V1 & P1 & E1).
  { rewrite F2R_f2p100. lra. }
  set (s1 := F32.add aw ax) in *.
  assert (B1 : (F2R s1 <= (F2R aw + F2R ax) * (1 + / 16777216))%R).
  { rewrite (Rabs_pos_eq (F2R aw + F2R ax)) in E1 by lra.
    apply Rabs_le_inv in E1. lra. }
  destruct (add_ok s1 ay V1 Vy P1 Py) as (V2 & P2 & E2).
  { rewrite F2R_f2p100. lra. }
  set (s2 := F32.add s1 ay) in *.
  assert (B2 : (F2R s2 <= (F2R s1 + F2R ay) * (1 + / 16777216))%R).
  { rewrite (Rabs_pos_eq (F2R s1 + F2R ay)) in E2 by lra.
    apply Rabs_le_inv in E2. lra. }
  destruct (add_ok s2 az V2 Vz P2 Pz) as (V3 & P3 & E3).
  { rewrite F2R_f2p100. lra. }
  set (s3 := F32.add s2 az) in *.
  assert (HS : (0 < S)%R) by lra.
  assert (He0 : (0 <= / 1427247692705959881058285969449495136382746624)%R) by lra.
  assert (He : (4 * / 1427247692705959881058285969449495136382746624
                <= / 16777216 * S)%R) by lra.
  assert (HA : (Rabs (F2R aw + F2R ax + F2R ay + F2R az - S)
                <= / 16777216 * S
                   + 4 * / 1427247692705959881058285969449495136382746624)%R)
    by (apply Rabs_le; lra).
  pose proof (sum_budget S (F2R aw) (F2R ax) (F2R ay) (F2R az) (F2R s1) (F2R s2) (F2R s3)
                (/ 1427247692705959881058285969449495136382746624)
                HS He0 He Pw Px Py Pz HA P1 P2 E1 E2 E3) as H3.
  assert (HR : rnd32 (sqrt (F2R s3)) (F32.sqrtf s3)).
  { apply F32_sqrt_ok with (bnd := f2p100); try assumption; try reflexivity.
    rewrite F2R_f2p100. pose proof (sqrt_le_succ (F2R s3) P3). lra. }
  pose proof (rnd32_rel _ _ HR) as EN.
  rewrite bpow_lit_m126 in EN.
  assert (Hsq : (/ 85070591730234615865843651857942052864 <= sqrt (F2R s3))%R).
  { apply sqrt_ge_small. lra. }
  specialize (EN ltac:(rewrite Rabs_pos_eq by apply sqrt_pos; exact Hsq)).
  split; [exact (rnd_fv _ _ _ _ HR)|].
  apply (sqrt_budget S (F2R s3) (F2R (F32.sqrtf s3)) HS H3 EN).
Qed.

Lemma div_ok (x n : float) :
  fv32 x = true -> fv32 n = true -> (0 < F2R n)%R ->
  (Rabs (F2R x / F2R n) <= 2)%R ->
  fv32 (F32.div x n) = true /\
  (Rabs (F2R (F32.div x n) * F2R (F32.div x n) - F2R x / F2R n * (F2R x / F2R n))
   <= 13 / 16777216)%R /\
  (Rabs (F2R (F32.div x n)) <= 3)%R.
Proof.
  intros Hx Hn Hn0 Hle.
  assert (H : rnd32 (F2R x / F2R n) (F32.div x n)).
  { apply F32_div_ok with (bnd := f2p100); try assumption; try reflexivity.
    - lra.
    - rewrite F2R_f2p100. lra. }
  split; [exact (rnd_fv _ _ _ _ H)|].
  pose proof (rnd32_abs_rel _ _ H) as E. rewrite bpow_lit_m150 in E.
  apply (component_budget (F2R x / F2R n) (F2R (F32.div x n))
           (/ 1427247692705959881058285969449495136382746624) Hle); [lra|exact E].
Qed.

(** The normalised quaternion: its components are numbers and its
    squared norm is within [62 * 2^-24] of 1. *)
Lemma normalize_accuracy (q : Quaternion) :
  finite_quat q = true -> (bpow (-80) <= sumsq q <= bpow 80)%R ->
  finite_quat (normalize q) = true /\
  (Rabs (sumsq (normalize q) - 1) <= 62 / 16777216)%R.
Proof.
  intros Hf Hs.
  destruct (quat_norm_accuracy q Hf Hs) as (VN & PN & HN).
  destruct Hs as [Slo Shi]. rewrite bpow_lit_m80 in Slo.
  destruct q as [w x y z].
  destruct (finite_quat_inv w x y z Hf) as (Hw & Hx & Hy & Hz).
  unfold normalize. cbn [qw qx qy qz].
  set (n := quat_norm (mkQuat w x y z)) in *.
  unfold finite_quat, sumsq in *. cbn [qw qx qy qz] in *.
  assert (HS : (0 < F2R w * F2R w + F2R x * F2R x + F2R y * F2R y + F2R z * F2R z)%R)
    by lra.
  pose proof (quotient_budget _ (F2R n) (F2R w) (F2R x) (F2R y) (F2R z)
                HS PN eq_refl HN) as HT.
  cbv zeta in HT.
  set (xw := (F2R w / F2R n)%R) in *. set (xx := (F2R x / F2R n)%R) in *.
  set (xy := (F2R y / F2R n)%R) in *. set (xz := (F2R z / F2R n)%R) in *.
  assert (Bw : (Rabs xw <= 2)%R) by (apply sq_le_bound with (T := (xw * xw)%R); nra).
  assert (Bx : (Rabs xx <= 2)%R) by (apply sq_le_bound with (T := (xx * xx)%R); nra).
  assert (By : (Rabs xy <= 2)%R) by (apply sq_le_bound with (T := (xy * xy)%R); nra).
  assert (Bz : (Rabs xz <= 2)%R) by (apply sq_le_bound with (T := (xz * xz)%R); nra).
  destruct (div_ok w n Hw VN PN Bw) as (Vw & Ew & _).
  destruct (div_ok x n Hx VN PN Bx) as (Vx & Ex & _).
  destruct (div_ok y n Hy VN PN By) as (Vy & Ey & _).
  destruct (div_ok z n Hz VN PN Bz) as (Vz & Ez & _).
  fold xw in Ew. fold xx in Ex. fold xy in Ey. fold xz in Ez.
  split.
  - rewrite Vw, Vx, Vy, Vz. reflexivity.
  - apply Rabs_le_inv in Ew, Ex, Ey, Ez. apply Rabs_le. lra.
Qed.

(** * Conversion to degrees *)

Lemma deg_per_rad_eq : deg_per_rad = S754_finite false 8063664102031864 (-47).
Proof. vm_compute. reflexivity. Qed.

(** A [float] of magnitude at least [2^(E-1)] is a multiple of
    [2^(E-24)]. *)
Lemma fv32_grid (d : float) (E : Z) :
  fv32 d = true -> -149 <= E - 24 -> (bpow (E - 1) <= Rabs (F2R d))%R ->
  exists K : Z, F2R d = (IZR K * bpow (E - 24))%R.
Proof.
  intros Hd HE Hlo.
  destruct d as [s|s| |s m e]; try discriminate.
  { simpl in Hlo. rewrite Rabs_R0 in Hlo. pose proof (bpow_gt_0 (E - 1)). lra. }
  unfold fv32 in Hd. rewrite fv_finite in Hd.
  destruct (bounded_facts 24 128 m e Hd) as (H1 & H2 & H3 & H4).
  pose proof (digits2_pos_bounds m) as [D1 D2].
  rewrite F2R_finite_abs in Hlo.
  assert (Hup : (IZR (Z.pos m) * bpow e < bpow (Z.pos (digits2_pos m) + e))%R).
  { rewrite bpow_add. apply Rmult_lt_compat_r; [apply bpow_gt_0|].
    rewrite bpow_IZR by lia. apply IZR_lt. exact D2. }
  assert (He : E - 1 < Z.pos (digits2_pos m) + e).
  { apply bpow_lt_inv. eapply Rle_lt_trans; [exact Hlo | exact Hup]. }
  assert (Hge : E - 24 <= e) by (unfold fexp, emin in H4; lia).
  exists (cond_Zopp s (Z.pos m) * 2 ^ (e - (E - 24))).
  unfold F2R. rewrite mult_IZR, <- bpow_IZR by lia.
  rewrite Rmult_assoc, <- bpow_add. do 2 f_equal. lia.
Qed.

(** No [float] lies strictly between a multiple [lim] of [2^(E-24)]
    in the binade of [E] and its successor. *)
Lemma fv32_discrete (r : float) (E k : Z) (lim : R) :
  fv32 r = true -> -149 <= E - 24 ->
  lim = (IZR k * bpow (E - 24))%R -> (bpow (E - 1) <= lim)%R ->
  (Rabs (F2R r) < lim + bpow (E - 24))%R ->
  (Rabs (F2R r) <= lim)%R.
Proof.
  intros Hr HE Hlim Hlo Hlt.
  destruct (Rle_lt_dec (bpow (E - 1)) (Rabs (F2R r))) as [Hge|Hsmall]; [|lra].
  destruct (fv32_grid r E Hr HE Hge) as (K & HK).
  pose proof (bpow_gt_0 (E - 24)) as Hg.
  rewrite HK, Rabs_mult, (Rabs_pos_eq (bpow _)), <- abs_IZR in * by lra.
  rewrite Hlim in *.
  assert (Hk : Z.abs K < k + 1).
  { apply lt_IZR. rewrite plus_IZR.
    apply Rmult_lt_reg_r with (bpow (E - 24)); [exact Hg|]. lra. }
  apply Rmult_le_compat_r; [lra|]. apply IZR_le. lia.
Qed.

Lemma F2R_fneg (x : spec_float) : F2R (fneg x) = (- F2R x)%R.
Proof. apply F2R_opp. Qed.

Lemma fv64_fneg (x : double) : fv64 (fneg x) = fv64 x.
Proof. apply fv_opp. Qed.

Lemma fv32_is_finite (x : float) : fv32 x = true -> is_finite x = true.
Proof. apply fv_is_finite. Qed.

Lemma fv64_is_finite (x : double) : fv64 x = true -> is_finite x = true.
Proof. apply fv_is_finite. Qed.

(** The double product and its rounding to [float]. *)
Lemma to_degrees_core (a : float) (p b : double) (E : Z) :
  fv32 a = true -> fv64 p = true -> fv64 b = true ->
  (Rabs (F2R a) <= F2R p)%R -> (F2R p * F2R deg_per_rad <= F2R b)%R ->
  (F2R b < bpow E)%R -> (F2R b <= F2R f2p100)%R ->
  fv32 (to_degrees a) = true /\
  (Rabs (F2R (to_degrees a)) <= F2R b + bpow (fexp F32.prec F32.emax E - 1))%R.
Proof.
  intros Ha Hp Hb Hap Hpb HbE Hb100.
  assert (HK : (0 < F2R deg_per_rad)%R) by (rewrite deg_per_rad_eq; apply F2R_finite_pos).
  apply Rabs_le_inv in Hap.
  unfold to_degrees.
  (* promotion *)
  assert (HP : rnd64 (F2R a) (F64.of_spec a)).
  { apply (conv_rnd_ok 53 1024 eq_refl eq_refl a p);
      [apply fv32_is_finite; exact Ha | exact Hp | apply Rabs_le; exact Hap]. }
  set (P := F64.of_spec a) in *.
  assert (VP : fv64 P = true) by exact (rnd_fv _ _ _ _ HP).
  assert (BP1 : (F2R P <= F2R p)%R) by (apply (rnd_le _ _ _ _ _ HP Hp); lra).
  assert (BP2 : (- F2R p <= F2R P)%R).
  { rewrite <- F2R_fneg. apply (rnd_ge _ _ _ _ _ HP).
    - rewrite fv64_fneg. exact Hp.
    - rewrite F2R_fneg. lra. }
  (* product *)
  assert (Hpos : (0 <= F2R p)%R) by lra.
  assert (HD : rnd64 (F2R P * F2R deg_per_rad) (F64.mul P deg_per_rad)).
  { apply (SFmul_rnd_ok 53 1024 eq_refl eq_refl P deg_per_rad b); try assumption.
    - rewrite deg_per_rad_eq. reflexivity.
    - apply Rabs_le. split; nra. }
  set (D := F64.mul P deg_per_rad) in *.
  assert (VD : fv64 D = true) by exact (rnd_fv _ _ _ _ HD).
  assert (BD1 : (F2R D <= F2R b)%R) by (apply (rnd_le _ _ _ _ _ HD Hb); nra).
  assert (BD2 : (- F2R b <= F2R D)%R).
  { rewrite <- F2R_fneg. apply (rnd_ge _ _ _ _ _ HD).
    - rewrite fv64_fneg. exact Hb.
    - rewrite F2R_fneg. nra. }
  (* assignment to the float variable *)
  assert (HR : rnd32 (F2R D) (F32.of_spec D)).
  { apply (conv_rnd_ok 24 128 eq_refl eq_refl D f2p100);
      [apply fv64_is_finite; exact VD | reflexivity | apply Rabs_le; lra]. }
  split; [exact (rnd_fv _ _ _ _ HR)|].
  pose proof (rnd_half_ulp _ _ _ _ E HR ltac:(apply Rabs_def1; lra)) as HE.
  apply Rabs_le_inv in HE. apply Rabs_le. lra.
Qed.

Lemma to_degrees_le_180 (a : float) :
  fv32 a = true -> (Rabs (F2R a) <= F2R pi_f)%R ->
  fv32 (to_degrees a) = true /\ (Rabs (F2R (to_degrees a)) <= 180)%R.
Proof.
  intros Ha Hle.
  destruct (to_degrees_core a pi_d deg_bound_180 8 Ha eq_refl eq_refl) as (V & B).
  - eapply Rle_trans; [exact Hle|]. unfold pi_f, pi_d. F2R_unfold. pow_lit. lra.
  - rewrite deg_per_rad_eq. unfold pi_d, deg_bound_180. F2R_unfold. pow_lit. lra.
  - unfold deg_bound_180. F2R_unfold. pow_lit. lra.
  - unfold deg_bound_180, f2p100. F2R_unfold. pow_lit. lra.
  - split; [exact V|].
    apply (fv32_discrete (to_degrees a) 8 11796480 180 V); try lia.
    + change (8 - 24) with (-16). rewrite bpow_lit_m16. lra.
    + change (8 - 1) with 7. rewrite bpow_lit_7. lra.
    + change (8 - 24) with (-16). rewrite bpow_lit_m16.
      change (fexp F32.prec F32.emax 8 - 1) with (-17) in B.
      rewrite bpow_lit_m17 in B. revert B.
      unfold deg_bound_180. F2R_unfold. pow_lit. lra.
Qed.

Lemma to_degrees_le_90 (a : float) :
  fv32 a = true -> (Rabs (F2R a) <= F2R half_pi)%R ->
  fv32 (to_degrees a) = true /\ (Rabs (F2R (to_degrees a)) <= 90)%R.
Proof.
  intros Ha Hle.
  destruct (to_degrees_core a half_pi_d deg_bound_90 7 Ha eq_refl eq_refl) as (V & B).
  - eapply Rle_trans; [exact Hle|]. rewrite half_pi_eq. unfold half_pi_d.
    F2R_unfold. pow_lit. lra.
  - rewrite deg_per_rad_eq. unfold half_pi_d, deg_bound_90. F2R_unfold. pow_lit. lra.
  - unfold deg_bound_90. F2R_unfold. pow_lit. lra.
  - unfold deg_bound_90, f2p100. F2R_unfold. pow_lit. lra.
  - split; [exact V|].
    apply (fv32_discrete (to_degrees a) 7 11796480 90 V); try lia.
    + change (7 - 24) with (-17). rewrite bpow_lit_m17. lra.
    + change (7 - 1) with 6. rewrite bpow_pos_lit. pow_lit. lra.
    + change (7 - 24) with (-17). rewrite bpow_lit_m17.
      change (fexp F32.prec F32.emax 7 - 1) with (-18) in B.
      rewrite bpow_lit_m18 in B. revert B.
      unfold deg_bound_90. F2R_unfold. pow_lit. lra.
Qed.

(** * The Euler angles of a normalised quaternion *)

Lemma F2R_f2 : F2R f2 = 2%R.
Proof. F2R_lit. Qed.

Lemma F2R_f4 : F2R f4 = 4%R.
Proof. unfold f4. F2R_lit. Qed.

Lemma F2R_f8 : F2R f8 = 8%R.
Proof. unfold f8. F2R_lit. Qed.

Lemma F2R_f16 : F2R f16 = 16%R.
Proof. unfold f16. F2R_lit. Qed.

Lemma fv32_fneg (x : float) : fv32 (fneg x) = fv32 x.
Proof. apply fv_opp. Qed.

(** A rounding bounded by a [float] stays within that bound. *)
Lemma rnd32_bounded (v : R) (r b : float) :
  rnd32 v r -> fv32 b = true -> (Rabs v <= F2R b)%R ->
  fv32 r = true /\ (Rabs (F2R r) <= F2R b)%R.
Proof.
  intros Hr Hb Hv. apply Rabs_le_inv in Hv.
  split; [exact (rnd_fv _ _ _ _ Hr)|]. apply Rabs_le. split.
  - rewrite <- F2R_fneg. apply (rnd_ge _ _ _ _ _ Hr).
    + rewrite fv32_fneg. exact Hb.
    + rewrite F2R_fneg. lra.
  - apply (rnd_le _ _ _ _ _ Hr Hb). lra.
Qed.

Lemma Rabs_mult_le (a b x y : R) :
  (Rabs a <= x)%R -> (Rabs b <= y)%R -> (Rabs (a * b) <= x * y)%R.
Proof.
  intros Ha Hb. rewrite Rabs_mult.
  apply Rmult_le_compat; try apply Rabs_pos; assumption.
Qed.

Lemma Rabs_plus_le (a b x y : R) :
  (Rabs a <= x)%R -> (Rabs b <= y)%R -> (Rabs (a + b) <= x + y)%R.
Proof. intros Ha Hb. pose proof (Rabs_triang a b). lra. Qed.

Lemma Rabs_minus_le (a b x y : R) :
  (Rabs a <= x)%R -> (Rabs b <= y)%R -> (Rabs (a - b) <= x + y)%R.
Proof.
  intros Ha Hb. apply Rabs_le_inv in Ha, Hb. apply Rabs_le. lra.
Qed.

(** A product of two components of a normalised quaternion. *)
Lemma product_bounded (a b : float) :
  fv32 a = true -> fv32 b = true ->
  (Rabs (F2R a) <= 9 / 8)%R -> (Rabs (F2R b) <= 9 / 8)%R ->
  fv32 (F32.mul a b) = true /\ (Rabs (F2R (F32.mul a b)) <= 2)%R.
Proof.
  intros Ha Hb Ba Bb. rewrite <- F2R_f2.
  pose proof (Rabs_mult_le _ _ _ _ Ba Bb) as Hm.
  apply rnd32_bounded with (v := (F2R a * F2R b)%R); [|reflexivity|rewrite F2R_f2; lra].
  apply F32_mul_ok with (bnd := f2); try assumption; try reflexivity.
  rewrite F2R_f2. lra.
Qed.

(** [2.0f * (p + q)] and [2.0f * (p - q)] for two such products. *)
Lemma twice_sum_bounded (p q : float) :
  fv32 p = true -> fv32 q = true ->
  (Rabs (F2R p) <= 2)%R -> (Rabs (F2R q) <= 2)%R ->
  fv32 (F32.mul f2 (F32.add p q)) = true /\
  (Rabs (F2R (F32.mul f2 (F32.add p q))) <= 8)%R.
Proof.
  intros Hp Hq Bp Bq.
  pose proof (Rabs_plus_le _ _ _ _ Bp Bq) as Hs.
  assert (H1 : rnd32 (F2R p + F2R q) (F32.add p q)).
  { apply F32_add_ok with (bnd := f4); try assumption; try reflexivity.
    rewrite F2R_f4. lra. }
  apply rnd32_bounded with (b := f4) in H1; [|reflexivity|rewrite F2R_f4; lra].
  destruct H1 as [V1 B1]. rewrite F2R_f4 in B1.
  assert (B2 : (Rabs (F2R f2 * F2R (F32.add p q)) <= 8)%R).
  { rewrite F2R_f2. replace 8%R with (2 * 4)%R by ring.
    apply Rabs_mult_le; [rewrite Rabs_pos_eq; lra | exact B1]. }
  rewrite <- F2R_f8.
  apply rnd32_bounded with (v := (F2R f2 * F2R (F32.add p q))%R);
    [|reflexivity|rewrite F2R_f8; exact B2].
  apply F32_mul_ok with (bnd := f8); try assumption; try reflexivity.
  rewrite F2R_f8. exact B2.
Qed.

Lemma twice_diff_bounded (p q : float) :
  fv32 p = true -> fv32 q = true ->
  (Rabs (F2R p) <= 2)%R -> (Rabs (F2R q) <= 2)%R ->
  fv32 (F32.mul f2 (F32.sub p q)) = true /\
  (Rabs (F2R (F32.mul f2 (F32.sub p q))) <= 8)%R.
Proof.
  intros Hp Hq Bp Bq.
  pose proof (Rabs_minus_le _ _ _ _ Bp Bq) as Hs.
  assert (H1 : rnd32 (F2R p - F2R q) (F32.sub p q)).
  { apply F32_sub_ok with (bnd := f4); try assumption; try reflexivity.
    rewrite F2R_f4. lra. }
  apply rnd32_bounded with (b := f4) in H1; [|reflexivity|rewrite F2R_f4; lra].
  destruct H1 as [V1 B1]. rewrite F2R_f4 in B1.
  assert (B2 : (Rabs (F2R f2 * F2R (F32.sub p q)) <= 8)%R).
  { rewrite F2R_f2. replace 8%R with (2 * 4)%R by ring.
    apply Rabs_mult_le; [rewrite Rabs_pos_eq; lra | exact B1]. }
  rewrite <- F2R_f8.
  apply rnd32_bounded with (v := (F2R f2 * F2R (F32.sub p q))%R);
    [|reflexivity|rewrite F2R_f8; exact B2].
  apply F32_mul_ok with (bnd := f8); try assumption; try reflexivity.
  rewrite F2R_f8. exact B2.
Qed.

(** [1.0f - t] for such a doubled sum. *)
Lemma one_minus_bounded (t : float) :
  fv32 t = true -> (Rabs (F2R t) <= 8)%R -> fv32 (F32.sub f1 t) = true.
Proof.
  intros Ht Bt.
  assert (B : (Rabs (F2R f1 - F2R t) <= F2R f16)%R).
  { rewrite F2R_f1, F2R_f16. apply Rabs_le_inv in Bt. apply Rabs_le. lra. }
  exact (rnd_fv _ _ _ _ (F32_sub_ok f1 t f16 eq_refl Ht eq_refl B)).
Qed.

Section Angles.
Context {L : Libm}.
Hypothesis HL : LibmSpec L.

Lemma atan2f_bounded (y x : float) :
  fv32 y = true -> fv32 x = true ->
  fv32 (atan2f y x) = true /\ (Rabs (F2R (atan2f y x)) <= F2R pi_f)%R.
Proof.
  intros Hy Hx. destruct (atan2f_range L HL y x Hy Hx) as [Hv Hle].
  assert (Hf : fv32 (atan2f y x) = true).
  { apply fv32_of_valid_finite; [exact Hv|].
    eapply fle_abs_is_finite; [exact Hle | reflexivity]. }
  split; [exact Hf|].
  apply fle_true in Hle; [|rewrite fv32_abs; exact Hf|reflexivity].
  unfold fabsf in Hle. rewrite F2R_abs in Hle. exact Hle.
Qed.

Lemma asinf_bounded (s : float) :
  fv32 s = true -> fle (fabsf s) f1 = true ->
  fv32 (asinf s) = true /\ (Rabs (F2R (asinf s)) <= F2R half_pi)%R.
Proof.
  intros Hs H1. destruct (asinf_range L HL s Hs H1) as [Hv Hle].
  assert (Hh : fv32 half_pi = true) by (rewrite half_pi_eq; reflexivity).
  assert (Hf : fv32 (asinf s) = true).
  { apply fv32_of_valid_finite; [exact Hv|].
    eapply fle_abs_is_finite; [exact Hle | rewrite half_pi_eq; reflexivity]. }
  split; [exact Hf|].
  apply fle_true in Hle; [|rewrite fv32_abs; exact Hf|exact Hh].
  unfold fabsf in Hle. rewrite F2R_abs in Hle. exact Hle.
Qed.

Lemma pitch_rad_bounded (q : Quaternion) :
  fv32 (sinp q) = true ->
  fv32 (pitch_rad q) = true /\ (Rabs (F2R (pitch_rad q)) <= F2R half_pi)%R.
Proof.
  intros Hs. unfold pitch_rad.
  assert (Ha : fv32 (fabsf (sinp q)) = true) by (rewrite fv32_abs; exact Hs).
  destruct (fle f1 (fabsf (sinp q))) eqn:E.
  - rewrite copysignf_half_pi, half_pi_eq.
    destruct (signbit (sinp q)).
    + split; [reflexivity|]. rewrite F2R_fneg, Rabs_Ropp. apply Req_le.
      apply Rabs_pos_eq. left. apply F2R_finite_pos.
    + split; [reflexivity|]. apply Req_le.
      apply Rabs_pos_eq. left. apply F2R_finite_pos.
  - apply asinf_bounded; [exact Hs|].
    apply fle_false in E; [|reflexivity|exact Ha].
    apply fle_true; [exact Ha|reflexivity|]. lra.
Qed.

End Angles.

Lemma components_bounded (w x y z : float) :
  (Rabs (sumsq (mkQuat w x y z) - 1) <= 62 / 16777216)%R ->
  (Rabs (F2R w) <= 9 / 8)%R /\ (Rabs (F2R x) <= 9 / 8)%R /\
  (Rabs (F2R y) <= 9 / 8)%R /\ (Rabs (F2R z) <= 9 / 8)%R.
Proof.
  unfold sumsq. cbn [qw qx qy qz]. intros H. apply Rabs_le_inv in H.
  repeat split; apply Rabs_le; split; nra.
Qed.

Section Decomposition.
Context {L : Libm}.
Hypothesis HL : LibmSpec L.
Variables w x y z : float.
Hypothesis Hw : fv32 w = true.
Hypothesis Hx : fv32 x = true.
Hypothesis Hy : fv32 y = true.
Hypothesis Hz : fv32 z = true.
Hypothesis Bw : (Rabs (F2R w) <= 9 / 8)%R.
Hypothesis Bx : (Rabs (F2R x) <= 9 / 8)%R.
Hypothesis By : (Rabs (F2R y) <= 9 / 8)%R.
Hypothesis Bz : (Rabs (F2R z) <= 9 / 8)%R.

Lemma yaw_bounded :
  fv32 (to_degrees (yaw_rad (mkQuat w x y z))) = true /\
  (Rabs (F2R (to_degrees (yaw_rad (mkQuat w x y z)))) <= 180)%R.
Proof.
  unfold yaw_rad, siny_cosp, cosy_cosp. cbn [qw qx qy qz].
  destruct (product_bounded w z Hw Hz Bw Bz) as [V1 B1].
  destruct (product_bounded x y Hx Hy Bx By) as [V2 B2].
  destruct (product_bounded y y Hy Hy By By) as [V3 B3].
  destruct (product_bounded z z Hz Hz Bz Bz) as [V4 B4].
  destruct (twice_sum_bounded _ _ V1 V2 B1 B2) as [Vs _].
  destruct (twice_sum_bounded _ _ V3 V4 B3 B4) as [Vt Bt].
  pose proof (one_minus_bounded _ Vt Bt) as Vc.
  destruct (atan2f_bounded HL _ _ Vs Vc) as [Va Ba].
  apply to_degrees_le_180; assumption.
Qed.

Lemma roll_bounded :
  fv32 (to_degrees (roll_rad (mkQuat w x y z))) = true /\
  (Rabs (F2R (to_degrees (roll_rad (mkQuat w x y z)))) <= 180)%R.
Proof.
  unfold roll_rad, sinr_cosp, cosr_cosp. cbn [qw qx qy qz].
  destruct (product_bounded w x Hw Hx Bw Bx) as [V1 B1].
  destruct (product_bounded y z Hy Hz By Bz) as [V2 B2].
  destruct (product_bounded x x Hx Hx Bx Bx) as [V3 B3].
  destruct (product_bounded y y Hy Hy By By) as [V4 B4].
  destruct (twice_sum_bounded _ _ V1 V2 B1 B2) as [Vs _].
  destruct (twice_sum_bounded _ _ V3 V4 B3 B4) as [Vt Bt].
  pose proof (one_minus_bounded _ Vt Bt) as Vc.
  destruct (atan2f_bounded HL _ _ Vs Vc) as [Va Ba].
  apply to_degrees_le_180; assumption.
Qed.

Lemma pitch_bounded :
  fv32 (to_degrees (pitch_rad (mkQuat w x y z))) = true /\
  (Rabs (F2R (to_degrees (pitch_rad (mkQuat w x y z)))) <= 90)%R.
Proof.
  destruct (product_bounded w y Hw Hy Bw By) as [V1 B1].
  destruct (product_bounded z x Hz Hx Bz Bx) as [V2 B2].
  destruct (twice_diff_bounded _ _ V1 V2 B1 B2) as [Vs _].
  destruct (pitch_rad_bounded HL (mkQuat w x y z) Vs) as [Va Ba].
  apply to_degrees_le_90; assumption.
Qed.

End Decomposition.

(** C8 (amended).  For every quaternion with finite components whose
    squared norm lies between [2^-80] and [2^80] -- every unit
    quaternion is one -- and every math library meeting [LibmSpec],
    normalisation followed by decomposition yields three finite
    angles, pitch in [-90, 90] and yaw and roll in the closed interval
    [-180, 180]. *)
Theorem euler_angles_finite_in_range (L : Libm) (q : Quaternion) :
  LibmSpec L -> finite_quat q = true ->
  (bpow (-80) <= sumsq q <= bpow 80)%R ->
  let e := quat_to_euler q in
  fv32 (yaw e) = true /\ fv32 (pitch e) = true /\ fv32 (roll e) = true /\
  (- 180 <= F2R (yaw e) <= 180)%R /\
  (- 90 <= F2R (pitch e) <= 90)%R /\
  (- 180 <= F2R (roll e) <= 180)%R.
Proof.
  intros HL Hf Hs. cbv zeta. unfold quat_to_euler. cbn [yaw pitch roll].
  destruct (normalize_accuracy q Hf Hs) as [Vc Bc].
  destruct (normalize q) as [w x y z].
  destruct (finite_quat_inv w x y z Vc) as (Hw & Hx & Hy & Hz).
  destruct (components_bounded w x y z Bc) as (Bw & Bx & By & Bz).
  destruct (yaw_bounded HL w x y z Hw Hx Hy Hz Bw Bx By Bz) as [Vy Ry].
  destruct (pitch_bounded HL w x y z Hw Hx Hy Hz Bw Bx By Bz) as [Vp Rp].
  destruct (roll_bounded HL w x y z Hw Hx Hy Hz Bw Bx By Bz) as [Vr Rr].
  apply Rabs_le_inv in Ry, Rp, Rr.
  repeat split; try assumption; lra.
Qed.

Lemma sumsq_identity : sumsq q_identity = 1%R.
Proof.
  unfold sumsq, q_identity. cbn [qw qx qy qz]. rewrite F2R_f1, F2R_f0. ring.
Qed.

Lemma unit_in_domain : (bpow (-80) <= 1 <= bpow 80)%R.
Proof. rewrite bpow_lit_m80, bpow_lit_80. lra. Qed.

Lemma euler_angles_finite_in_range_witness :
  finite_quat q_identity = true /\
  (bpow (-80) <= sumsq q_identity <= bpow 80)%R /\
  fv32 (yaw (@quat_to_euler coarse_libm q_identity)) = true /\
  (- 180 <= F2R (yaw (@quat_to_euler coarse_libm q_identity)) <= 180)%R.
Proof.
  assert (H : (bpow (-80) <= sumsq q_identity <= bpow 80)%R)
    by (rewrite sumsq_identity; exact unit_in_domain).
  split; [reflexivity|]. split; [exact H|].
  pose proof (euler_angles_finite_in_range coarse_libm q_identity
                coarse_libm_spec eq_refl H) as (Vy & _ & _ & Ry & _).
  split; [exact Vy | exact Ry].
Defined.

Lemma half_turn_neg_yaw (L : Libm) :
  LibmSpec L -> yaw (quat_to_euler q_half_turn_neg) = fneg f180.
Proof.
  intros HL. unfold quat_to_euler. cbn [yaw].
  change (normalize q_half_turn_neg) with q_half_turn_neg.
  unfold yaw_rad.
  change (siny_cosp q_half_turn_neg) with (S754_zero true).
  rewrite (atan2f_zero_neg L HL true) by reflexivity.
  vm_compute. reflexivity.
Qed.

Lemma sumsq_half_turn_neg : sumsq q_half_turn_neg = 1%R.
Proof.
  unfold sumsq, q_half_turn_neg. cbn [qw qx qy qz]. rewrite F2R_f1, F2R_f0.
  simpl F2R. ring.
Qed.

(** The unit quaternion [(-0, -0, 0, 1)], a half turn about the
    vertical axis: [atan2f(-0, -1)] is [-pi], so the yaw is exactly
    -180 degrees, which the interval (-180, 180] excludes. *)
Lemma yaw_of_half_turn_is_minus_180 :
  finite_quat q_half_turn_neg = true /\ sumsq q_half_turn_neg = 1%R /\
  (forall L : Libm, LibmSpec L ->
     yaw (quat_to_euler q_half_turn_neg) = fneg f180) /\
  F2R (fneg f180) = (- 180)%R /\
  ~ (forall L : Libm, LibmSpec L ->
     forall q : Quaternion, finite_quat q = true -> sumsq q = 1%R ->
     (- 180 < F2R (yaw (quat_to_euler q)) <= 180)%R).
Proof.
  split; [reflexivity|]. split; [exact sumsq_half_turn_neg|].
  split; [exact half_turn_neg_yaw|]. split; [exact F2R_neg_f180|].
  intros H.
  specialize (H coarse_libm coarse_libm_spec q_half_turn_neg eq_refl sumsq_half_turn_neg).
  rewrite (half_turn_neg_yaw coarse_libm coarse_libm_spec), F2R_neg_f180 in H. lra.
Qed.

(** * The normaliser has no failure outcome *)

Lemma process_sample_emits (L : Libm) (fuel : nat) (st st' : State) :
  process_sample fuel true st = Some st' ->
  exists r : hid_gamepad_report_t, sent st' = sent st ++ [r].
Proof.
  unfold process_sample.
  destruct (normalize_angles fuel _ (offset st)) as [e|]; [|discriminate].
  intros H. inversion H; subst st'. cbn [sent]. eexists. reflexivity.
Qed.

(** C1 (amended).  The normaliser has no failure outcome and the
    sample step has no skip: every sample whose wrap loops end is
    reported.  For a quaternion with finite components whose squared
    norm lies between [2^-80] and [2^80], the normaliser returns a
    quaternion with finite components and norm 1 within 1e-5. *)
Theorem normalizer_unit_norm (q : Quaternion) :
  finite_quat q = true -> (bpow (-80) <= sumsq q <= bpow 80)%R ->
  finite_quat (normalize q) = true /\
  (Rabs (sqrt (sumsq (normalize q)) - 1) <= 1 / 100000)%R /\
  (forall (L : Libm) (fuel : nat) (st st' : State),
     process_sample fuel true st = Some st' ->
     exists r : hid_gamepad_report_t, sent st' = sent st ++ [r]).
Proof.
  intros Hf Hs. destruct (normalize_accuracy q Hf Hs) as [Vc Bc].
  split; [exact Vc|]. split; [|exact process_sample_emits].
  apply Rle_trans with (62 / 16777216)%R; [|lra].
  apply sqrt_near_1; [lra | exact Bc].
Qed.

Lemma normalizer_unit_norm_witness :
  finite_quat q_identity = true /\
  (bpow (-80) <= sumsq q_identity <= bpow 80)%R /\
  finite_quat (normalize q_identity) = true /\
  (Rabs (sqrt (sumsq (normalize q_identity)) - 1) <= 1 / 100000)%R.
Proof.
  assert (H : (bpow (-80) <= sumsq q_identity <= bpow 80)%R)
    by (rewrite sumsq_identity; exact unit_in_domain).
  split; [reflexivity|]. split; [exact H|].
  pose proof (normalizer_unit_norm q_identity eq_refl H) as (V & B & _).
  split; [exact V | exact B].
Defined.

Lemma sub_nan_l (o : float) : F32.sub S754_nan o = S754_nan.
Proof. destruct o; reflexivity. Qed.

Lemma wrap_nan (fuel : nat) : wrap fuel S754_nan = Some S754_nan.
Proof.
  unfold wrap. rewrite wrap_down_stop by reflexivity.
  apply wrap_up_stop. reflexivity.
Qed.

Lemma null_euler (L : Libm) :
  LibmSpec L -> quat_to_euler q_null = mkEuler S754_nan S754_nan S754_nan.
Proof.
  intros HL. unfold quat_to_euler.
  change (normalize q_null) with q_nan.
  unfold yaw_rad, roll_rad, pitch_rad.
  change (siny_cosp q_nan) with S754_nan. change (cosy_cosp q_nan) with S754_nan.
  change (sinr_cosp q_nan) with S754_nan. change (cosr_cosp q_nan) with S754_nan.
  change (sinp q_nan) with S754_nan.
  change (fle f1 (fabsf S754_nan)) with false. cbv iota.
  rewrite (atan2f_nan L HL) by reflexivity. rewrite (asinf_nan L HL).
  reflexivity.
Qed.

Lemma null_sample_reported (L : Libm) (fuel : nat) (o : CalibrationOffset) :
  LibmSpec L ->
  loop fuel None true (state_with o [rotation_event q_null]) =
    Some (mkState o (mkSensorValue SH2_ROTATION_VECTOR 0 q_null)
                  (mkReport 0 0 0 0) [] [mkReport 0 0 0 0]).
Proof.
  intros HL. unfold loop, state_with, rotation_event, getSensorEvent.
  cbn [bno offset sensorValue gamepad_report sent].
  change (true && is_rotation_vector _)%bool with true. cbv iota.
  unfold process_sample. cbn [bno offset sensorValue gamepad_report sent rotationVector].
  rewrite (null_euler L HL).
  unfold normalize_angles, normalize_angle. cbn [yaw pitch roll].
  rewrite !sub_nan_l, !wrap_nan. reflexivity.
Qed.

Lemma normalize_tiny :
  normalize q_tiny = mkQuat (S754_finite false 8561587 (-23)) f0 f0 f0.
Proof. vm_compute. reflexivity. Qed.

(** The null quaternion is normalised to four NaN, without any
    failure; its Euler angles are NaN and its sample is reported all
    the same.  And the quaternion [(1.25 * 2^-74, 0, 0, 0)], whose norm
    is neither zero nor infinite, is normalised to
    [(1.0206..., 0, 0, 0)], of norm 2 percent above 1. *)
Lemma normalize_null_is_nan :
  normalize q_null = q_nan /\
  (forall L : Libm, LibmSpec L ->
     quat_to_euler q_null = mkEuler S754_nan S754_nan S754_nan) /\
  (forall (L : Libm) (fuel : nat) (o : CalibrationOffset),
     LibmSpec L ->
     exists st' : State,
       loop fuel None true (state_with o [rotation_event q_null]) = Some st' /\
       sent st' = [gamepad_report st']) /\
  finite_quat q_tiny = true /\ (0 < sumsq q_tiny)%R /\
  is_finite (quat_norm q_tiny) = true /\ (0 < F2R (quat_norm q_tiny))%R /\
  ~ (Rabs (sqrt (sumsq (normalize q_tiny)) - 1) <= 1 / 100000)%R.
Proof.
  split; [reflexivity|]. split; [exact null_euler|]. split.
  { intros L fuel o HL. eexists. split; [apply (null_sample_reported L fuel o HL)|].
    reflexivity. }
  split; [reflexivity|]. split.
  { unfold sumsq, q_tiny. cbn [qw qx qy qz]. rewrite F2R_f0.
    pose proof (F2R_finite_pos 10485760 (-97)). nra. }
  split; [reflexivity|]. split.
  { change (quat_norm q_tiny) with (S754_finite false 10273905 (-97)).
    apply F2R_finite_pos. }
  rewrite normalize_tiny. unfold sumsq. cbn [qw qx qy qz]. rewrite F2R_f0.
  set (c := F2R (S754_finite false 8561587 (-23))).
  assert (Hc : c = (8561587 / 8388608)%R) by (unfold c; F2R_unfold; pow_lit; lra).
  replace (c * c + 0 * 0 + 0 * 0 + 0 * 0)%R with (c * c)%R by ring.
  rewrite sqrt_square by lra. rewrite Hc. intros H. apply Rabs_le_inv in H. lra.
Qed.

(** * Radians to degrees, against the real number pi *)

Lemma pi_bounds :
  (31415926 / 10000000 < Rtrigo1.PI < 31415927 / 10000000)%R.
Proof.
  pose proof (PI_2_3_7_ineq 4) as [H1 H2].
  unfold sum_f_R0, tg_alt, PI_2_3_7_tg, Ratan_seq in H1, H2.
  simpl in H1, H2. split; lra.
Qed.

Lemma deg_per_rad_bounds :
  (57295778 / 1000000 < 180 / Rtrigo1.PI < 57295781 / 1000000)%R.
Proof.
  destruct pi_bounds as [H1 H2].
  assert (Hp : (0 < Rtrigo1.PI)%R) by lra.
  assert (A : (/ Rtrigo1.PI < / (31415926 / 10000000))%R).
  { apply Rinv_lt_contravar; [|exact H1]. apply Rmult_lt_0_compat; lra. }
  assert (B : (/ (31415927 / 10000000) < / Rtrigo1.PI)%R).
  { apply Rinv_lt_contravar; [|exact H2]. apply Rmult_lt_0_compat; lra. }
  unfold Rdiv at 2 3. lra.
Qed.

Lemma F2R_deg_per_rad :
  F2R deg_per_rad = (8063664102031864 / 140737488355328)%R.
Proof. rewrite deg_per_rad_eq. F2R_unfold. pow_lit. lra. Qed.

Lemma bpow_lit_m15 : bpow (-15) = (/ 32768)%R.
Proof. rewrite bpow_neg_lit. pow_lit. reflexivity. Qed.

Lemma bpow_lit_m46 : bpow (-46) = (/ 70368744177664)%R.
Proof. rewrite bpow_neg_lit. pow_lit. reflexivity. Qed.

Lemma bpow_lit_m51 : bpow (-51) = (/ 2251799813685248)%R.
Proof. rewrite bpow_neg_lit. pow_lit. reflexivity. Qed.

Lemma bpow_lit_3 : bpow 3 = 8%R.
Proof. rewrite bpow_pos_lit. pow_lit. reflexivity. Qed.

Lemma F2R_d4 : F2R d4 = 4%R.
Proof. unfold d4. F2R_lit. Qed.

Lemma F2R_d230 : F2R d230 = 230%R.
Proof. unfold d230. F2R_lit. Qed.

(** For an angle of at most 4 radians in magnitude, [to_degrees] is
    within [2^-15] degree of the exact conversion by [180 / pi]. *)
Lemma to_degrees_accuracy (a : float) :
  fv32 a = true -> (Rabs (F2R a) <= 4)%R ->
  (Rabs (F2R (to_degrees a) - F2R a * (180 / Rtrigo1.PI)) <= bpow (-15))%R.
Proof.
  intros Ha Hle. unfold to_degrees.
  pose proof F2R_deg_per_rad as HK.
  pose proof deg_per_rad_bounds as Hc.
  (* promotion *)
  assert (HP : rnd64 (F2R a) (F64.of_spec a)).
  { apply (conv_rnd_ok 53 1024 eq_refl eq_refl a d4);
      [apply fv32_is_finite; exact Ha | reflexivity | rewrite F2R_d4; exact Hle]. }
  set (P := F64.of_spec a) in *.
  assert (VP : fv64 P = true) by exact (rnd_fv _ _ _ _ HP).
  pose proof (rnd_half_ulp _ _ _ _ 3 HP) as EP.
  rewrite bpow_lit_3 in EP. specialize (EP ltac:(lra)).
  change (fexp F64.prec F64.emax 3 - 1) with (-51) in EP.
  rewrite bpow_lit_m51 in EP.
  apply Rabs_le_inv in Hle, EP.
  (* product *)
  assert (HD : rnd64 (F2R P * F2R deg_per_rad) (F64.mul P deg_per_rad)).
  { apply (SFmul_rnd_ok 53 1024 eq_refl eq_refl P deg_per_rad d230); try assumption.
    - rewrite deg_per_rad_eq. reflexivity.
    - reflexivity.
    - rewrite HK, F2R_d230. apply Rabs_le. lra. }
  set (D := F64.mul P deg_per_rad) in *.
  assert (VD : fv64 D = true) by exact (rnd_fv _ _ _ _ HD).
  pose proof (rnd_half_ulp _ _ _ _ 8 HD) as ED.
  rewrite bpow_8, HK in ED. specialize (ED ltac:(apply Rabs_def1; lra)).
  change (fexp F64.prec F64.emax 8 - 1) with (-46) in ED.
  rewrite bpow_lit_m46 in ED. apply Rabs_le_inv in ED.
  (* assignment *)
  assert (HR : rnd32 (F2R D) (F32.of_spec D)).
  { apply (conv_rnd_ok 24 128 eq_refl eq_refl D f254);
      [apply fv64_is_finite; exact VD | reflexivity | rewrite F2R_f254; apply Rabs_le; lra]. }
  pose proof (rnd_half_ulp _ _ _ _ 8 HR) as ER.
  rewrite bpow_8 in ER. specialize (ER ltac:(apply Rabs_def1; lra)).
  change (fexp F32.prec F32.emax 8 - 1) with (-17) in ER.
  rewrite bpow_lit_m17 in ER. apply Rabs_le_inv in ER.
  (* the constant *)
  set (c := (180 / Rtrigo1.PI)%R) in *.
  assert (E4 : (Rabs (F2R a * (8063664102031864 / 140737488355328 - c))
                <= 4 * (2 / 1000000))%R).
  { apply Rabs_mult_le; apply Rabs_le; lra. }
  apply Rabs_le_inv in E4.
  replace (F2R a * (8063664102031864 / 140737488355328 - c))%R
    with (F2R a * (8063664102031864 / 140737488355328) - F2R a * c)%R in E4 by ring.
  rewrite bpow_lit_m15. apply Rabs_le. lra.
Qed.

Lemma fv32_pi_f : fv32 pi_f = true.
Proof. reflexivity. Qed.

Lemma pi_f_le_4 : (Rabs (F2R pi_f) <= 4)%R.
Proof. unfold pi_f. F2R_unfold. pow_lit. apply Rabs_le. lra. Qed.

(** C6.  With [(w, x, y, z)] the normalised quaternion, roll is
    [atan2f (2 (w x + y z)) (1 - 2 (x x + y y))] and yaw is
    [atan2f (2 (w z + x y)) (1 - 2 (y y + z z))]; the three angles are
    converted to degrees by the double product with [180 / PI], which
    is within [2^-15] degree of the exact conversion by [180 / pi] for
    any angle of at most 4 radians, and exact on pi, pi/2 and 0. *)
Theorem euler_decomposer_formulas (L : Libm) (raw : Quaternion) :
  let q := normalize raw in
  roll (quat_to_euler raw) = spec_roll (qw q) (qx q) (qy q) (qz q) /\
  yaw (quat_to_euler raw) = spec_yaw (qw q) (qx q) (qy q) (qz q) /\
  quat_to_euler raw =
    mkEuler (to_degrees (yaw (euler_rad q))) (to_degrees (pitch (euler_rad q)))
            (to_degrees (roll (euler_rad q))) /\
  to_degrees pi_f = f180 /\ to_degrees half_pi = f90 /\ to_degrees f0 = f0 /\
  (forall a : float,
     fv32 a = true -> (Rabs (F2R a) <= 4)%R ->
     (Rabs (F2R (to_degrees a) - F2R a * (180 / Rtrigo1.PI)) <= bpow (-15))%R).
Proof.
  cbv zeta.
  split; [reflexivity|]. split; [reflexivity|]. split; [reflexivity|].
  split; [vm_compute; reflexivity|]. split; [vm_compute; reflexivity|].
  split; [vm_compute; reflexivity|].
  exact to_degrees_accuracy.
Qed.

Lemma euler_decomposer_formulas_witness :
  fv32 pi_f = true /\ (Rabs (F2R pi_f) <= 4)%R /\
  (Rabs (F2R (to_degrees pi_f) - F2R pi_f * (180 / Rtrigo1.PI)) <= bpow (-15))%R.
Proof.
  split; [exact fv32_pi_f|]. split; [exact pi_f_le_4|].
  pose proof (euler_decomposer_formulas coarse_libm q_identity)
    as (_ & _ & _ & _ & _ & _ & H).
  exact (H pi_f fv32_pi_f pi_f_le_4).
Defined.

(** * One pass of [loop]: what it touches *)

Lemma getSensorEvent_bno (st : State) : bno (snd (getSensorEvent st)) = tl (bno st).
Proof. unfold getSensorEvent. destruct (bno st) as [|[v|] rest] eqn:E; cbn; try rewrite E; reflexivity. Qed.

Lemma getSensorEvent_keeps (st : State) :
  offset (snd (getSensorEvent st)) = offset st /\
  gamepad_report (snd (getSensorEvent st)) = gamepad_report st /\
  sent (snd (getSensorEvent st)) = sent st.
Proof. unfold getSensorEvent. destruct (bno st) as [|[v|] rest]; cbn; auto. Qed.

Lemma getSensorEvent_rotation (st : State) :
  (fst (getSensorEvent st) && is_rotation_vector (snd (getSensorEvent st)))%bool
  = next_is_rotation st.
Proof.
  unfold getSensorEvent, next_is_rotation, is_rotation_vector.
  destruct (bno st) as [|[v|] rest]; reflexivity.
Qed.

Section Pass.
Context {L : Libm}.

Lemma loop_unfold (fuel : nat) (line : option string) (usb : bool) (st : State) :
  loop fuel line usb st =
    let st0 := if no_reset line then st else resetView st in
    if next_is_rotation st0
    then process_sample fuel usb (snd (getSensorEvent st0))
    else Some (snd (getSensorEvent st0)).
Proof.
  unfold loop, no_reset. cbv zeta.
  set (st0 := match line with
              | Some command => if is_reset_command command then resetView st else st
              | None => st
              end).
  assert (E : st0 = if match line with
                       | Some command => negb (is_reset_command command)
                       | None => true
                       end then st else resetView st).
  { unfold st0. destruct line as [c|]; [destruct (is_reset_command c)|]; reflexivity. }
  rewrite <- E. rewrite <- getSensorEvent_rotation.
  destruct (getSensorEvent st0) as [got st1]. reflexivity.
Qed.

Lemma process_sample_keeps (fuel : nat) (usb : bool) (st st' : State) :
  process_sample fuel usb st = Some st' ->
  offset st' = offset st /\ bno st' = bno st /\
  report_buttons (gamepad_report st') = 0 /\
  sent st' = (if usb then sent st ++ [gamepad_report st'] else sent st).
Proof.
  unfold process_sample.
  destruct (normalize_angles fuel _ (offset st)) as [e|]; [|discriminate].
  intros H. inversion H; subst st'. cbn. auto.
Qed.

End Pass.

(** X1.  A pass of [loop] without a reset command, in which the poll
    delivers nothing or the event of another sensor, ends for every
    fuel and changes nothing but the polled event: offsets, joystick
    report and reports sent stay as they were. *)
Theorem loop_without_rotation_sample
    (L : Libm) (fuel : nat) (line : option string) (usb : bool) (st : State) :
  no_reset line = true -> next_is_rotation st = false ->
  exists st' : State,
    loop fuel line usb st = Some st' /\
    offset st' = offset st /\ gamepad_report st' = gamepad_report st /\
    sent st' = sent st /\ bno st' = tl (bno st).
Proof.
  intros Hr Hn. rewrite loop_unfold, Hr. cbv zeta. rewrite Hn.
  eexists. split; [reflexivity|].
  destruct (getSensorEvent_keeps st) as (H1 & H2 & H3).
  rewrite getSensorEvent_bno. auto.
Qed.

Lemma loop_without_rotation_sample_witness :
  no_reset (Some "status"%string) = true /\
  next_is_rotation (state_with offset_30_40_50 [other_event]) = false /\
  exists st' : State,
    @loop coarse_libm 0 (Some "status"%string) true
          (state_with offset_30_40_50 [other_event]) = Some st' /\
    offset st' = offset_30_40_50 /\ sent st' = [].
Proof.
  split; [reflexivity|]. split; [reflexivity|].
  destruct (loop_without_rotation_sample coarse_libm 0 (Some "status"%string) true
              (state_with offset_30_40_50 [other_event]) eq_refl eq_refl)
    as (st' & H & Ho & _ & Hs & _).
  exists st'. split; [exact H|]. split; [exact Ho | exact Hs].
Defined.

(** X2.  A pass of [loop] hands at most one report to the USB stack,
    and none when [usb_hid.ready()] is false or no rotation-vector
    sample was polled; the report it hands over is the joystick report
    it has just stored, with no button pressed. *)
Theorem loop_sends_at_most_one_report
    (L : Libm) (fuel : nat) (line : option string) (usb : bool) (st st' : State) :
  loop fuel line usb st = Some st' ->
  sent st' = sent st \/
  (usb = true /\ sent st' = sent st ++ [gamepad_report st'] /\
   report_buttons (gamepad_report st') = 0 /\
   next_is_rotation (if no_reset line then st else resetView st) = true).
Proof.
  rewrite loop_unfold. cbv zeta.
  set (st0 := if no_reset line then st else resetView st).
  assert (Hs0 : sent st0 = sent st).
  { unfold st0. destruct (no_reset line); [reflexivity | apply resetView_sent]. }
  destruct (getSensorEvent_keeps st0) as (_ & _ & Hs1).
  destruct (next_is_rotation st0) eqn:Hn.
  - intros H. apply process_sample_keeps in H. destruct H as (_ & _ & Hb & Hs).
    rewrite Hs1, Hs0 in Hs. destruct usb; [right | left]; auto.
  - intros H. inversion H; subst st'. left. congruence.
Qed.

Lemma loop_sends_at_most_one_report_witness :
  exists st' : State,
    @loop coarse_libm 0 None true (state_with offset_30_40_50 [rotation_event q_identity])
      = Some st' /\
    (sent st' = [] \/
     (true = true /\ sent st' = [] ++ [gamepad_report st'] /\
      report_buttons (gamepad_report st') = 0 /\
      next_is_rotation (state_with offset_30_40_50 [rotation_event q_identity]) = true)).
Proof.
  assert (H : exists st', @loop coarse_libm 0 None true
                (state_with offset_30_40_50 [rotation_event q_identity]) = Some st').
  { vm_compute. eexists. reflexivity. }
  destruct H as (st' & H). exists st'. split; [exact H|].
  exact (loop_sends_at_most_one_report coarse_libm 0 None true _ st' H).
Defined.

(** X3.  The calibration offsets change only on a reset command: a
    pass of [loop] without one returns them as they were. *)
Theorem loop_keeps_offset_without_reset
    (L : Libm) (fuel : nat) (line : option string) (usb : bool) (st st' : State) :
  no_reset line = true -> loop fuel line usb st = Some st' ->
  offset st' = offset st.
Proof.
  intros Hr. rewrite loop_unfold, Hr. cbv zeta.
  destruct (getSensorEvent_keeps st) as (Ho & _ & _).
  destruct (next_is_rotation st).
  - intros H. apply process_sample_keeps in H. destruct H as (H & _). congruence.
  - intros H. inversion H; subst st'. exact Ho.
Qed.

Lemma loop_keeps_offset_without_reset_witness :
  no_reset (Some " center "%string) = true /\
  exists st' : State,
    @loop coarse_libm 0 (Some " center "%string) true
          (state_with offset_30_40_50 [rotation_event q_identity]) = Some st' /\
    offset st' = offset_30_40_50.
Proof.
  split; [reflexivity|].
  assert (H : exists st', @loop coarse_libm 0 (Some " center "%string) true
                (state_with offset_30_40_50 [rotation_event q_identity]) = Some st').
  { vm_compute. eexists. reflexivity. }
  destruct H as (st' & H). exists st'. split; [exact H|].
  exact (loop_keeps_offset_without_reset coarse_libm 0 (Some " center "%string) true _ st' eq_refl H).
Defined.

(** * From angles to the joystick report *)

(** The magnitude [f2iz] computes is the integer part of [m * 2^e]. *)
Lemma magnitude_floor (m : positive) (e : Z) :
  let mag := if 0 <=? e then Z.shiftl (Z.pos m) e else Z.shiftr (Z.pos m) (- e) in
  0 <= mag /\ (IZR mag <= IZR (Z.pos m) * bpow e < IZR mag + 1)%R.
Proof.
  cbv zeta. destruct (0 <=? e) eqn:He.
  - apply Z.leb_le in He. rewrite Z.shiftl_mul_pow2 by exact He.
    assert (0 < 2 ^ e) by (apply Z.pow_pos_nonneg; lia).
    split; [nia|]. rewrite mult_IZR, <- bpow_IZR by exact He. lra.
  - apply Z.leb_gt in He. rewrite Z.shiftr_div_pow2 by lia.
    set (k := - e). assert (Hk : 0 < k) by (unfold k; lia).
    assert (Hp : 0 < 2 ^ k) by (apply Z.pow_pos_nonneg; lia).
    pose proof (Z.div_pos (Z.pos m) (2 ^ k) ltac:(lia) Hp) as Hq.
    pose proof (Z.mul_div_le (Z.pos m) (2 ^ k) Hp) as H1.
    pose proof (Z.mul_succ_div_gt (Z.pos m) (2 ^ k) Hp) as H2.
    set (q := Z.pos m / 2 ^ k) in *.
    split; [exact Hq|].
    replace e with (- k) by (unfold k; ring).
    rewrite bpow_opp, bpow_IZR by lia.
    assert (Hpr : (0 < IZR (2 ^ k))%R) by (apply IZR_lt; exact Hp).
    apply IZR_le in H1. apply IZR_lt in H2.
    rewrite mult_IZR in H1. rewrite mult_IZR, succ_IZR in H2.
    split.
    + apply Rmult_le_reg_r with (IZR (2 ^ k)); [exact Hpr|].
      rewrite Rmult_assoc, Rinv_l by lra. lra.
    + apply Rmult_lt_reg_r with (IZR (2 ^ k)); [exact Hpr|].
      rewrite Rmult_assoc, Rinv_l by lra. lra.
Qed.

(** [f2iz] truncates toward zero. *)
Lemma f2iz_truncates (x : float) (n : Z) :
  is_finite x = true -> 0 <= n < 2 ^ 31 -> (Rabs (F2R x) <= IZR n)%R ->
  - n <= f2iz x <= n /\
  (Rabs (IZR (f2iz x)) <= Rabs (F2R x))%R /\
  (Rabs (F2R x - IZR (f2iz x)) < 1)%R.
Proof.
  intros Hx Hn Hle. destruct x as [s|s| |s m e]; try discriminate.
  - simpl. rewrite Rminus_0_r, Rabs_R0. split; [lia|]. split; lra.
  - rewrite F2R_finite_abs in Hle.
    destruct (magnitude_floor m e) as (H0 & H1 & H2). cbv zeta in H0, H1, H2.
    unfold f2iz. cbv zeta. set (mag := if 0 <=? e then _ else _) in *.
    assert (Hmn : mag <= n) by (apply le_IZR; lra).
    change (2 ^ 31) with 2147483648 in *.
    assert (Hv : Z.max (- (2147483648)) (Z.min (2147483648 - 1) (if s then - mag else mag))
                 = if s then - mag else mag).
    { destruct s; lia. }
    rewrite Hv. unfold F2R.
    assert (HM0 : (0 <= IZR mag)%R) by (apply IZR_le; exact H0).
    set (M := (IZR (Z.pos m) * bpow e)%R) in *.
    destruct s; cbn [cond_Zopp].
    + change (Z.neg m) with (- Z.pos m). rewrite !opp_IZR.
      replace (- IZR (Z.pos m) * bpow e)%R with (- M)%R by (unfold M; ring).
      split; [lia|]. split.
      * rewrite !Rabs_Ropp, !Rabs_pos_eq by lra. lra.
      * apply Rabs_def1; lra.
    + fold M. split; [lia|]. split.
      * rewrite !Rabs_pos_eq by lra. lra.
      * apply Rabs_def1; lra.
Qed.

Lemma int8_of_small (z : Z) : -128 <= z <= 127 -> (z + 128) mod 256 - 128 = z.
Proof. intros H. rewrite Z.mod_small by lia. ring. Qed.

(** On [-180, 180] the mapped value lies in [-127, 127], within
    [2^-14] of the exact interpolation. *)
Lemma to_axis_bounds (a : float) :
  fv32 a = true -> (- 180 <= F2R a <= 180)%R ->
  fv32 (to_axis a) = true /\
  (- 127 <= F2R (to_axis a) <= 127)%R /\
  (Rabs (F2R (to_axis a) - linear_map (F2R a) (- 180) 180 (- 127) 127) <= bpow (- 14))%R.
Proof.
  intros Ha [Hlo Hhi]. rewrite to_axis_unfold. unfold linear_map.
  assert (H1 : rnd32 (F2R a - F2R (fneg f180)) (F32.sub a (fneg f180))).
  { apply F32_sub_ok with (bnd := f360); try assumption; try reflexivity.
    rewrite F2R_neg_f180, F2R_f360. apply Rabs_le. lra. }
  apply rnd32_interval with (lo := f0) (hi := f360) (E := 9) in H1;
    try reflexivity;
    [|rewrite F2R_f0, F2R_f360, F2R_neg_f180; lra
     |rewrite F2R_neg_f180, bpow_lit_9; apply Rabs_def1; lra].
  change (fexp F32.prec F32.emax 9 - 1) with (-16) in H1.
  rewrite F2R_f0, F2R_f360, F2R_neg_f180, bpow_lit_m16 in H1.
  destruct H1 as (V1 & B1 & E1). apply Rabs_le_inv in E1.
  set (t1 := F32.sub a (fneg f180)) in *.
  assert (H2 : rnd32 (F2R t1 * F2R f254) (F32.mul t1 f254)).
  { apply F32_mul_ok with (bnd := f91440); try assumption; try reflexivity.
    rewrite F2R_f254, F2R_f91440. apply Rabs_le. lra. }
  apply rnd32_interval with (lo := f0) (hi := f91440) (E := 17) in H2;
    try reflexivity;
    [|rewrite F2R_f0, F2R_f91440, F2R_f254; lra
     |rewrite F2R_f254, bpow_lit_17; apply Rabs_def1; lra].
  change (fexp F32.prec F32.emax 17 - 1) with (-8) in H2.
  rewrite F2R_f0, F2R_f91440, F2R_f254, bpow_lit_m8 in H2.
  destruct H2 as (V2 & B2 & E2). apply Rabs_le_inv in E2.
  set (t2 := F32.mul t1 f254) in *.
  assert (H3 : rnd32 (F2R t2 / F2R f360) (F32.div t2 f360)).
  { apply F32_div_ok with (bnd := f254); try assumption; try reflexivity.
    - rewrite F2R_f360. lra.
    - rewrite F2R_f360, F2R_f254. apply Rabs_le. lra. }
  apply rnd32_interval with (lo := f0) (hi := f254) (E := 8) in H3;
    try reflexivity;
    [|rewrite F2R_f0, F2R_f360, F2R_f254; lra
     |rewrite F2R_f360, bpow_8; apply Rabs_def1; lra].
  change (fexp F32.prec F32.emax 8 - 1) with (-17) in H3.
  rewrite F2R_f0, F2R_f360, F2R_f254, bpow_lit_m17 in H3.
  destruct H3 as (V3 & B3 & E3). apply Rabs_le_inv in E3.
  set (t3 := F32.div t2 f360) in *.
  assert (H4 : rnd32 (F2R t3 + F2R (fneg f127)) (F32.add t3 (fneg f127))).
  { apply F32_add_ok with (bnd := f127); try assumption; try reflexivity.
    rewrite F2R_neg_f127, F2R_f127. apply Rabs_le. lra. }
  apply rnd32_interval with (lo := fneg f127) (hi := f127) (E := 7) in H4;
    try reflexivity;
    [|rewrite F2R_neg_f127, F2R_f127; lra
     |rewrite F2R_neg_f127, bpow_lit_7; apply Rabs_def1; lra].
  change (fexp F32.prec F32.emax 7 - 1) with (-18) in H4.
  rewrite F2R_neg_f127, F2R_f127, bpow_lit_m18 in H4.
  destruct H4 as (V4 & B4 & E4). apply Rabs_le_inv in E4.
  split; [exact V4|]. split; [exact B4|].
  rewrite bpow_lit_m14. apply Rabs_le. lra.
Qed.

(** One axis of the report. *)
Lemma axis_of_wrapped (a : float) :
  wrapped a ->
  axis_ok (int8_of_float (to_axis a)) /\
  (Rabs (IZR (int8_of_float (to_axis a)) - linear_map (F2R a) (- 180) 180 (- 127) 127)
   < 1 + bpow (- 14))%R.
Proof.
  intros [Ha Hr]. destruct (to_axis_bounds a Ha Hr) as (V & B & E).
  destruct (f2iz_truncates (to_axis a) 127 (fv32_is_finite _ V) ltac:(lia)
              ltac:(apply Rabs_le; lra)) as (Hz & _ & Ht).
  unfold int8_of_float. rewrite int8_of_small by lia.
  split; [exact Hz|].
  apply Rabs_def2 in Ht. apply Rabs_le_inv in E. apply Rabs_def1; lra.
Qed.

Lemma axis_report_fits (e : EulerAngles) :
  wrapped (yaw e) -> wrapped (pitch e) -> wrapped (roll e) ->
  axis_ok (report_x (axis_report e)) /\ axis_ok (report_y (axis_report e)) /\
  axis_ok (report_z (axis_report e)).
Proof.
  intros Hy Hp Hr. unfold axis_report. cbn [report_x report_y report_z].
  destruct (axis_of_wrapped _ Hy) as [Y1 _].
  destruct (axis_of_wrapped _ Hp) as [P1 _].
  destruct (axis_of_wrapped _ Hr) as [R1 _].
  auto.
Qed.

(** X4.  For three wrapped angles, each axis of the joystick report
    is an integer between -127 and 127, less than [1 + 2^-14] away
    from the exact interpolation of its angle, and no button is
    pressed: the conversion to [int8_t] never overflows. *)
Theorem axis_report_fits_int8 (e : EulerAngles) :
  wrapped (yaw e) -> wrapped (pitch e) -> wrapped (roll e) ->
  let r := axis_report e in
  axis_ok (report_x r) /\ axis_ok (report_y r) /\ axis_ok (report_z r) /\
  report_buttons r = 0 /\
  (Rabs (IZR (report_x r) - linear_map (F2R (yaw e)) (- 180) 180 (- 127) 127)
   < 1 + bpow (- 14))%R /\
  (Rabs (IZR (report_y r) - linear_map (F2R (pitch e)) (- 180) 180 (- 127) 127)
   < 1 + bpow (- 14))%R /\
  (Rabs (IZR (report_z r) - linear_map (F2R (roll e)) (- 180) 180 (- 127) 127)
   < 1 + bpow (- 14))%R.
Proof.
  intros Hy Hp Hr. cbv zeta. unfold axis_report. cbn [report_x report_y report_z report_buttons].
  destruct (axis_of_wrapped _ Hy) as [Y1 Y2].
  destruct (axis_of_wrapped _ Hp) as [P1 P2].
  destruct (axis_of_wrapped _ Hr) as [R1 R2].
  split; [exact Y1|]. split; [exact P1|]. split; [exact R1|].
  split; [reflexivity|]. split; [exact Y2|]. split; [exact P2 | exact R2].
Qed.

Lemma wrapped_f90 : wrapped f90.
Proof. split; [reflexivity|]. unfold f90. F2R_unfold. pow_lit. lra. Qed.

Lemma axis_report_fits_int8_witness :
  wrapped f90 /\
  axis_ok (report_x (axis_report (mkEuler f90 f90 f90))) /\
  report_buttons (axis_report (mkEuler f90 f90 f90)) = 0.
Proof.
  split; [exact wrapped_f90|].
  pose proof (axis_report_fits_int8 (mkEuler f90 f90 f90)
                wrapped_f90 wrapped_f90 wrapped_f90) as (Hx & _ & _ & Hb & _).
  split; [exact Hx | exact Hb].
Defined.

(** * The wrap loops on the angles the sketch produces *)

Lemma F2R_f540 : F2R f540 = 540%R.
Proof. unfold f540. F2R_lit. Qed.

(** A difference within a turn and a half needs at most one step of
    one loop. *)
Lemma wrap_within_540 (d : float) :
  fv32 d = true -> (Rabs (F2R d) <= 540)%R ->
  exists r : float,
    (forall fuel, (1 <= fuel)%nat -> wrap fuel d = Some r) /\ wrapped r /\
    ((Rabs (F2R d) <= 180)%R -> r = d /\ forall fuel, wrap fuel d = Some d).
Proof.
  intros Hd Hle. apply Rabs_le_inv in Hle.
  destruct (Rle_lt_dec (F2R d) 180) as [Hhi|Hhi];
    [destruct (Rle_lt_dec (- 180) (F2R d)) as [Hlo|Hlo]|].
  - assert (Hw : forall fuel, wrap fuel d = Some d).
    { intros fuel. unfold wrap. rewrite wrap_down_stop.
      - apply wrap_up_stop. apply flt_false; try assumption; try reflexivity.
        rewrite F2R_neg_f180. exact Hlo.
      - apply flt_false; try assumption; try reflexivity. rewrite F2R_f180. exact Hhi. }
    exists d. split; [intros fuel _; apply Hw|]. split; [split; [exact Hd | lra]|].
    intros _. split; [reflexivity | exact Hw].
  - pose proof (add360_ok d Hd Hlo) as Hr.
    set (b := F32.add d f360) in *.
    assert (Vb : fv32 b = true) by exact (rnd_fv _ _ _ _ Hr).
    assert (B1 : (F2R b <= 180)%R).
    { rewrite <- F2R_f180. apply (rnd_le _ _ _ _ _ Hr); [reflexivity|].
      rewrite F2R_f180. lra. }
    assert (B2 : (- 180 <= F2R b)%R).
    { rewrite <- F2R_neg_f180. apply (rnd_ge _ _ _ _ _ Hr); [reflexivity|].
      rewrite F2R_neg_f180. lra. }
    exists b. split; [|split; [split; [exact Vb | lra]|]].
    + intros [|n] Hf; [lia|]. unfold wrap. rewrite wrap_down_stop.
      * rewrite wrap_up_go.
        -- apply wrap_up_stop. apply flt_false; try assumption; try reflexivity.
           rewrite F2R_neg_f180. exact B2.
        -- apply flt_true; try assumption; try reflexivity.
           rewrite F2R_neg_f180. exact Hlo.
      * apply flt_false; try assumption; try reflexivity. rewrite F2R_f180. lra.
    + intros H. apply Rabs_le_inv in H. lra.
  - pose proof (sub360_ok d Hd Hhi) as Hr.
    set (b := F32.sub d f360) in *.
    assert (Vb : fv32 b = true) by exact (rnd_fv _ _ _ _ Hr).
    assert (B1 : (F2R b <= 180)%R).
    { rewrite <- F2R_f180. apply (rnd_le _ _ _ _ _ Hr); [reflexivity|].
      rewrite F2R_f180. lra. }
    assert (B2 : (- 180 <= F2R b)%R).
    { rewrite <- F2R_neg_f180. apply (rnd_ge _ _ _ _ _ Hr); [reflexivity|].
      rewrite F2R_neg_f180. lra. }
    exists b. split; [|split; [split; [exact Vb | lra]|]].
    + intros [|n] Hf; [lia|]. unfold wrap. rewrite wrap_down_go.
      * fold b. rewrite wrap_down_stop.
        -- apply wrap_up_stop. apply flt_false; try assumption; try reflexivity.
           rewrite F2R_neg_f180. exact B2.
        -- apply flt_false; try assumption; try reflexivity.
           rewrite F2R_f180. exact B1.
      * apply flt_true; try assumption; try reflexivity. rewrite F2R_f180. exact Hhi.
    + intros H. apply Rabs_le_inv in H. lra.
Qed.

Lemma normalize_angle_once (raw off : float) :
  wrapped raw -> bounded_by 360 off ->
  exists r : float,
    (forall fuel, (1 <= fuel)%nat -> normalize_angle fuel raw off = Some r) /\
    wrapped r.
Proof.
  intros [Vr Br] [Vo Bo]. apply Rabs_le_inv in Bo.
  assert (H : rnd32 (F2R raw - F2R off) (F32.sub raw off)).
  { apply F32_sub_ok with (bnd := f540); try assumption; try reflexivity.
    rewrite F2R_f540. apply Rabs_le. lra. }
  apply rnd32_bounded with (b := f540) in H;
    [|reflexivity|rewrite F2R_f540; apply Rabs_le; lra].
  destruct H as [Vd Bd]. rewrite F2R_f540 in Bd.
  destruct (wrap_within_540 _ Vd Bd) as (r & Hr & Hw & _).
  exists r. split; [exact Hr | exact Hw].
Qed.

(** The three angles of a sane quaternion are wrapped angles. *)
Lemma euler_wrapped (L : Libm) (q : Quaternion) :
  LibmSpec L -> sane q ->
  wrapped (yaw (quat_to_euler q)) /\ wrapped (pitch (quat_to_euler q)) /\
  wrapped (roll (quat_to_euler q)).
Proof.
  intros HL [Hf Hs]. unfold quat_to_euler. cbn [yaw pitch roll].
  destruct (normalize_accuracy q Hf Hs) as [Vc Bc].
  destruct (normalize q) as [w x y z].
  destruct (finite_quat_inv w x y z Vc) as (Hw & Hx & Hy & Hz).
  destruct (components_bounded w x y z Bc) as (Bw & Bx & By & Bz).
  destruct (yaw_bounded HL w x y z Hw Hx Hy Hz Bw Bx By Bz) as [Vy Ry].
  destruct (pitch_bounded HL w x y z Hw Hx Hy Hz Bw Bx By Bz) as [Vp Rp].
  destruct (roll_bounded HL w x y z Hw Hx Hy Hz Bw Bx By Bz) as [Vr Rr].
  apply Rabs_le_inv in Ry, Rp, Rr. unfold wrapped.
  repeat split; try assumption; lra.
Qed.

(** X5.  Whenever the Angle Normalizer returns, on numbers, infinities
    or NaN, its result is NaN or a number between -180 and 180: never
    an infinity, never an angle out of range. *)
Theorem normalize_angle_result_nan_or_wrapped (fuel : nat) (raw offset r : float) :
  F32.valid raw = true -> F32.valid offset = true ->
  normalize_angle fuel raw offset = Some r ->
  r = S754_nan \/ wrapped r.
Proof.
  intros Hr Ho H. unfold normalize_angle in H.
  pose proof (SFsub_valid_any raw offset Hr Ho) as Hv.
  destruct (valid_cases _ Hv) as [Hd | [E | [E | E]]].
  - right. unfold wrap in H.
    destruct (wrap_down fuel (F32.sub raw offset)) as [b|] eqn:Hb; [|discriminate].
    destruct (wrap_down_inv fuel _ b Hd Hb) as [Vb Bb].
    exact (wrap_up_inv fuel b r Vb Bb H).
  - left. rewrite E, wrap_nan in H. congruence.
  - rewrite E in H. unfold wrap in H. rewrite wrap_down_pinf in H. discriminate.
  - rewrite E in H. unfold wrap in H.
    rewrite wrap_down_stop in H by reflexivity. rewrite wrap_up_ninf in H. discriminate.
Qed.

Lemma normalize_angle_result_nan_or_wrapped_witness :
  F32.valid f540 = true /\ F32.valid f0 = true /\
  normalize_angle 1 f540 f0 = Some f180 /\
  (f180 = S754_nan \/ wrapped f180).
Proof.
  split; [reflexivity|]. split; [reflexivity|]. split; [reflexivity|].
  exact (normalize_angle_result_nan_or_wrapped 1 f540 f0 f180 eq_refl eq_refl eq_refl).
Defined.

(** A sane sample is processed as soon as each wrap loop may run
    once. *)
Lemma process_sample_sane (L : Libm) (fuel : nat) (usb : bool) (st : State) :
  LibmSpec L -> sane (rotationVector (sensorValue st)) -> offset_ok (offset st) ->
  (1 <= fuel)%nat ->
  exists st' : State,
    process_sample fuel usb st = Some st' /\
    report_ok (gamepad_report st') /\
    sent st' = (if usb then sent st ++ [gamepad_report st'] else sent st) /\
    bno st' = bno st /\ offset st' = offset st.
Proof.
  intros HL Hq (Oy & Op & Or) Hf. unfold process_sample.
  destruct (euler_wrapped L _ HL Hq) as (Wy & Wp & Wr).
  destruct (normalize_angle_once _ _ Wy Oy) as (ry & Hy & Wy').
  destruct (normalize_angle_once _ _ Wp Op) as (rp & Hp & Wp').
  destruct (normalize_angle_once _ _ Wr Or) as (rr & Hrr & Wr').
  unfold normalize_angles. rewrite (Hy fuel Hf), (Hp fuel Hf), (Hrr fuel Hf).
  eexists. split; [reflexivity|]. cbn [gamepad_report sent bno offset].
  destruct (axis_report_fits (mkEuler ry rp rr) Wy' Wp' Wr') as (Ax & Ay & Az).
  split; [|split; [reflexivity|split; reflexivity]].
  split; [exact Ax|]. split; [exact Ay|]. split; [exact Az | reflexivity].
Qed.

(** X6.  With a math library meeting [LibmSpec], offsets of at most a
    full turn and a sane quaternion polled, a pass of [loop] without
    reset command ends as soon as each wrap loop may run once: it
    stores a report whose axes lie between -127 and 127 and hands it to
    the USB stack when that is ready. *)
Theorem loop_reports_sane_sample
    (L : Libm) (fuel : nat) (line : option string) (usb : bool)
    (st : State) (q : Quaternion) (rest : list (option sh2_SensorValue_t)) :
  LibmSpec L -> no_reset line = true ->
  bno st = rotation_event q :: rest -> sane q -> offset_ok (offset st) ->
  (1 <= fuel)%nat ->
  exists st' : State,
    loop fuel line usb st = Some st' /\
    axis_ok (report_x (gamepad_report st')) /\
    axis_ok (report_y (gamepad_report st')) /\
    axis_ok (report_z (gamepad_report st')) /\
    sent st' = (if usb then sent st ++ [gamepad_report st'] else sent st) /\
    bno st' = rest /\ offset st' = offset st.
Proof.
  intros HL Hr Hb Hq Ho Hf.
  rewrite loop_unfold, Hr. cbv zeta.
  assert (Hn : next_is_rotation st = true) by (unfold next_is_rotation; rewrite Hb; reflexivity).
  rewrite Hn. unfold getSensorEvent, rotation_event in *. rewrite Hb. cbn [snd].
  destruct (process_sample_sane L fuel usb
              (mkState (offset st) (mkSensorValue SH2_ROTATION_VECTOR 0 q)
                       (gamepad_report st) rest (sent st)) HL Hq Ho Hf)
    as (st' & H & (Ax & Ay & Az & _) & Hs & Hb' & Ho').
  cbn [sent bno offset] in Hs, Hb', Ho'.
  exists st'. split; [exact H|]. split; [exact Ax|]. split; [exact Ay|].
  split; [exact Az|]. split; [exact Hs|]. split; [exact Hb' | exact Ho'].
Qed.

Lemma sane_identity : sane q_identity.
Proof.
  split; [reflexivity|]. rewrite sumsq_identity. exact unit_in_domain.
Qed.

Lemma offset_ok_30_40_50 : offset_ok offset_30_40_50.
Proof.
  unfold offset_ok, bounded_by, offset_30_40_50. cbn [yaw_offset pitch_offset roll_offset].
  repeat split; try reflexivity; apply Rabs_le;
    unfold f30, f40, f50; F2R_unfold; pow_lit; lra.
Qed.

Lemma loop_reports_sane_sample_witness :
  exists st' : State,
    @loop coarse_libm 1 None true
          (state_with offset_30_40_50 [rotation_event q_identity]) = Some st' /\
    axis_ok (report_x (gamepad_report st')) /\
    sent st' = [] ++ [gamepad_report st'].
Proof.
  destruct (loop_reports_sane_sample coarse_libm 1 None true
              (state_with offset_30_40_50 [rotation_event q_identity])
              q_identity [] coarse_libm_spec eq_refl eq_refl
              sane_identity offset_ok_30_40_50 (le_n 1))
    as (st' & H & Hx & _ & _ & Hs & _).
  exists st'. split; [exact H|]. split; [exact Hx | exact Hs].
Defined.

(** * Polls of [resetView] and [initialCenter] *)

Section Polls.
Context {L : Libm}.

Lemma resetView_for_polls (n : nat) : forall st s,
  bno (fst (resetView_for n (st, s))) = skipn n (bno st) /\
  gamepad_report (fst (resetView_for n (st, s))) = gamepad_report st.
Proof.
  induction n as [|k IH]; intros st s; [split; reflexivity|].
  cbn [resetView_for]. unfold resetView_body, getSensorEvent, is_rotation_vector.
  destruct (bno st) as [|[v|] rest] eqn:Hb.
  - cbn [andb]. destruct (IH st s) as [H1 H2]. rewrite H1, H2, Hb.
    split; [destruct k; reflexivity | reflexivity].
  - cbn [andb sensorValue]. destruct (sensorId v =? SH2_ROTATION_VECTOR);
      match goal with |- context [resetView_for k (?a, ?b)] =>
        destruct (IH a b) as [H1 H2]; rewrite H1, H2 end; split; reflexivity.
  - cbn [andb].
    match goal with |- context [resetView_for k (?a, ?b)] =>
      destruct (IH a b) as [H1 H2]; rewrite H1, H2 end; split; reflexivity.
Qed.

Lemma resetView_polls (st : State) :
  bno (resetView st) = skipn 10 (bno st) /\
  gamepad_report (resetView st) = gamepad_report st.
Proof.
  destruct (resetView_for_polls 10 st (mkSums f0 f0 f0)) as [H1 H2].
  rewrite <- H1, <- H2. unfold resetView.
  change (Z.to_nat samples) with 10%nat.
  destruct (resetView_for 10 (st, mkSums f0 f0 f0)) as [st1 s]. split; reflexivity.
Qed.

End Polls.

(** X7.  [resetView] polls the sensor exactly ten times, whether the
    polls deliver a sample or not; it sends no report and leaves the
    joystick report as it is. *)
Theorem resetView_polls_ten_times (L : Libm) (st : State) :
  bno (resetView st) = skipn 10 (bno st) /\
  gamepad_report (resetView st) = gamepad_report st /\
  sent (resetView st) = sent st.
Proof.
  destruct (resetView_polls st) as [H1 H2].
  split; [exact H1|]. split; [exact H2 | apply resetView_sent].
Qed.

(** X8.  [initialCenter] polls the sensor eleven times and the sample
    of its first poll never reaches the offsets: they are the sums over
    the rotation-vector samples of polls 2 to 11, divided by 10. *)
Theorem initialCenter_discards_first_poll (L : Libm) (st : State) :
  let s := fold_left add_sample (fetched 10 (tl (bno st))) (mkSums f0 f0 f0) in
  offset (initialCenter st) =
    mkOffset (F32.div (yaw_sum s) f10) (F32.div (pitch_sum s) f10)
             (F32.div (roll_sum s) f10) /\
  bno (initialCenter st) = skipn 11 (bno st) /\
  sent (initialCenter st) = sent st.
Proof.
  cbv zeta. unfold initialCenter.
  pose proof (getSensorEvent_bno st) as Hb.
  destruct (getSensorEvent_keeps st) as (_ & _ & Hs).
  destruct (getSensorEvent st) as [got st1]. cbn [snd] in Hb, Hs.
  rewrite resetView_offset. cbv zeta. rewrite Hb.
  split; [reflexivity|].
  destruct (resetView_polls st1) as [H1 _].
  rewrite H1, Hb, resetView_sent, Hs.
  split; [|reflexivity].
  destruct (bno st) as [|ev rest]; reflexivity.
Qed.

(** * The serial command *)

Section Command.
Local Open Scope string_scope.

Lemma trim_left_spaces (pre s : string) :
  all_space pre = true -> trim_left (pre ++ s) = trim_left s.
Proof.
  induction pre as [|c r IH]; intros H; [reflexivity|].
  cbn [all_space] in H. apply andb_prop in H. destruct H as [Hc Hr].
  cbn [append trim_left]. rewrite Hc. apply IH. exact Hr.
Qed.

Lemma trim_right_all_space (s : string) : all_space s = true -> trim_right s = "".
Proof.
  induction s as [|c r IH]; intros H; [reflexivity|].
  cbn [all_space] in H. apply andb_prop in H. destruct H as [Hc Hr].
  cbn [trim_right]. rewrite (IH Hr), Hc. reflexivity.
Qed.

Lemma trim_right_spaces (s post : string) :
  all_space post = true -> trim_right (s ++ post) = trim_right s.
Proof.
  intros H. induction s as [|c r IH].
  - cbn [append]. apply trim_right_all_space. exact H.
  - cbn [append trim_right]. rewrite IH. reflexivity.
Qed.

Lemma trim_left_split (s : string) :
  exists pre, all_space pre = true /\ s = pre ++ trim_left s.
Proof.
  induction s as [|c r IH].
  - exists "". split; reflexivity.
  - cbn [trim_left]. destruct (is_space c) eqn:Hc.
    + destruct IH as (pre & Hp & E). exists (String c pre). split.
      * cbn [all_space]. rewrite Hc, Hp. reflexivity.
      * cbn [append]. rewrite <- E. reflexivity.
    + exists "". split; reflexivity.
Qed.

Lemma trim_right_empty (s : string) : trim_right s = "" -> all_space s = true.
Proof.
  induction s as [|c r IH]; [reflexivity|].
  cbn [trim_right all_space].
  destruct (trim_right r) as [|c' r'] eqn:E.
  - destruct (is_space c); [intros _; rewrite IH; reflexivity | discriminate].
  - discriminate.
Qed.

Lemma trim_right_split (s : string) :
  exists post, all_space post = true /\ s = trim_right s ++ post.
Proof.
  induction s as [|c r IH].
  - exists "". split; reflexivity.
  - cbn [trim_right]. destruct IH as (post & Hp & E).
    destruct (trim_right r) as [|c' r'] eqn:Er.
    + cbn [append] in E. subst r. destruct (is_space c) eqn:Hc.
      * exists (String c post). split; [cbn [all_space]; rewrite Hc, Hp|]; reflexivity.
      * exists post. split; [exact Hp | reflexivity].
    + exists post. split; [exact Hp|]. cbn [append]. rewrite E at 1. reflexivity.
Qed.

Lemma trimmed_padded (s : string) : padded (trim_right (trim_left s)) s.
Proof.
  destruct (trim_left_split s) as (pre & Hpre & E1).
  destruct (trim_right_split (trim_left s)) as (post & Hpost & E2).
  exists pre, post. split; [exact Hpre|]. split; [exact Hpost|].
  rewrite <- E2. exact E1.
Qed.

Lemma padded_trimmed (word s : string) :
  trim_left word = word -> (forall post, trim_left (word ++ post) = word ++ post) ->
  trim_right word = word ->
  padded word s -> trim_right (trim_left s) = word.
Proof.
  intros _ H1 H2 (pre & post & Hpre & Hpost & E). subst s.
  rewrite trim_left_spaces by exact Hpre. rewrite H1.
  rewrite trim_right_spaces by exact Hpost. exact H2.
Qed.

End Command.

(** X9.  The serial line triggers a recentering exactly when it is
    the word [reset] or [resetview], in lower case, possibly between
    leading and trailing white space (blank, tab, line feed, vertical
    tab, form feed, carriage return). *)
Theorem reset_command_iff_padded_word (command : string) :
  is_reset_command command = true <->
  padded "reset" command \/ padded "resetview" command.
Proof.
  unfold is_reset_command. cbv zeta. split.
  - intros H. apply orb_prop in H. pose proof (trimmed_padded command) as P.
    destruct H as [H|H]; apply String.eqb_eq in H; rewrite H in P; [left | right]; exact P.
  - intros [P|P].
    + rewrite (padded_trimmed "reset" command); try reflexivity. exact P.
    + rewrite (padded_trimmed "resetview" command); try reflexivity. exact P.
Qed.

(** * [mapFloat] at the ends of its input range *)

Lemma sub_self (a : float) :
  F32.sub a a = S754_zero false \/ F32.sub a a = S754_nan.
Proof.
  unfold F32.sub. destruct a as [[]|[]| |s m e]; cbn [SFsub]; auto.
  left. rewrite Z.sub_diag. reflexivity.
Qed.

Lemma div_by_zero_not_finite (n : float) (s : bool) :
  is_finite (F32.div n (S754_zero s)) = false.
Proof. destruct n as [sn|sn| |sn mn en]; reflexivity. Qed.

Lemma div_by_nan (n : float) : F32.div n S754_nan = S754_nan.
Proof. destruct n; reflexivity. Qed.

Lemma add_not_finite (q c : float) :
  is_finite q = false -> is_finite (F32.add q c) = false.
Proof.
  destruct q as [sq|sq| |sq mq eq]; try discriminate; intros _.
  - destruct c as [sc|sc| |sc mc ec]; try reflexivity. destruct sq, sc; reflexivity.
  - destruct c; reflexivity.
Qed.

(** X10.  [mapFloat] does not guard its division: when [in_min] and
    [in_max] are the same number, the result is an infinity or NaN,
    whatever the other arguments. *)
Theorem mapFloat_empty_input_range (x a out_min out_max : float) :
  is_finite (mapFloat x a a out_min out_max) = false.
Proof.
  unfold mapFloat. apply add_not_finite.
  destruct (sub_self a) as [E|E]; rewrite E.
  - apply div_by_zero_not_finite.
  - rewrite div_by_nan. reflexivity.
Qed.

(** A rounding of zero is zero. *)
Lemma rnd32_zero (v : R) (r : float) : rnd32 v r -> v = 0%R -> fv32 r = true /\ F2R r = 0%R.
Proof.
  intros H Hv. split; [exact (rnd_fv _ _ _ _ H)|].
  rewrite <- Hv. apply (rnd_ok_exact 24 128 v r f0 H); [reflexivity|].
  rewrite Hv. reflexivity.
Qed.

(** X11.  With numbers as arguments, [in_min] different from [in_max]
    and both ranges of width at most [2^100], [mapFloat] maps [in_min]
    to [out_min] exactly. *)
Theorem mapFloat_at_in_min (in_min in_max out_min out_max : float) :
  fv32 in_min = true -> fv32 in_max = true ->
  fv32 out_min = true -> fv32 out_max = true ->
  F2R in_min <> F2R in_max ->
  (Rabs (F2R in_max - F2R in_min) <= F2R f2p100)%R ->
  (Rabs (F2R out_max - F2R out_min) <= F2R f2p100)%R ->
  fv32 (mapFloat in_min in_min in_max out_min out_max) = true /\
  F2R (mapFloat in_min in_min in_max out_min out_max) = F2R out_min.
Proof.
  intros Va Vb Vc Vd Hne Hin Hout. unfold mapFloat.
  (* x - in_min *)
  assert (H1 : rnd32 (F2R in_min - F2R in_min) (F32.sub in_min in_min)).
  { apply F32_sub_ok with (bnd := f0); try assumption; try reflexivity.
    rewrite F2R_f0. replace (F2R in_min - F2R in_min)%R with 0%R by ring.
    rewrite Rabs_R0. lra. }
  destruct (rnd32_zero _ _ H1 ltac:(ring)) as [V1 Z1].
  set (t1 := F32.sub in_min in_min) in *.
  (* out_max - out_min *)
  assert (H2 : rnd32 (F2R out_max - F2R out_min) (F32.sub out_max out_min)).
  { apply F32_sub_ok with (bnd := f2p100); try assumption; reflexivity. }
  pose proof (rnd_fv _ _ _ _ H2) as V2.
  set (t2 := F32.sub out_max out_min) in *.
  (* product *)
  assert (H3 : rnd32 (F2R t1 * F2R t2) (F32.mul t1 t2)).
  { apply F32_mul_ok with (bnd := f0); try assumption; try reflexivity.
    rewrite Z1, Rmult_0_l, Rabs_R0, F2R_f0. lra. }
  destruct (rnd32_zero _ _ H3 ltac:(rewrite Z1; ring)) as [V3 Z3].
  set (t3 := F32.mul t1 t2) in *.
  (* in_max - in_min *)
  assert (H4 : rnd32 (F2R in_max - F2R in_min) (F32.sub in_max in_min)).
  { apply F32_sub_ok with (bnd := f2p100); try assumption; reflexivity. }
  pose proof (rnd_fv _ _ _ _ H4) as V4.
  assert (N4 : F2R (F32.sub in_max in_min) <> 0%R).
  { pose proof (SFsub_rel_error 24 128 eq_refl eq_refl in_max in_min f2p100 Vb Va eq_refl Hin)
      as E.
    change (SFsub 24 128 in_max in_min) with (F32.sub in_max in_min) in E.
    change (bpow (- (24))) with (bpow (-24)) in E. rewrite bpow_lit_m24 in E.
    intros Hz. rewrite Hz in E.
    replace (0 - (F2R in_max - F2R in_min))%R with (- (F2R in_max - F2R in_min))%R in E by ring.
    rewrite Rabs_Ropp in E.
    assert (0 < Rabs (F2R in_max - F2R in_min))%R by (apply Rabs_pos_lt; lra).
    lra. }
  set (t4 := F32.sub in_max in_min) in *.
  (* quotient *)
  assert (H5 : rnd32 (F2R t3 / F2R t4) (F32.div t3 t4)).
  { apply F32_div_ok with (bnd := f0); try assumption; try reflexivity.
    rewrite Z3. unfold Rdiv. rewrite Rmult_0_l, Rabs_R0, F2R_f0. lra. }
  destruct (rnd32_zero _ _ H5 ltac:(rewrite Z3; unfold Rdiv; ring)) as [V5 Z5].
  set (t5 := F32.div t3 t4) in *.
  (* + out_min *)
  assert (H6 : rnd32 (F2R t5 + F2R out_min) (F32.add t5 out_min)).
  { apply F32_add_ok with (bnd := fabsf out_min); try assumption.
    - rewrite fv32_abs. exact Vc.
    - unfold fabsf. rewrite F2R_abs, Z5, Rplus_0_l. lra. }
  split; [exact (rnd_fv _ _ _ _ H6)|].
  rewrite (rnd_ok_exact 24 128 _ _ out_min H6 Vc); rewrite Z5; ring.
Qed.

Lemma mapFloat_at_in_min_witness :
  fv32 (mapFloat f30 f30 f90 f18 f50) = true /\
  F2R (mapFloat f30 f30 f90 f18 f50) = F2R f18.
Proof.
  apply (mapFloat_at_in_min f30 f90 f18 f50); try reflexivity.
  - unfold f30, f90. F2R_unfold. pow_lit. lra.
  - unfold f30, f90, f2p100. F2R_unfold. pow_lit. apply Rabs_le. lra.
  - unfold f18, f50, f2p100. F2R_unfold. pow_lit. apply Rabs_le. lra.
Defined.

(** * The sums of [resetView] *)

Lemma F2R_PI : F2R PI = (7074237752028440 / 2251799813685248)%R.
Proof. unfold PI. F2R_unfold. pow_lit. lra. Qed.

Lemma F2R_d1024 : F2R d1024 = 1024%R.
Proof. unfold d1024. F2R_lit. Qed.

Lemma F2R_d2048 : F2R d2048 = 2048%R.
Proof. unfold d2048. F2R_lit. Qed.

Lemma bpow_lit_10 : bpow 10 = 1024%R.
Proof. rewrite bpow_pos_lit. pow_lit. reflexivity. Qed.

Lemma bpow_lit_11 : bpow 11 = 2048%R.
Proof. rewrite bpow_pos_lit. pow_lit. reflexivity. Qed.

Lemma bpow_lit_m13 : bpow (-13) = (/ 8192)%R.
Proof. rewrite bpow_neg_lit. pow_lit. reflexivity. Qed.

Lemma bpow_lit_m43 : bpow (-43) = (/ 8796093022208)%R.
Proof. rewrite bpow_neg_lit. pow_lit. reflexivity. Qed.

(** A rounding of a real below [2^E]: a number within half an ulp. *)
Lemma rnd32_near (v : R) (r : float) (E : Z) :
  rnd32 v r -> (Rabs v < bpow E)%R ->
  fv32 r = true /\ (Rabs (F2R r - v) <= bpow (fexp F32.prec F32.emax E - 1))%R.
Proof.
  intros H HE. split; [exact (rnd_fv _ _ _ _ H) | exact (rnd_half_ulp _ _ _ _ E H HE)].
Qed.

Lemma rnd64_near (v : R) (r : double) (E : Z) :
  rnd64 v r -> (Rabs v < bpow E)%R ->
  fv64 r = true /\ (Rabs (F2R r - v) <= bpow (fexp F64.prec F64.emax E - 1))%R.
Proof.
  intros H HE. split; [exact (rnd_fv _ _ _ _ H) | exact (rnd_half_ulp _ _ _ _ E H HE)].
Qed.

(** One step [sum += a * 180.0f / PI]: the new sum is within [2^-13]
    of the old sum plus the angle in degrees. *)
Lemma accumulate_degrees_accuracy (s a : float) :
  fv32 s = true -> (Rabs (F2R s) <= 1800)%R ->
  fv32 a = true -> (Rabs (F2R a) <= 4)%R ->
  fv32 (accumulate_degrees s a) = true /\
  (Rabs (F2R (accumulate_degrees s a) - (F2R s + degrees a)) <= bpow (-13))%R.
Proof.
  intros Vs Bs Va Ba. unfold accumulate_degrees, degrees.
  apply Rabs_le_inv in Bs, Ba.
  pose proof deg_per_rad_bounds as Hc.
  set (c := (180 / Rtrigo1.PI)%R) in *.
  (* a * 180.0f *)
  assert (H1 : rnd32 (F2R a * F2R f180) (F32.mul a f180)).
  { apply F32_mul_ok with (bnd := f2p100); try assumption; try reflexivity.
    rewrite F2R_f180, F2R_f2p100. apply Rabs_le. lra. }
  apply rnd32_near with (E := 10) in H1;
    [|rewrite F2R_f180, bpow_lit_10; apply Rabs_def1; lra].
  change (fexp F32.prec F32.emax 10 - 1) with (-15) in H1.
  rewrite F2R_f180, bpow_lit_m15 in H1. destruct H1 as [V1 E1]. apply Rabs_le_inv in E1.
  set (t1 := F32.mul a f180) in *.
  (* promotion *)
  assert (H2 : rnd64 (F2R t1) (F64.of_spec t1)).
  { apply (conv_rnd_ok 53 1024 eq_refl eq_refl t1 d1024);
      [apply fv32_is_finite; exact V1 | reflexivity
      | rewrite F2R_d1024; apply Rabs_le; lra]. }
  apply rnd64_near with (E := 10) in H2; [|rewrite bpow_lit_10; apply Rabs_def1; lra].
  change (fexp F64.prec F64.emax 10 - 1) with (-44) in H2.
  destruct H2 as [V2 E2].
  assert (E2' : (Rabs (F2R (F64.of_spec t1) - F2R t1) <= / 8796093022208)%R).
  { eapply Rle_trans; [exact E2|]. rewrite <- bpow_lit_m43. apply bpow_le. lia. }
  clear E2. apply Rabs_le_inv in E2'.
  set (T1 := F64.of_spec t1) in *.
  (* / PI *)
  assert (HPI : (F2R PI <> 0)%R) by (rewrite F2R_PI; lra).
  set (q0 := (F2R T1 / F2R PI)%R).
  assert (Hq0 : (q0 * (7074237752028440 / 2251799813685248) = F2R T1)%R).
  { unfold q0. rewrite <- F2R_PI. field. exact HPI. }
  assert (H3 : rnd64 q0 (F64.div T1 PI)).
  { apply (SFdiv_rnd_ok 53 1024 eq_refl eq_refl T1 PI d1024); try assumption;
      try reflexivity.
    fold q0. rewrite F2R_d1024. apply Rabs_le. lra. }
  apply rnd64_near with (E := 10) in H3; [|rewrite bpow_lit_10; apply Rabs_def1; lra].
  change (fexp F64.prec F64.emax 10 - 1) with (-44) in H3.
  destruct H3 as [V3 E3].
  assert (E3' : (Rabs (F2R (F64.div T1 PI) - q0) <= / 8796093022208)%R).
  { eapply Rle_trans; [exact E3|]. rewrite <- bpow_lit_m43. apply bpow_le. lia. }
  clear E3. apply Rabs_le_inv in E3'.
  set (Q := F64.div T1 PI) in *.
  (* promotion of the sum *)
  assert (H4 : rnd64 (F2R s) (F64.of_spec s)).
  { apply (conv_rnd_ok 53 1024 eq_refl eq_refl s d2048);
      [apply fv32_is_finite; exact Vs | reflexivity
      | rewrite F2R_d2048; apply Rabs_le; lra]. }
  apply rnd64_near with (E := 11) in H4; [|rewrite bpow_lit_11; apply Rabs_def1; lra].
  change (fexp F64.prec F64.emax 11 - 1) with (-43) in H4.
  rewrite bpow_lit_m43 in H4. destruct H4 as [V4 E4]. apply Rabs_le_inv in E4.
  set (S64 := F64.of_spec s) in *.
  (* addition *)
  assert (H5 : rnd64 (F2R S64 + F2R Q) (F64.add S64 Q)).
  { apply (SFadd_rnd_ok 53 1024 eq_refl eq_refl S64 Q d2048); try assumption;
      try reflexivity.
    rewrite F2R_d2048. apply Rabs_le. lra. }
  apply rnd64_near with (E := 11) in H5; [|rewrite bpow_lit_11; apply Rabs_def1; lra].
  change (fexp F64.prec F64.emax 11 - 1) with (-43) in H5.
  rewrite bpow_lit_m43 in H5. destruct H5 as [V5 E5]. apply Rabs_le_inv in E5.
  set (A := F64.add S64 Q) in *.
  (* assignment *)
  assert (H6 : rnd32 (F2R A) (F32.of_spec A)).
  { apply (conv_rnd_ok 24 128 eq_refl eq_refl A f2p100);
      [apply fv64_is_finite; exact V5 | reflexivity
      | rewrite F2R_f2p100; apply Rabs_le; lra]. }
  apply rnd32_near with (E := 11) in H6; [|rewrite bpow_lit_11; apply Rabs_def1; lra].
  change (fexp F32.prec F32.emax 11 - 1) with (-14) in H6.
  rewrite bpow_lit_m14 in H6. destruct H6 as [V6 E6]. apply Rabs_le_inv in E6.
  split; [exact V6|].
  (* the constant *)
  assert (E7 : (Rabs (F2R a * (180 / (7074237752028440 / 2251799813685248) - c))
                <= 4 * (2 / 1000000))%R).
  { apply Rabs_mult_le; apply Rabs_le; lra. }
  apply Rabs_le_inv in E7.
  replace (F2R a * (180 / (7074237752028440 / 2251799813685248) - c))%R
    with (F2R a * (180 / (7074237752028440 / 2251799813685248)) - F2R a * c)%R
    in E7 by ring.
  rewrite bpow_lit_m13. apply Rabs_le. lra.
Qed.

Lemma F2R_pi_f : F2R pi_f = (13176795 / 4194304)%R.
Proof. unfold pi_f. F2R_unfold. pow_lit. lra. Qed.

Lemma F2R_f10 : F2R f10 = 10%R.
Proof. F2R_lit. Qed.

Lemma F2R_f181 : F2R f181 = 181%R.
Proof. unfold f181. F2R_lit. Qed.

Lemma radian_le_4 (a : float) : radian a -> (Rabs (F2R a) <= 4)%R.
Proof. intros [_ H]. rewrite F2R_pi_f in H. lra. Qed.

(** An angle of at most [pi_f] is at most 180.0001 degrees. *)
Lemma degrees_bound (a : float) : radian a -> (Rabs (degrees a) <= 180 + / 10000)%R.
Proof.
  intros [_ H]. rewrite F2R_pi_f in H. unfold degrees.
  pose proof deg_per_rad_bounds as Hc.
  eapply Rle_trans; [apply (Rabs_mult_le _ _ _ (57295781 / 1000000) H)|lra].
  apply Rabs_le. lra.
Qed.

(** The sum of at most ten angles stays below 180.001 degrees per
    angle. *)
Lemma accumulate_list_bounded (l : list float) : forall (s : float) (k : nat),
  Forall radian l -> (k + List.length l <= 10)%nat ->
  fv32 s = true -> (Rabs (F2R s) <= (180 + / 1000) * INR k)%R ->
  fv32 (fold_left accumulate_degrees l s) = true /\
  (Rabs (F2R (fold_left accumulate_degrees l s))
   <= (180 + / 1000) * INR (k + List.length l))%R.
Proof.
  induction l as [|a l IH]; intros s k Hl Hk Vs Bs.
  - cbn [fold_left List.length]. rewrite Nat.add_0_r. split; assumption.
  - cbn [fold_left List.length] in *. inversion Hl as [|a' l' Ha Hl']; subst.
    assert (Hk9 : (INR k <= 9)%R).
    { replace 9%R with (INR 9) by (simpl; lra). apply le_INR. lia. }
    assert (Hk0 : (0 <= INR k)%R) by apply pos_INR.
    destruct (accumulate_degrees_accuracy s a Vs ltac:(lra) (proj1 Ha) (radian_le_4 a Ha))
      as [V E].
    pose proof (degrees_bound a Ha) as D.
    rewrite bpow_lit_m13 in E. apply Rabs_le_inv in E, D, Bs.
    replace (k + S (List.length l))%nat with (S k + List.length l)%nat by lia.
    apply IH; try assumption; [lia|].
    rewrite S_INR. apply Rabs_le. lra.
Qed.

(** Ten times the same angle: the sum is within [n * 2^-13] of [n]
    times the angle in degrees. *)
Lemma accumulate_repeat (a : float) (n : nat) : forall (s : float) (k : nat),
  radian a -> (k + n <= 10)%nat ->
  fv32 s = true ->
  (Rabs (F2R s - INR k * degrees a) <= INR k * bpow (-13))%R ->
  fv32 (fold_left accumulate_degrees (repeat a n) s) = true /\
  (Rabs (F2R (fold_left accumulate_degrees (repeat a n) s) - INR (k + n) * degrees a)
   <= INR (k + n) * bpow (-13))%R.
Proof.
  induction n as [|n IH]; intros s k Ha Hk Vs Bs.
  - cbn [repeat fold_left]. rewrite Nat.add_0_r. split; assumption.
  - cbn [repeat fold_left].
    assert (Hk9 : (INR k <= 9)%R).
    { replace 9%R with (INR 9) by (simpl; lra). apply le_INR. lia. }
    assert (Hk0 : (0 <= INR k)%R) by apply pos_INR.
    pose proof (degrees_bound a Ha) as D.
    assert (P : (Rabs (INR k * degrees a) <= 9 * (180 + / 10000))%R).
    { apply Rabs_mult_le; [rewrite Rabs_pos_eq; lra | exact D]. }
    rewrite bpow_lit_m13 in *. apply Rabs_le_inv in Bs, P, D.
    destruct (accumulate_degrees_accuracy s a Vs ltac:(apply Rabs_le; lra)
                (proj1 Ha) (radian_le_4 a Ha)) as [V E].
    rewrite bpow_lit_m13 in E. apply Rabs_le_inv in E.
    replace (k + S n)%nat with (S k + n)%nat by lia.
    apply IH; try assumption; [lia|].
    rewrite S_INR.
    replace ((INR k + 1) * degrees a)%R with (INR k * degrees a + degrees a)%R by ring.
    apply Rabs_le. lra.
Qed.

Section Sums.
Context {L : Libm}.

Lemma yaw_sum_fold (l : list Quaternion) : forall s,
  yaw_sum (fold_left add_sample l s) =
  fold_left accumulate_degrees (map (fun q => yaw_rad (normalize q)) l) (yaw_sum s).
Proof. induction l as [|q l IH]; intros s; [reflexivity|]. cbn [fold_left map]. rewrite IH. reflexivity. Qed.

Lemma pitch_sum_fold (l : list Quaternion) : forall s,
  pitch_sum (fold_left add_sample l s) =
  fold_left accumulate_degrees (map (fun q => pitch_rad (normalize q)) l) (pitch_sum s).
Proof. induction l as [|q l IH]; intros s; [reflexivity|]. cbn [fold_left map]. rewrite IH. reflexivity. Qed.

Lemma roll_sum_fold (l : list Quaternion) : forall s,
  roll_sum (fold_left add_sample l s) =
  fold_left accumulate_degrees (map (fun q => roll_rad (normalize q)) l) (roll_sum s).
Proof. induction l as [|q l IH]; intros s; [reflexivity|]. cbn [fold_left map]. rewrite IH. reflexivity. Qed.

Hypothesis HL : LibmSpec L.

(** The three angles in radians of a sane quaternion. *)
Lemma angles_radian (q : Quaternion) :
  sane q ->
  radian (yaw_rad (normalize q)) /\ radian (pitch_rad (normalize q)) /\
  radian (roll_rad (normalize q)).
Proof.
  intros [Hf Hs].
  destruct (normalize_accuracy q Hf Hs) as [Vc Bc].
  destruct (normalize q) as [w x y z].
  destruct (finite_quat_inv w x y z Vc) as (Hw & Hx & Hy & Hz).
  destruct (components_bounded w x y z Bc) as (Bw & Bx & By & Bz).
  destruct (product_bounded w z Hw Hz Bw Bz) as [V1 B1].
  destruct (product_bounded x y Hx Hy Bx By) as [V2 B2].
  destruct (product_bounded y y Hy Hy By By) as [V3 B3].
  destruct (product_bounded z z Hz Hz Bz Bz) as [V4 B4].
  destruct (product_bounded w x Hw Hx Bw Bx) as [V5 B5].
  destruct (product_bounded y z Hy Hz By Bz) as [V6 B6].
  destruct (product_bounded x x Hx Hx Bx Bx) as [V7 B7].
  destruct (product_bounded w y Hw Hy Bw By) as [V8 B8].
  destruct (product_bounded z x Hz Hx Bz Bx) as [V9 B9].
  split; [|split].
  - unfold yaw_rad, siny_cosp, cosy_cosp. cbn [qw qx qy qz].
    destruct (twice_sum_bounded _ _ V1 V2 B1 B2) as [Vs _].
    destruct (twice_sum_bounded _ _ V3 V4 B3 B4) as [Vt Bt].
    exact (atan2f_bounded HL _ _ Vs (one_minus_bounded _ Vt Bt)).
  - destruct (twice_diff_bounded _ _ V8 V9 B8 B9) as [Vs _].
    destruct (pitch_rad_bounded HL (mkQuat w x y z) Vs) as [Va Ba].
    split; [exact Va|]. rewrite half_pi_eq in Ba. rewrite F2R_pi_f.
    revert Ba. F2R_unfold. pow_lit. lra.
  - unfold roll_rad, sinr_cosp, cosr_cosp. cbn [qw qx qy qz].
    destruct (twice_sum_bounded _ _ V5 V6 B5 B6) as [Vs _].
    destruct (twice_sum_bounded _ _ V7 V3 B7 B3) as [Vt Bt].
    exact (atan2f_bounded HL _ _ Vs (one_minus_bounded _ Vt Bt)).
Qed.

Lemma angles_radian_all (l : list Quaternion) :
  Forall sane l ->
  Forall radian (map (fun q => yaw_rad (normalize q)) l) /\
  Forall radian (map (fun q => pitch_rad (normalize q)) l) /\
  Forall radian (map (fun q => roll_rad (normalize q)) l).
Proof.
  induction 1 as [|q l Hq Hl IH]; [repeat split; constructor|].
  destruct IH as (I1 & I2 & I3). destruct (angles_radian q Hq) as (A1 & A2 & A3).
  cbn [map]. repeat split; constructor; assumption.
Qed.

End Sums.

Lemma fetched_length (n : nat) : forall events, (List.length (fetched n events) <= n)%nat.
Proof.
  induction n as [|k IH]; intros [|[v|] rest]; cbn [fetched List.length]; try lia.
  - destruct (sensorId v =? SH2_ROTATION_VECTOR); cbn [List.length];
      pose proof (IH rest); lia.
  - pose proof (IH rest). lia.
Qed.

(** The mean of a bounded sum. *)
Lemma mean_bounded (s : float) :
  fv32 s = true -> (Rabs (F2R s) <= (180 + / 1000) * 10)%R ->
  bounded_by 181 (F32.div s f10).
Proof.
  intros Vs Bs. apply Rabs_le_inv in Bs.
  assert (B : (Rabs (F2R s / F2R f10) <= F2R f181)%R).
  { rewrite F2R_f10, F2R_f181. apply Rabs_le. lra. }
  assert (H : rnd32 (F2R s / F2R f10) (F32.div s f10)).
  { apply F32_div_ok with (bnd := f181); try assumption; try reflexivity.
    rewrite F2R_f10. lra. }
  destruct (rnd32_bounded _ _ f181 H eq_refl B) as [V Bd].
  rewrite F2R_f181 in Bd. split; assumption.
Qed.

Lemma sum_of_ten_bounded (l : list float) :
  Forall radian l -> (List.length l <= 10)%nat ->
  bounded_by 181 (F32.div (fold_left accumulate_degrees l f0) f10).
Proof.
  intros Hl Hn.
  destruct (accumulate_list_bounded l f0 0 Hl ltac:(simpl; lia) eq_refl) as [V B].
  { rewrite F2R_f0, Rabs_R0. simpl. lra. }
  apply mean_bounded; [exact V|].
  eapply Rle_trans; [exact B|]. cbn [Nat.add].
  apply Rmult_le_compat_l; [lra|].
  replace 10%R with (INR 10) by (simpl; lra). apply le_INR. exact Hn.
Qed.

(** X12.  With a math library meeting [LibmSpec], when every
    rotation-vector sample polled by [resetView] is a sane quaternion,
    the offsets it installs are numbers of magnitude at most 181
    degrees, however many of the ten polls delivered a sample. *)
Theorem resetView_offsets_bounded (L : Libm) (st : State) :
  LibmSpec L -> Forall sane (fetched 10 (bno st)) ->
  bounded_by 181 (yaw_offset (offset (resetView st))) /\
  bounded_by 181 (pitch_offset (offset (resetView st))) /\
  bounded_by 181 (roll_offset (offset (resetView st))).
Proof.
  intros HL Hs. rewrite resetView_offset. cbv zeta.
  cbn [yaw_offset pitch_offset roll_offset].
  rewrite yaw_sum_fold, pitch_sum_fold, roll_sum_fold. cbn [yaw_sum pitch_sum roll_sum].
  destruct (angles_radian_all HL _ Hs) as (A1 & A2 & A3).
  pose proof (fetched_length 10 (bno st)) as Hn.
  repeat split; apply sum_of_ten_bounded; try assumption; rewrite length_map; exact Hn.
Qed.

Lemma resetView_offsets_bounded_witness :
  Forall sane (fetched 10 (bno (state_with offset_30_40_50 [rotation_event q_identity]))) /\
  bounded_by 181
    (yaw_offset (offset (@resetView coarse_libm
                           (state_with offset_30_40_50 [rotation_event q_identity])))).
Proof.
  assert (H : Forall sane
                (fetched 10 (bno (state_with offset_30_40_50 [rotation_event q_identity])))).
  { constructor; [exact sane_identity | constructor]. }
  split; [exact H|].
  exact (proj1 (resetView_offsets_bounded coarse_libm _ coarse_libm_spec H)).
Defined.

(** * Recentering on a steady pose *)

Lemma F2R_f2m12 : F2R f2m12 = (/ 4096)%R.
Proof. unfold f2m12. F2R_unfold. pow_lit. lra. Qed.

(** A float of magnitude below 1 is converted to the integer 0. *)
Lemma int8_of_small_float (x : float) :
  fv32 x = true -> (Rabs (F2R x) < 1)%R -> int8_of_float x = 0.
Proof.
  intros Vx Bx.
  destruct (f2iz_truncates x 1 (fv32_is_finite _ Vx) ltac:(lia) ltac:(simpl; lra))
    as (_ & Hz & _).
  assert (Ha : Z.abs (f2iz x) < 1).
  { apply lt_IZR. rewrite abs_IZR. lra. }
  unfold int8_of_float. replace (f2iz x) with 0 by lia. reflexivity.
Qed.

(** One axis: the mean of ten sums of the same angle, subtracted from
    that angle in degrees, leaves less than [2^-12] degree, which needs
    no wrapping and maps to the axis value 0. *)
Lemma centred_axis (a : float) :
  radian a ->
  exists d : float,
    (forall fuel,
       normalize_angle fuel (to_degrees a)
         (F32.div (fold_left accumulate_degrees (repeat a 10) f0) f10) = Some d) /\
    int8_of_float (to_axis d) = 0.
Proof.
  intros Ha. pose proof (degrees_bound a Ha) as D.
  destruct (accumulate_repeat a 10 f0 0 Ha ltac:(lia) eq_refl) as [Vs Es].
  { rewrite F2R_f0. simpl INR. rewrite !Rmult_0_l, Rminus_0_r, Rabs_R0. lra. }
  change (0 + 10)%nat with 10%nat in Es.
  replace (INR 10) with 10%R in Es by (simpl; lra).
  rewrite bpow_lit_m13 in Es. apply Rabs_le_inv in Es, D.
  set (s := fold_left accumulate_degrees (repeat a 10) f0) in *.
  (* the offset *)
  assert (Ho : rnd32 (F2R s / F2R f10) (F32.div s f10)).
  { apply F32_div_ok with (bnd := f181); try assumption; try reflexivity.
    - rewrite F2R_f10. lra.
    - rewrite F2R_f10, F2R_f181. apply Rabs_le. lra. }
  apply rnd32_near with (E := 8) in Ho;
    [|rewrite F2R_f10, bpow_8; apply Rabs_def1; lra].
  change (fexp F32.prec F32.emax 8 - 1) with (-17) in Ho.
  rewrite F2R_f10, bpow_lit_m17 in Ho. destruct Ho as [Vo Eo]. apply Rabs_le_inv in Eo.
  set (off := F32.div s f10) in *.
  (* the angle of the sample *)
  destruct (to_degrees_le_180 a (proj1 Ha) (proj2 Ha)) as [Vr _].
  pose proof (to_degrees_accuracy a (proj1 Ha) (radian_le_4 a Ha)) as Er.
  fold (degrees a) in Er. rewrite bpow_lit_m15 in Er. apply Rabs_le_inv in Er.
  (* their difference *)
  assert (Hd : rnd32 (F2R (to_degrees a) - F2R off) (F32.sub (to_degrees a) off)).
  { apply F32_sub_ok with (bnd := f2m12); try assumption; try reflexivity.
    rewrite F2R_f2m12. apply Rabs_le. lra. }
  apply rnd32_bounded with (b := f2m12) in Hd;
    [|reflexivity|rewrite F2R_f2m12; apply Rabs_le; lra].
  destruct Hd as [Vd Bd]. rewrite F2R_f2m12 in Bd.
  set (d := F32.sub (to_degrees a) off) in *.
  destruct (wrap_within_540 d Vd ltac:(lra)) as (r & _ & _ & Hw).
  destruct (Hw ltac:(lra)) as [_ Hwrap].
  exists d. split; [intros fuel; unfold normalize_angle; fold off d; apply Hwrap|].
  apply Rabs_le_inv in Bd.
  destruct (to_axis_bounds d Vd ltac:(lra)) as (Vt & _ & Et).
  unfold linear_map in Et. rewrite bpow_lit_m14 in Et. apply Rabs_le_inv in Et.
  apply int8_of_small_float; [exact Vt|]. apply Rabs_def1; lra.
Qed.

Lemma fold_repeat_map {L : Libm} (f : Quaternion -> float) (q : Quaternion) (n : nat) :
  map (fun x => f (normalize x)) (repeat q n) = repeat (f (normalize q)) n.
Proof. induction n as [|n IH]; [reflexivity|]. cbn [repeat map]. rewrite IH. reflexivity. Qed.

(** X13.  Recentering on a steady pose centres the joystick: when a
    reset command arrives and the next eleven polls deliver the same
    sane quaternion, [resetView] consumes ten of them and the pass of
    [loop] ends, for every fuel, with the report (0, 0, 0) stored and,
    when the USB stack is ready, sent. *)
Theorem recenter_then_same_pose_is_centred
    (L : Libm) (fuel : nat) (command : string) (usb : bool)
    (st : State) (q : Quaternion) (rest : list (option sh2_SensorValue_t)) :
  LibmSpec L -> is_reset_command command = true -> sane q ->
  bno st = repeat (rotation_event q) 11 ++ rest ->
  exists st' : State,
    loop fuel (Some command) usb st = Some st' /\
    gamepad_report st' = mkReport 0 0 0 0 /\
    bno st' = rest /\
    sent st' = (if usb then sent st ++ [mkReport 0 0 0 0] else sent st).
Proof.
  intros HL Hc Hq Hb.
  rewrite loop_unfold. unfold no_reset. rewrite Hc. cbn [negb]. cbv zeta.
  destruct (resetView_polls st) as [Hp _]. rewrite Hb in Hp.
  change (skipn 10 (repeat (rotation_event q) 11 ++ rest))
    with (rotation_event q :: rest) in Hp.
  pose proof (resetView_offset st) as Ho. cbv zeta in Ho. rewrite Hb in Ho.
  change (fetched 10 (repeat (rotation_event q) 11 ++ rest)) with (repeat q 10) in Ho.
  rewrite yaw_sum_fold, pitch_sum_fold, roll_sum_fold in Ho.
  rewrite !fold_repeat_map in Ho. cbn [yaw_sum pitch_sum roll_sum] in Ho.
  pose proof (resetView_sent st) as Hs.
  set (st0 := resetView st) in *.
  assert (Hn : next_is_rotation st0 = true).
  { unfold next_is_rotation. rewrite Hp. reflexivity. }
  rewrite Hn. unfold getSensorEvent. rewrite Hp. unfold rotation_event. cbn [snd].
  unfold process_sample. cbn [sensorValue rotationVector offset bno sent gamepad_report].
  rewrite Ho. unfold quat_to_euler, normalize_angles.
  cbn [yaw pitch roll yaw_offset pitch_offset roll_offset].
  destruct (angles_radian HL q Hq) as (Ay & Ap & Ar).
  destruct (centred_axis _ Ay) as (dy & Hy & Zy).
  destruct (centred_axis _ Ap) as (dp & Hp' & Zp).
  destruct (centred_axis _ Ar) as (dr & Hr & Zr).
  rewrite (Hy fuel), (Hp' fuel), (Hr fuel).
  unfold axis_report. cbn [yaw pitch roll]. rewrite Zy, Zp, Zr, Hs.
  eexists. split; [reflexivity|]. cbn [gamepad_report bno sent].
  split; [reflexivity|]. split; reflexivity.
Qed.

Lemma recenter_then_same_pose_is_centred_witness :
  is_reset_command "reset"%string = true /\ sane q_identity /\
  exists st' : State,
    @loop coarse_libm 0 (Some "reset"%string) true
          (state_with offset_30_40_50 (repeat (rotation_event q_identity) 11 ++ []))
      = Some st' /\
    gamepad_report st' = mkReport 0 0 0 0.
Proof.
  split; [reflexivity|]. split; [exact sane_identity|].
  destruct (recenter_then_same_pose_is_centred coarse_libm 0 "reset"%string true
              (state_with offset_30_40_50 (repeat (rotation_event q_identity) 11 ++ []))
              q_identity [] coarse_libm_spec eq_refl sane_identity eq_refl)
    as (st' & H & Hg & _).
  exists st'. split; [exact H | exact Hg].
Defined.

(** * Runs of the sketch on sane sensor data *)

Lemma events_sane_tl (l : list (option sh2_SensorValue_t)) :
  events_sane l -> events_sane (tl l).
Proof. intros H. destruct H; [constructor | assumption]. Qed.

Lemma events_sane_skipn (n : nat) : forall l, events_sane l -> events_sane (skipn n l).
Proof.
  induction n as [|k IH]; intros l H; [exact H|].
  destruct H as [|ev l Hev Hl]; [constructor|]. cbn [skipn]. apply IH. exact Hl.
Qed.

Lemma fetched_sane (n : nat) : forall l, events_sane l -> Forall sane (fetched n l).
Proof.
  induction n as [|k IH]; intros l H; [destruct l as [|[v|] r]; constructor|].
  destruct H as [|ev l Hev Hl]; [constructor|].
  destruct ev as [v|]; cbn [fetched].
  - destruct (sensorId v =? SH2_ROTATION_VECTOR) eqn:E.
    + constructor; [apply Hev; apply Z.eqb_eq; exact E | apply IH; exact Hl].
    + apply IH. exact Hl.
  - apply IH. exact Hl.
Qed.

Lemma bounded_by_360 (x : float) : bounded_by 181 x -> bounded_by 360 x.
Proof. intros [V B]. split; [exact V | lra]. Qed.

Section Run.
Context {L : Libm}.
Hypothesis HL : LibmSpec L.

Lemma resetView_offset_ok (st : State) :
  events_sane (bno st) -> offset_ok (offset (resetView st)).
Proof.
  intros Hs. rewrite resetView_offset. cbv zeta.
  unfold offset_ok. cbn [yaw_offset pitch_offset roll_offset].
  rewrite yaw_sum_fold, pitch_sum_fold, roll_sum_fold. cbn [yaw_sum pitch_sum roll_sum].
  destruct (angles_radian_all HL _ (fetched_sane 10 _ Hs)) as (A1 & A2 & A3).
  pose proof (fetched_length 10 (bno st)) as Hn.
  repeat split; apply bounded_by_360, sum_of_ten_bounded; try assumption;
    rewrite length_map; exact Hn.
Qed.

(** One pass keeps the invariant. *)
Lemma loop_pass_sane (fuel : nat) (line : option string) (usb : bool) (st : State) :
  (1 <= fuel)%nat -> events_sane (bno st) -> offset_ok (offset st) ->
  Forall report_ok (sent st) ->
  exists st' : State,
    loop fuel line usb st = Some st' /\
    events_sane (bno st') /\ offset_ok (offset st') /\ Forall report_ok (sent st').
Proof.
  intros Hf He Ho Hs. rewrite loop_unfold. cbv zeta.
  set (st0 := if no_reset line then st else resetView st).
  assert (H0 : events_sane (bno st0) /\ offset_ok (offset st0) /\ sent st0 = sent st).
  { unfold st0. destruct (no_reset line); [auto|].
    destruct (resetView_polls st) as [Hp _]. rewrite Hp, resetView_sent.
    split; [apply events_sane_skipn; exact He|].
    split; [apply resetView_offset_ok; exact He | reflexivity]. }
  clearbody st0. destruct H0 as (He0 & Ho0 & Hs0).
  destruct (getSensorEvent_keeps st0) as (K1 & K2 & K3).
  pose proof (getSensorEvent_bno st0) as Kb.
  destruct (next_is_rotation st0) eqn:Hn.
  - assert (Hq : sane (rotationVector (sensorValue (snd (getSensorEvent st0))))).
    { unfold next_is_rotation in Hn. unfold getSensorEvent.
      destruct (bno st0) as [|[v|] rest]; try discriminate.
      cbn [snd sensorValue]. inversion He0 as [|ev l Hev Hl]; subst.
      apply Hev. apply Z.eqb_eq. exact Hn. }
    destruct (process_sample_sane L fuel usb (snd (getSensorEvent st0)) HL Hq
                ltac:(rewrite K1; exact Ho0) Hf)
      as (st' & H & Hr & Hsent & Hb & Hoff).
    exists st'. split; [exact H|].
    split; [rewrite Hb, Kb; apply events_sane_tl; exact He0|].
    split; [rewrite Hoff, K1; exact Ho0|].
    rewrite Hsent, K3, Hs0. destruct usb; [|exact Hs].
    apply Forall_app. split; [exact Hs | constructor; [exact Hr | constructor]].
  - eexists. split; [reflexivity|].
    split; [rewrite Kb; apply events_sane_tl; exact He0|].
    split; [rewrite K1; exact Ho0 | rewrite K3, Hs0; exact Hs].
Qed.

Lemma run_sane (fuel : nat) (passes : list (option string * bool)) : forall st,
  (1 <= fuel)%nat -> events_sane (bno st) -> offset_ok (offset st) ->
  Forall report_ok (sent st) ->
  exists st' : State,
    run fuel passes st = Some st' /\
    events_sane (bno st') /\ offset_ok (offset st') /\ Forall report_ok (sent st').
Proof.
  induction passes as [|[line usb] later IH]; intros st Hf He Ho Hs.
  - exists st. split; [reflexivity | auto].
  - cbn [run].
    destruct (loop_pass_sane fuel line usb st Hf He Ho Hs) as (st1 & H1 & He1 & Ho1 & Hs1).
    rewrite H1. apply IH; assumption.
Qed.

Lemma initialCenter_sane (st : State) :
  events_sane (bno st) ->
  events_sane (bno (initialCenter st)) /\ offset_ok (offset (initialCenter st)) /\
  sent (initialCenter st) = sent st.
Proof.
  intros He. unfold initialCenter.
  pose proof (getSensorEvent_bno st) as Kb.
  destruct (getSensorEvent_keeps st) as (_ & _ & K3).
  destruct (getSensorEvent st) as [got st1]. cbn [snd] in Kb, K3.
  assert (He1 : events_sane (bno st1)) by (rewrite Kb; apply events_sane_tl; exact He).
  destruct (resetView_polls st1) as [Hp _]. rewrite Hp, resetView_sent, K3.
  split; [apply events_sane_skipn; exact He1|].
  split; [apply resetView_offset_ok; exact He1 | reflexivity].
Qed.

End Run.

(** X14.  On sane sensor data the sketch never hangs and never sends
    an axis out of range: with a math library meeting [LibmSpec] and
    every rotation-vector event carrying a sane quaternion,
    [initialCenter] followed by any number of passes of [loop] --
    whatever the serial lines, reset commands included, and whether
    the USB stack is ready or not -- ends with one step of fuel per
    wrap loop, with offsets of at most a full turn and every report
    sent within [-127, 127] on its three axes. *)
Theorem sketch_never_hangs_on_sane_data
    (L : Libm) (fuel : nat) (passes : list (option string * bool)) (st : State) :
  LibmSpec L -> (1 <= fuel)%nat ->
  events_sane (bno st) -> Forall report_ok (sent st) ->
  exists st' : State,
    sketch fuel passes st = Some st' /\
    offset_ok (offset st') /\ Forall report_ok (sent st') /\ events_sane (bno st').
Proof.
  intros HL Hf He Hs. unfold sketch.
  destruct (initialCenter_sane HL st He) as (He1 & Ho1 & Hs1).
  destruct (run_sane HL fuel passes (initialCenter st) Hf He1 Ho1
              ltac:(rewrite Hs1; exact Hs)) as (st' & H & He' & Ho' & Hs').
  exists st'. split; [exact H|]. split; [exact Ho'|]. split; [exact Hs' | exact He'].
Qed.

Lemma two_events_sane :
  events_sane [rotation_event q_identity; None; rotation_event q_identity].
Proof.
  unfold events_sane.
  apply Forall_cons; [intros _; exact sane_identity|].
  apply Forall_cons; [exact I|].
  apply Forall_cons; [intros _; exact sane_identity | apply Forall_nil].
Qed.

Lemma sketch_never_hangs_on_sane_data_witness :
  events_sane [rotation_event q_identity; None; rotation_event q_identity] /\
  exists st' : State,
    @sketch coarse_libm 1 [(None, true); (Some "reset"%string, false)]
      (state_with offset_30_40_50
         [rotation_event q_identity; None; rotation_event q_identity]) = Some st' /\
    offset_ok (offset st') /\ Forall report_ok (sent st').
Proof.
  split; [exact two_events_sane|].
  destruct (sketch_never_hangs_on_sane_data coarse_libm 1
              [(None, true); (Some "reset"%string, false)]
              (state_with offset_30_40_50
                 [rotation_event q_identity; None; rotation_event q_identity])
              coarse_libm_spec (le_n 1) two_events_sane (Forall_nil _))
    as (st' & H & Ho & Hs & _).
  exists st'. split; [exact H|]. split; [exact Ho | exact Hs].
Defined.

(** * What [resetView] computes, on real numbers *)

(** The float sum of at most ten angles is within [2^-13] per angle of
    their exact sum in degrees. *)
Lemma accumulate_list_accuracy (l : list float) : forall (s : float) (k : nat),
  Forall radian l -> (k + List.length l <= 10)%nat ->
  fv32 s = true -> (Rabs (F2R s) <= (180 + / 1000) * INR k)%R ->
  (Rabs (F2R (fold_left accumulate_degrees l s) - (F2R s + sum_degrees l))
   <= INR (List.length l) * bpow (-13))%R.
Proof.
  induction l as [|a l IH]; intros s k Hl Hk Vs Bs.
  - cbn [fold_left List.length sum_degrees fold_right]. simpl INR.
    replace (F2R s - (F2R s + 0))%R with 0%R by ring. rewrite Rabs_R0. lra.
  - cbn [fold_left List.length sum_degrees fold_right] in *.
    fold (sum_degrees l).
    inversion Hl as [|a' l' Ha Hl']; subst.
    assert (Hk9 : (INR k <= 9)%R).
    { replace 9%R with (INR 9) by (simpl; lra). apply le_INR. lia. }
    assert (Hk0 : (0 <= INR k)%R) by apply pos_INR.
    destruct (accumulate_degrees_accuracy s a Vs ltac:(lra) (proj1 Ha) (radian_le_4 a Ha))
      as [V E].
    pose proof (degrees_bound a Ha) as D.
    rewrite bpow_lit_m13 in *. apply Rabs_le_inv in E, D, Bs.
    assert (Bs' : (Rabs (F2R (accumulate_degrees s a)) <= (180 + / 1000) * INR (S k))%R).
    { rewrite S_INR. apply Rabs_le. lra. }
    pose proof (IH (accumulate_degrees s a) (S k) Hl' ltac:(lia) V Bs') as I.
    apply Rabs_le_inv in I. rewrite S_INR. apply Rabs_le. lra.
Qed.

(** The mean: the sum divided by ten, rounded. *)
Lemma mean_accuracy (l : list float) :
  Forall radian l -> (List.length l <= 10)%nat ->
  (Rabs (F2R (F32.div (fold_left accumulate_degrees l f0) f10) - sum_degrees l / 10)
   <= bpow (-12))%R.
Proof.
  intros Hl Hn.
  destruct (accumulate_list_bounded l f0 0 Hl ltac:(simpl; lia) eq_refl) as [V B].
  { rewrite F2R_f0, Rabs_R0. simpl. lra. }
  pose proof (accumulate_list_accuracy l f0 0 Hl ltac:(simpl; lia) eq_refl) as A.
  rewrite F2R_f0, Rabs_R0 in A. specialize (A ltac:(simpl; lra)).
  rewrite Rplus_0_l in A. cbn [Nat.add] in B.
  assert (Hlen : (0 <= INR (List.length l) <= 10)%R).
  { split; [apply pos_INR|]. replace 10%R with (INR 10) by (simpl; lra).
    apply le_INR. exact Hn. }
  rewrite bpow_lit_m13 in A. apply Rabs_le_inv in A, B.
  set (s := fold_left accumulate_degrees l f0) in *.
  assert (Ho : rnd32 (F2R s / F2R f10) (F32.div s f10)).
  { apply F32_div_ok with (bnd := f181); try assumption; try reflexivity.
    - rewrite F2R_f10. lra.
    - rewrite F2R_f10, F2R_f181. apply Rabs_le. nra. }
  apply rnd32_near with (E := 8) in Ho;
    [|rewrite F2R_f10, bpow_8; apply Rabs_def1; nra].
  change (fexp F32.prec F32.emax 8 - 1) with (-17) in Ho.
  rewrite F2R_f10, bpow_lit_m17 in Ho. destruct Ho as [_ Eo]. apply Rabs_le_inv in Eo.
  rewrite bpow_neg_lit. pow_lit. apply Rabs_le. nra.
Qed.

(** X15.  What [resetView] installs, on real numbers: with a math
    library meeting [LibmSpec] and sane samples, each offset is, within
    [2^-12] degree, the sum of the angles in degrees of the samples
    fetched divided by ten -- their mean when all ten polls delivered
    a sample. *)
Theorem resetView_offset_is_sum_over_ten (L : Libm) (st : State) :
  LibmSpec L -> Forall sane (fetched 10 (bno st)) ->
  (Rabs (F2R (yaw_offset (offset (resetView st))) - sum_degrees (fetched_yaws st) / 10)
   <= bpow (-12))%R /\
  (Rabs (F2R (pitch_offset (offset (resetView st))) - sum_degrees (fetched_pitches st) / 10)
   <= bpow (-12))%R /\
  (Rabs (F2R (roll_offset (offset (resetView st))) - sum_degrees (fetched_rolls st) / 10)
   <= bpow (-12))%R.
Proof.
  intros HL Hs. rewrite resetView_offset. cbv zeta.
  cbn [yaw_offset pitch_offset roll_offset].
  rewrite yaw_sum_fold, pitch_sum_fold, roll_sum_fold. cbn [yaw_sum pitch_sum roll_sum].
  destruct (angles_radian_all HL _ Hs) as (A1 & A2 & A3).
  pose proof (fetched_length 10 (bno st)) as Hn.
  unfold fetched_yaws, fetched_pitches, fetched_rolls.
  repeat split; apply mean_accuracy; try assumption; rewrite length_map; exact Hn.
Qed.

Lemma resetView_offset_is_sum_over_ten_witness :
  Forall sane (fetched 10 (bno (state_with offset_30_40_50 [rotation_event q_identity]))) /\
  (Rabs (F2R (yaw_offset (offset (@resetView coarse_libm
                 (state_with offset_30_40_50 [rotation_event q_identity]))))
         - sum_degrees (@fetched_yaws coarse_libm
                          (state_with offset_30_40_50 [rotation_event q_identity])) / 10)
   <= bpow (-12))%R.
Proof.
  assert (H : Forall sane
                (fetched 10 (bno (state_with offset_30_40_50 [rotation_event q_identity])))).
  { constructor; [exact sane_identity | constructor]. }
  split; [exact H|].
  exact (proj1 (resetView_offset_is_sum_over_ten coarse_libm _ coarse_libm_spec H)).
Defined.
